(** * xyz-editor: tile collision handling, extrusion walls, MVT geometry decoding

    A shallow embedding of

    - [CollisionHandler] (display/webgl, two-phase label collision detection),
    - [addExtrude] / [addExterior] (display/webgl/buffer/addExtrude.ts),
    - [VectorTileFeature.prototype.loadGeometry] (core/providers/MVTProvider/toGeojson.ts),

    together with the properties the specification states about them.

    Conventions of the embedding.
    - A JavaScript [number] that holds a coordinate, a size or a priority is an
      exact rational ([Q]); tile indices, array indices and decoded varints are
      integers ([Z] / [nat]).  [Math.floor] is [Qfloor], [Math.round x] is
      [Qfloor (x + 1/2)], [x ^ 0] and [x >> k] work on [ToInt32 x].
    - Where a quotient or a product is floored to count boxes, the count
      depends on the rounding of binary64 arithmetic; there the numbers are
      rounded as the code rounds them ([Double], [binary64]).
    - A JavaScript object used as a dictionary is a [gmap string _]; an array
      is a [list].
    - A function that can throw returns a [Completion]. *)

From Stdlib Require Import ZArith QArith Qround Qabs Qpower Lia Lqa Bool List Ascii.
From Stdlib Require Import Sorting.Sorted Sorting.Permutation.
From stdpp Require Import base option list strings pretty gmap.

(** ** JavaScript primitives *)

Module JS.
Local Open Scope Q_scope.

(** How a call ends: it returns, it throws, or it never returns. *)
Inductive Completion (A : Type) : Type :=
| Normal (a : A)
| Throw (msg : string)
| Diverge.
Arguments Normal {A} a.
Arguments Throw {A} msg.
Arguments Diverge {A}.

#[export] Instance Completion_ret : MRet Completion := fun A a => Normal a.
#[export] Instance Completion_bind : MBind Completion := fun A B k c =>
  match c with
  | Normal a => k a
  | Throw m => Throw m
  | Diverge => Diverge
  end.

(** [ToInt32]: wrap an integer into the signed 32-bit range. *)
Definition to_int32 (z : Z) : Z :=
  ((z + 2 ^ 31) mod 2 ^ 32 - 2 ^ 31)%Z.

(** [x * .5 ^ 0] on an integer [x]: halve, truncate toward zero, wrap. *)
Definition half_trunc (x : Z) : Z := to_int32 (Z.quot x 2).

(** [x % 2] on an integer: the remainder has the sign of the dividend. *)
Definition rem2 (x : Z) : Z := Z.rem x 2.

Definition Qlt_bool (a b : Q) : bool := negb (Qle_bool b a).

(** [Math.min] / [Math.max] on finite numbers. *)
Definition math_min (a b : Q) : Q := if Qle_bool a b then a else b.
Definition math_max (a b : Q) : Q := if Qle_bool a b then b else a.

(** [Math.round]: nearest integer, ties toward +infinity. *)
Definition math_round (x : Q) : Z := Qfloor (x + (1 # 2)).

(** *** Numbers in binary64

    The numbers [insert] floors to decide how many boxes a candidate gets:
    finite ones, the two infinities and [NaN].  (The sign of a zero is not
    kept: the zeros met here come from [x + 4] and are positive.) *)
Inductive Double : Type :=
| Finite (q : Q)
| Infinity
| NegInfinity
| NaN.

(** The integer nearest to [q]; of two that are as near, the even one. *)
Definition round_half_even (q : Q) : Z :=
  let f := Qfloor q in
  match Qcompare (q - inject_Z f) (1 # 2) with
  | Lt => f
  | Gt => (f + 1)%Z
  | Eq => if Z.even f then f else (f + 1)%Z
  end.

(** [floor(log2 q)] for a positive [q]. *)
Definition floor_log2 (q : Q) : Z :=
  let e := (Z.log2 (Qnum q) - Z.log2 (Zpos (Qden q)))%Z in
  if Qle_bool (2 ^ e) q then e else (e - 1)%Z.

(** The binary64 number nearest to [q], ties to even: a multiple of
    [2 ^ (e - 52)], where [e] is the exponent of [q] and -1022 at least; from
    [2 ^ 1024] on it is an infinity. *)
Definition binary64 (q : Q) : Double :=
  if Qeq_bool q 0 then Finite 0
  else
    let a := Qabs q in
    let ulp := 2 ^ (Z.max (floor_log2 a) (-1022) - 52) in
    let r := Qred (inject_Z (round_half_even (a / ulp)) * ulp) in
    if Qle_bool (2 ^ 1024) r then (if Qle_bool 0 q then Infinity else NegInfinity)
    else Finite (if Qle_bool 0 q then r else - r).

(** [a / b] *)
Definition double_div (a b : Double) : Double :=
  match a, b with
  | NaN, _ | _, NaN => NaN
  | Finite p, Finite q =>
      if Qeq_bool q 0 then
        if Qeq_bool p 0 then NaN else if Qle_bool 0 p then Infinity else NegInfinity
      else binary64 (p / q)
  | Finite _, _ => Finite 0
  | Infinity, Finite q => if Qle_bool 0 q then Infinity else NegInfinity
  | NegInfinity, Finite q => if Qle_bool 0 q then NegInfinity else Infinity
  | _, _ => NaN
  end.

(** [a * b] *)
Definition double_mul (a b : Double) : Double :=
  match a, b with
  | NaN, _ | _, NaN => NaN
  | Finite p, Finite q => binary64 (p * q)
  | Finite p, Infinity | Infinity, Finite p =>
      if Qeq_bool p 0 then NaN else if Qle_bool 0 p then Infinity else NegInfinity
  | Finite p, NegInfinity | NegInfinity, Finite p =>
      if Qeq_bool p 0 then NaN else if Qle_bool 0 p then NegInfinity else Infinity
  | Infinity, Infinity | NegInfinity, NegInfinity => Infinity
  | _, _ => NegInfinity
  end.

(** [Math.floor] *)
Definition double_floor (a : Double) : Double :=
  match a with
  | Finite q => Finite (inject_Z (Qfloor q))
  | _ => a
  end.

(** [a > b] *)
Definition double_gt (a b : Double) : bool :=
  match a, b with
  | NaN, _ | _, NaN => false
  | Finite p, Finite q => Qlt_bool q p
  | Infinity, Infinity => false
  | Infinity, _ => true
  | _, NegInfinity => match a with NegInfinity => false | _ => true end
  | _, _ => false
  end.

(** [new Array(n)]: the length of the new array.  A number that is not an
    integer from 0 to [2 ^ 32 - 1] is a RangeError. *)
Definition new_Array (n : Double) : Completion Z :=
  match n with
  | Finite q =>
      if Qeq_bool q (inject_Z (Qfloor q)) && Qle_bool 0 q && Qle_bool q (inject_Z (2 ^ 32 - 1))
      then Normal (Qfloor q)
      else Throw "RangeError: Invalid array length"
  | _ => Throw "RangeError: Invalid array length"
  end.

(** [Number.MAX_SAFE_INTEGER] *)
Definition MAX_SAFE_INTEGER : Q := inject_Z (2 ^ 53 - 1).

(** [s.slice(0, -1)]: the string without its last character. *)
Fixpoint slice_0_m1 (s : string) : string :=
  match s with
  | EmptyString => EmptyString
  | String c EmptyString => EmptyString
  | String c rest => String c (slice_0_m1 rest)
  end.

End JS.

(** ** The collision handler *)

Module Collision.
Import JS.
Local Open Scope Q_scope.

Definition UPDATE_DELAY_MS : Z := 150.

Record BBox : Type := mkBBox {
  minX : Q;
  maxX : Q;
  minY : Q;
  maxY : Q
}.

(** One entry of [CollisionData.attrs]: a range [start, stop) of the typed
    array of a shared [Attribute], named here by its handle in the heap. *)
Record AttrRange : Type := mkAttrRange {
  start : nat;
  stop : nat;
  buffer : nat
}.

(** [CollisionData] as [insert] creates it and the tile cache keeps it. *)
Record CollisionData : Type := mkCollisionData {
  boxes : list BBox;
  attrs : list AttrRange;
  priority : Q;
  cx : Q;
  cy : Q;
  cz : Q;
  offsetX : Q;
  offsetY : Q;
  halfWidth : Q;
  halfHeight : Q;
  slope : option (Q * Q)
}.

(** [CollisionData] as [updateTileCollisionData] creates it for phase 2:
    only [boxes], [attrs], [slope] and [priority] are set. *)
Record ScreenCollision : Type := mkScreenCollision {
  sboxes : list BBox;
  sattrs : list AttrRange;
  sslope : option (Q * Q);
  spriority : Q
}.

(** [intersects] only reads the [boxes] property of its arguments. *)
Class HasBoxes (A : Type) := boxes_of : A -> list BBox.
#[export] Instance CollisionData_boxes : HasBoxes CollisionData := boxes.
#[export] Instance ScreenCollision_boxes : HasBoxes ScreenCollision := sboxes.

Record Tile : Type := mkTile {
  quadkey : string;
  x : Z;
  y : Z;
  z : Z
}.

(** What the handler reads of a [Layer]; [id] is the id as the template
    literal of [getDataKey] prints it. *)
Record Layer : Type := mkLayer {
  id : string;
  tileSize : Z
}.

Record LayerTileCollision : Type := mkLayerTileCollision {
  tileKey : string;
  data : list CollisionData;
  dataKey : string;
  existing : gmap string (list CollisionData)
}.

(** The fields of [CollisionHandler]; [timer] is the handle [setTimeout]
    returned, [None] is [null]. *)
Record Handler : Type := mkHandler {
  tiles : gmap string (gmap string (list CollisionData));
  curLayerTileCollision : option LayerTileCollision;
  updated : bool;
  timer : option nat
}.

Definition getTileCacheKey (quadkey : string) (layer : Layer) : string :=
  if (tileSize layer =? 256)%Z then slice_0_m1 quadkey else quadkey.

Definition getDataKey (quadkey : string) (layer : Layer) : string :=
  (id layer ++ "-" ++ quadkey)%string.

(** The test in the innermost loop of [intersects]. *)
Definition bbox_intersects (bbox1 bbox2 : BBox) : bool :=
  Qle_bool (minX bbox1) (maxX bbox2) && Qle_bool (minX bbox2) (maxX bbox1) &&
  Qle_bool (minY bbox1) (maxY bbox2) && Qle_bool (minY bbox2) (maxY bbox1).

Definition intersects `{HasBoxes A} `{HasBoxes B} (box1 : A) (data : list B) : bool :=
  existsb (fun d =>
    existsb (fun bbox2 =>
      existsb (fun bbox1 => bbox_intersects bbox1 bbox2) (boxes_of box1))
      (boxes_of d))
    data.

(** [updateBBoxes]: writes [result[0..boxes]]; both callers pass an array of
    at most [boxes + 1] slots, so the array afterwards is exactly this list. *)
Definition updateBBoxes (cx cy : Q) (slope : Q * Q) (w h : Q) (boxes : Z) : list BBox :=
  map (fun i : nat =>
         let relPos := (inject_Z (Z.of_nat i) / inject_Z boxes - (1 # 2)) * (3 # 4) in
         let x := fst slope * relPos + cx in
         let y := snd slope * relPos + cy in
         mkBBox (x - w) (x + w) (y - h) (y + h))
      (seq 0 (Z.to_nat (boxes + 1))).

(** *** Phase 2: screen space *)

(** An [Attribute] / [FlexAttribute]: a typed array, the number of
    components per vertex and the dirty flag. *)
Record Buffer : Type := mkBuffer {
  bdata : list Z;
  bsize : nat;
  dirty : bool
}.

(** The buffers the [attrs] of the collision data point to. *)
Abbreviation Heap := (gmap nat Buffer).

Record ViewportTile : Type := mkViewportTile {
  vquadkey : string;
  vx : Q;
  vy : Q;
  vscale : Q
}.

(** What the handler uses of its [Display]: [project(x, y, 0, 0, 0)], the
    scale [s], the viewport tiles and [getScreenTile]. *)
Record Display : Type := mkDisplay {
  project : Q -> Q -> Q * Q;
  s : Q;
  vtiles : list ViewportTile;
  getScreenTile : string -> Z -> option ViewportTile
}.

(** [data[i] & 1) == 1]; reading past the end of a typed array gives
    [undefined], whose low bit is 0. *)
Definition lsb_set (data : list Z) (i : nat) : bool :=
  (Z.land (default 0%Z (data !! i)) 1 =? 1)%Z.

(** [while (start < stop) { data[start] ^= 1; start += size; }]; a write past
    the end of a typed array is ignored.  Out of fuel is [None]. *)
Fixpoint toggle_range (fuel : nat) (data : list Z) (start stop size : nat)
    : option (list Z) :=
  if (start <? stop)%nat then
    match fuel with
    | O => None
    | S fuel' =>
        toggle_range fuel' (alter (fun v => Z.lxor v 1) start data) (start + size) stop size
    end
  else Some data.

(** The body of [for (let {buffer, start, stop} of bbox.attrs)]. *)
Definition update_attr (intersects : bool) (acc : Heap * bool) (a : AttrRange)
    : Completion (Heap * bool) :=
  let '(buffers, updated) := acc in
  match buffers !! buffer a with
  | None => Throw "TypeError: buffer is undefined"
  | Some buf =>
      let visible := lsb_set (bdata buf) (start a) in
      if Bool.eqb intersects visible then
        match toggle_range (stop a - start a) (bdata buf) (start a) (stop a) (bsize buf) with
        | None => Diverge
        | Some data' => Normal (<[buffer a := mkBuffer data' (bsize buf) true]> buffers, true)
        end
      else Normal (buffers, updated)
  end.

Fixpoint update_attrs (intersects : bool) (acc : Heap * bool) (l : list AttrRange)
    : Completion (Heap * bool) :=
  match l with
  | [] => Normal acc
  | a :: l' => acc' ← update_attr intersects acc a; update_attrs intersects acc' l'
  end.

(** [updateTileCollisionData], for one cached [CollisionData]. *)
Definition project_cData (display : Display) (tileX tileY tileScale displayScale : Q)
    (cData : CollisionData) : Completion ScreenCollision :=
  let offsetX := offsetX cData / displayScale in
  let offsetY := offsetY cData / displayScale in
  let boxCnt := length (boxes cData) in
  let screenX := tileX + cx cData * tileScale in
  let screenY := tileY + cy cData * tileScale in
  if (1 <? boxCnt)%nat then
    match slope cData with
    | None => Throw "TypeError: slope is undefined"
    | Some sl =>
        let screenX := screenX + offsetX in
        let screenY := screenY + offsetY in
        let '(prjX, prjY) := project display screenX screenY in
        let prjScreen2 := project display (screenX + fst sl) (screenY + snd sl) in
        let sl' := ((fst prjScreen2 - prjX) / displayScale,
                    (snd prjScreen2 - prjY) / displayScale) in
        Normal (mkScreenCollision
                  (updateBBoxes prjX prjY sl' (halfWidth cData) (halfHeight cData)
                     (Z.of_nat boxCnt - 1))
                  (attrs cData) (Some sl') (priority cData))
    end
  else
    let '(prjX, prjY) := project display screenX screenY in
    Normal (mkScreenCollision
              [mkBBox (prjX - halfWidth cData + offsetX) (prjX + halfWidth cData + offsetX)
                      (prjY - halfHeight cData + offsetY) (prjY + halfHeight cData + offsetY)]
              (attrs cData) (slope cData) (priority cData)).

Fixpoint project_all (display : Display) (tileX tileY tileScale displayScale : Q)
    (l : list CollisionData) (collisionData : list ScreenCollision)
    : Completion (list ScreenCollision) :=
  match l with
  | [] => Normal collisionData
  | cData :: l' =>
      sc ← project_cData display tileX tileY tileScale displayScale cData;
      project_all display tileX tileY tileScale displayScale l' (collisionData ++ [sc])
  end.

(** [updateTileCollisionData]: every segment of the tile, every entry of the
    segment, appended to [collisionData].  [for (let segment in ...)] visits
    the segments in the order in which they were first stored; a finite map
    does not keep that order, and the segments are taken here in the order of
    the map.  The candidates of one segment are in the order of their array. *)
Definition updateTileCollisionData (display : Display) (tileX tileY tileScale : Q)
    (tileCollisionData : gmap string (list CollisionData)) (displayScale : Q)
    (collisionData : list ScreenCollision) : Completion (list ScreenCollision) :=
  project_all display tileX tileY tileScale displayScale
    (concat (map snd (map_to_list tileCollisionData))) collisionData.

(** The first loop of [updateTiles]. *)
Fixpoint collect (display : Display) (cache : gmap string (gmap string (list CollisionData)))
    (tiles : list ViewportTile) (displayScale : Q) (collisionData : list ScreenCollision)
    : Completion (list ScreenCollision) :=
  match tiles with
  | [] => Normal collisionData
  | screentile :: rest =>
      match cache !! vquadkey screentile with
      | Some tileCollisionData =>
          acc ← updateTileCollisionData display (vx screentile) (vy screentile)
                  (vscale screentile) tileCollisionData displayScale collisionData;
          collect display cache rest displayScale acc
      | None => collect display cache rest displayScale collisionData
      end
  end.

(** [collisionData.sort((a, b) => a.priority - b.priority)]: a stable sort
    by ascending priority. *)
Fixpoint sort_insert (a : ScreenCollision) (l : list ScreenCollision) : list ScreenCollision :=
  match l with
  | [] => [a]
  | b :: l' => if Qle_bool (spriority a) (spriority b) then a :: b :: l'
               else b :: sort_insert a l'
  end.

Definition sort_by_priority (l : list ScreenCollision) : list ScreenCollision :=
  foldr sort_insert [] l.

(** The state of the sweep of [updateTiles]. *)
Record Sweep : Type := mkSweep {
  visibleItemsMapAligned : list ScreenCollision;
  visibleItemsViewportAligned : list ScreenCollision;
  heap : Heap;
  sweep_updated : bool
}.

(** The value of [intersects] once the body of the sweep has computed it:
    every candidate is tested against the viewport aligned items, one without
    a slope also against the map aligned items. *)
Definition sweep_intersects (mapAligned viewportAligned : list ScreenCollision)
    (bbox : ScreenCollision) : bool :=
  let intersects0 := intersects bbox viewportAligned in
  match sslope bbox with
  | Some _ => intersects0
  | None => intersects0 || intersects bbox mapAligned
  end.

(** [if (!intersects) visibleItems[visibleItems.length] = bbox], where
    [visibleItems] is the map aligned list for a candidate with a slope. *)
Definition sweep_accept (mapAligned viewportAligned : list ScreenCollision)
    (bbox : ScreenCollision) : list ScreenCollision * list ScreenCollision :=
  if sweep_intersects mapAligned viewportAligned bbox then (mapAligned, viewportAligned)
  else
    match sslope bbox with
    | Some _ => (mapAligned ++ [bbox], viewportAligned)
    | None => (mapAligned, viewportAligned ++ [bbox])
    end.

(** The body of [for (let bbox of collisionData)]. *)
Definition sweep_step (st : Sweep) (bbox : ScreenCollision) : Completion Sweep :=
  let mapAligned := visibleItemsMapAligned st in
  let viewportAligned := visibleItemsViewportAligned st in
  let intersects := sweep_intersects mapAligned viewportAligned bbox in
  let visibleItems := sweep_accept mapAligned viewportAligned bbox in
  '(heap', updated') ← update_attrs intersects (heap st, sweep_updated st) (sattrs bbox);
  Normal (mkSweep (fst visibleItems) (snd visibleItems) heap' updated').

Fixpoint sweep (st : Sweep) (collisionData : list ScreenCollision) : Completion Sweep :=
  match collisionData with
  | [] => Normal st
  | bbox :: rest => st' ← sweep_step st bbox; sweep st' rest
  end.

(** [updateTiles]: the new contents of the buffers and the returned flag.
    (The drawing of debug boxes, off by default, is left out.) *)
Definition updateTiles (display : Display)
    (cache : gmap string (gmap string (list CollisionData)))
    (tiles : list ViewportTile) (displayScale : Q) (buffers : Heap)
    : Completion (Heap * bool) :=
  collisionData ← collect display cache tiles displayScale [];
  st ← sweep (mkSweep [] [] buffers false) (sort_by_priority collisionData);
  Normal (heap st, sweep_updated st).

(** [updateTileSync]: [tile && this.updateTiles([tile], this.display.s)]. *)
Definition updateTileSync (display : Display)
    (cache : gmap string (gmap string (list CollisionData)))
    (tile : option ViewportTile) (buffers : Heap) : Completion (Heap * bool) :=
  match tile with
  | Some t => updateTiles display cache [t] (s display) buffers
  | None => Normal (buffers, false)
  end.

(** *** Phase 1: world space *)

Definition boxBuffer : Q := 4.

(** The value of [aspectRatio] at the test [aspectRatio > 1.5]:
    [Math.floor(max / min)] of the padded half sizes, as binary64 arithmetic
    gives it (rounding keeps the order, so the smaller number stays the
    smaller one and the two are rounded after they are picked). *)
Definition aspect_ratio (halfWidth halfHeight : Q) : Double :=
  let halfWidth := halfWidth + boxBuffer in
  let halfHeight := halfHeight + boxBuffer in
  let min := math_min halfWidth halfHeight in
  let max := math_max halfWidth halfHeight in
  double_floor (double_div (binary64 max) (binary64 min)).

(** [boxes = new Array(aspectRatio)] in the branch of the chains: the length
    of the array, which [new Array] may refuse; [None] outside that branch. *)
Definition chain_array (halfWidth halfHeight : Q) (slope : option (Q * Q))
    : Completion (option Z) :=
  let aspectRatio := aspect_ratio halfWidth halfHeight in
  match slope with
  | Some _ =>
      if double_gt aspectRatio (Finite (3 # 2)) then
        let aspectRatio := double_floor (double_mul aspectRatio (binary64 (7 # 10))) in
        n ← new_Array aspectRatio; Normal (Some n)
      else Normal None
  | None => Normal None
  end.

(** The [CollisionData] that [insert] builds: its boxes, and the values of
    [cx], [cy], [halfWidth] and [halfHeight] at the time the record is
    created.  Where [new Array] throws no record is built ([insert] throws);
    [insert_data] is then the record of the single box. *)
Definition insert_data (cx cy cz offsetX offsetY halfWidth halfHeight : Q)
    (tile : Tile) (tileSize : Z) (priority : option Q) (slope : option (Q * Q))
    : CollisionData :=
  let tileX := x tile in
  let tileY := y tile in
  let aligned := (tileSize =? 256)%Z in
  let cx := if aligned then cx + inject_Z (rem2 tileX * tileSize) else cx in
  let cy := if aligned then cy + inject_Z (rem2 tileY * tileSize) else cy in
  let tileX' := if aligned then half_trunc tileX else tileX in
  let tileY' := if aligned then half_trunc tileY else tileY in
  let tileSize' := if aligned then (tileSize * 2)%Z else tileSize in
  let tileX := inject_Z (tileX' * tileSize') + offsetX in
  let tileY := inject_Z (tileY' * tileSize') + offsetY in
  let boxes := chain_array halfWidth halfHeight slope in
  let halfWidth := halfWidth + boxBuffer in
  let halfHeight := halfHeight + boxBuffer in
  let min := math_min halfWidth halfHeight in
  let priority := default MAX_SAFE_INTEGER priority in
  match slope, boxes with
  | Some sl, Normal (Some aspectRatio) =>
      mkCollisionData
        (updateBBoxes (cx + tileX) (cy + tileY) sl min min aspectRatio)
        [] priority cx cy cz offsetX offsetY min min slope
  | _, _ =>
      mkCollisionData
        [mkBBox (tileX + cx - halfWidth) (tileX + cx + halfWidth)
                (tileY + cy - halfHeight) (tileY + cy + halfHeight)]
        [] priority cx cy cz offsetX offsetY halfWidth halfHeight slope
  end.

(** [for (let name in existing) if (intersects(c, existing[name])) ...] *)
Definition intersects_existing (c : CollisionData)
    (existing : gmap string (list CollisionData)) : bool :=
  existsb (fun entry => intersects c (snd entry)) (map_to_list existing).

(** [insert]: [Some c] is the returned [CollisionData], [None] is [false].
    [new Array] throws for a chain it cannot hold, and destructuring a null
    [curLayerTileCollision] throws; the handler is changed after that only. *)
Definition insert (cx cy cz offsetX offsetY halfWidth halfHeight : Q)
    (tile : Tile) (tileSize : Z) (priority : option Q) (slope : option (Q * Q))
    (h : Handler) : Completion (option CollisionData * Handler) :=
  _ ← chain_array halfWidth halfHeight slope;
  let collisionData :=
    insert_data cx cy cz offsetX offsetY halfWidth halfHeight tile tileSize priority slope in
  match curLayerTileCollision h with
  | None => Throw "TypeError: curLayerTileCollision is null"
  | Some cur =>
      if intersects collisionData (data cur) then Normal (None, h)
      else if intersects_existing collisionData (existing cur) then Normal (None, h)
      else
        Normal (Some collisionData,
                mkHandler (tiles h)
                  (Some (mkLayerTileCollision (tileKey cur) (data cur ++ [collisionData])
                           (dataKey cur) (existing cur)))
                  true (timer h))
  end.

Definition clearTile (quadkey : string) (layer : Layer) (h : Handler) : Handler :=
  let collisionTileKey := getTileCacheKey quadkey layer in
  let dataKey' := getDataKey quadkey layer in
  if bool_decide (dataKey <$> curLayerTileCollision h = Some dataKey') then h
  else
    match tiles h !! collisionTileKey with
    | Some collisionTile =>
        let collisionTile' := delete dataKey' collisionTile in
        if bool_decide (collisionTile' = ∅)
        then mkHandler (delete collisionTileKey (tiles h))
               (curLayerTileCollision h) (updated h) (timer h)
        else mkHandler (<[collisionTileKey := collisionTile']> (tiles h))
               (curLayerTileCollision h) (updated h) (timer h)
    | None => h
    end.

Section WithTileUtils.

(** [tileUtils.tileXYToQuadKey(z, y, x)] of the core package. *)
Variable tileXYToQuadKey : Z -> Z -> Z -> string.

(** The 8 cache keys around [(x, y)], in the order of the two loops. *)
Definition neighbour_keys (z y x : Z) : list string :=
  flat_map (fun ty =>
    flat_map (fun tx =>
      if negb (tx =? 0)%Z || negb (ty =? 0)%Z
      then [tileXYToQuadKey z (y + ty)%Z (x + tx)%Z] else [])
      [-1; 0; 1]%Z)
    [-1; 0; 1]%Z.

Definition initTile (tile : Tile) (layer : Layer) (h : Handler) : Handler :=
  let h := clearTile (quadkey tile) layer h in
  let aligned := (tileSize layer =? 256)%Z in
  let z := if aligned then (z tile - 1)%Z else z tile in
  let y := if aligned then half_trunc (y tile) else y tile in
  let x := if aligned then half_trunc (x tile) else x tile in
  let neighbours :=
    flat_map (fun qk =>
      match tiles h !! qk with
      | Some collisionData => concat (map snd (map_to_list collisionData))
      | None => []
      end) (neighbour_keys z y x) in
  let tileKey := getTileCacheKey (quadkey tile) layer in
  mkHandler (tiles h)
    (Some (mkLayerTileCollision tileKey [] (getDataKey (quadkey tile) layer)
             (default ∅ (tiles h !! tileKey) ∪ {[ "neighbours"%string := neighbours ]})))
    false (timer h).

End WithTileUtils.

(** [completeTile]: the returned flag, the handler and the buffers. *)
Definition completeTile (display : Display) (updateScreenSpaceCollision : bool)
    (h : Handler) (buffers : Heap) : Completion (bool * Handler * Heap) :=
  match curLayerTileCollision h with
  | None => Throw "TypeError: curLayerTileCollision is null"
  | Some cur =>
      let tileCollisionData := default ∅ (tiles h !! tileKey cur) in
      let tileCollisionData := <[dataKey cur := data cur]> tileCollisionData in
      let h' := mkHandler (<[tileKey cur := tileCollisionData]> (tiles h)) None
                  (updated h) (timer h) in
      if updated h && updateScreenSpaceCollision then
        '(buffers', _) ← updateTileSync display (tiles h')
                           (getScreenTile display (tileKey cur) 512) buffers;
        Normal (updated h, h', buffers')
      else Normal (updated h, h', buffers)
  end.

(** *** The debounce timer *)

(** The part of the browser's event loop [update] talks to: the clock in
    milliseconds and the timeouts that are set, each with its handle and the
    time it is due. *)
Record EventLoop : Type := mkEventLoop {
  now : Z;
  pending : list (nat * Z);
  nextTimer : nat
}.

Definition setTimeout (delay : Z) (l : EventLoop) : nat * EventLoop :=
  (nextTimer l,
   mkEventLoop (now l) (pending l ++ [(nextTimer l, (now l + delay)%Z)]) (S (nextTimer l))).

(** [update(callback)]. *)
Definition update (h : Handler) (l : EventLoop) : Handler * EventLoop :=
  match timer h with
  | None =>
      let '(t, l') := setTimeout UPDATE_DELAY_MS l in
      (mkHandler (tiles h) (curLayerTileCollision h) (updated h) (Some t), l')
  | Some _ => (h, l)
  end.

(** The function [update] hands to [setTimeout]; the flag tells whether
    [callback] was called. *)
Definition on_timeout (display : Display) (h : Handler) (buffers : Heap)
    : Completion (Handler * Heap * bool) :=
  '(buffers', updated') ← updateTiles display (tiles h) (vtiles display) (s display) buffers;
  Normal (mkHandler (tiles h) (curLayerTileCollision h) (updated h) None, buffers', updated').

(** The handler inside its event loop; [passes] lists the times at which a
    resolution pass ran, latest first. *)
Record World : Type := mkWorld {
  handler : Handler;
  loop : EventLoop;
  wbuffers : Heap;
  passes : list Z
}.

Inductive Event : Type :=
| CallUpdate
| Elapse (ms : nat).

(** Run the timeouts that are due at [t], in the order they were set. *)
Fixpoint fire_due (display : Display) (t : Z) (due : list (nat * Z)) (w : World)
    : Completion World :=
  match due with
  | [] => Normal w
  | (tid, at_) :: rest =>
      if (at_ <=? t)%Z then
        '(h', b', _) ← on_timeout display (handler w) (wbuffers w);
        fire_due display t rest
          (mkWorld h'
             (mkEventLoop (now (loop w))
                (filter (fun p => fst p ≠ tid) (pending (loop w))) (nextTimer (loop w)))
             b' (at_ :: passes w))
      else fire_due display t rest w
  end.

Definition step (display : Display) (w : World) (e : Event) : Completion World :=
  match e with
  | CallUpdate =>
      let '(h', l') := update (handler w) (loop w) in
      Normal (mkWorld h' l' (wbuffers w) (passes w))
  | Elapse ms =>
      let t := (now (loop w) + Z.of_nat ms)%Z in
      w' ← fire_due display t (pending (loop w)) w;
      Normal (mkWorld (handler w')
                (mkEventLoop t (pending (loop w')) (nextTimer (loop w')))
                (wbuffers w') (passes w'))
  end.

Fixpoint run (display : Display) (w : World) (es : list Event) : Completion World :=
  match es with
  | [] => Normal w
  | e :: es' => w' ← step display w e; run display w' es'
  end.

(** [key.split('-')[0]]: the key up to its first dash. *)
Fixpoint first_segment (key : string) : string :=
  match key with
  | EmptyString => EmptyString
  | String c rest => if Ascii.eqb c "-"%char then EmptyString else String c (first_segment rest)
  end.

Section WithNumber.

(** [Number(s)] for a string; [None] is [NaN]. *)
Variable Number : string -> option Q.

(** [Number(key.split('-')[0]) == id]; the number [id] of the layer is
    [Number] of its print. *)
Definition is_layer_key (layer : Layer) (key : string) : bool :=
  match Number (first_segment key), Number (id layer) with
  | Some a, Some b => Qeq_bool a b
  | _, _ => false
  end.

(** [removeTiles]: in every tile of the cache, the keys of the layer are
    deleted; the tile itself stays. *)
Definition removeTiles (layer : Layer) (h : Handler) : Handler :=
  mkHandler
    ((fun collisionTile : gmap string (list CollisionData) =>
        filter (fun entry => is_layer_key layer (fst entry) = false) collisionTile)
       <$> tiles h)
    (curLayerTileCollision h) (updated h) (timer h).

End WithNumber.

End Collision.

(** ** Side walls of extruded polygons *)

Module Extrude.
Import JS.
Local Open Scope Q_scope.

Definition MIN_VISIBLE_HEIGHT : Q := 1 # 100.

(** [FlatPolygon]: the range [start, stop) of the polygon in the vertex array
    (3 numbers per vertex) and, for every hole, the number of the vertex of
    the polygon the hole begins with.  Its [vertices] property is the vertex
    array itself. *)
Record FlatPolygon : Type := mkFlatPolygon {
  fstart : Z;
  fstop : Z;
  holes : list Z
}.

(** The arrays [addExterior] appends to. *)
Record Buffers : Type := mkBuffers {
  vertex : list Q;
  normals : list Q;
  vIndex : list Q;
  strokeIndex : option (list Q)
}.

(** [verts.get(i)] / [lineString[i]]; a read outside the array gives
    [undefined], for which 0 stands here: the polygons considered below lie
    inside the array. *)
Definition get (v : list Q) (i : Z) : Q :=
  if (i <? 0)%Z then 0 else default 0 (v !! Z.to_nat i).

(** [signedArea]: [for (i = start, len = stop - 1; i < len; i += 3)]. *)
Fixpoint signedArea_loop (fuel : nat) (lineString : list Q) (i len : Z) (sum : Q) : Q :=
  match fuel with
  | O => sum
  | S fuel' =>
      if (i <? len)%Z then
        let p1x := get lineString i in
        let p1y := get lineString (i + 1) in
        let p2x := get lineString (i + 3) in
        let p2y := get lineString (i + 4) in
        signedArea_loop fuel' lineString (i + 3)%Z len (sum + (p2x - p1x) * (p1y + p2y))
      else sum
  end.

Definition signedArea (lineString : list Q) (start stop : Z) : Q :=
  signedArea_loop (Z.to_nat (stop - 1 - start)) lineString start (stop - 1)%Z 0.

(** [start + holes[holeIndex] * 3 - 6]; [None] is [NaN]. *)
Definition next_hole (base : Z) (holes : list Z) (holeIndex : nat) : option Z :=
  (fun hole => base + hole * 3 - 6)%Z <$> holes !! holeIndex.

(** [nextHole ? nextHole + 3 : stop] *)
Definition ring_stop (nextHole : option Z) (stop : Z) : Z :=
  match nextHole with
  | Some n => if (n =? 0)%Z then stop else (n + 3)%Z
  | None => stop
  end.

(** A wall: its two end points, first to second. *)
Record Edge : Type := mkEdge { x1 : Q; y1 : Q; x2 : Q; y2 : Q }.

Section WithGeometry.

(** [isInBox(x, y, xmin, ymin, xmax, ymax)] of the display's geometry
    module, and [Math.sqrt]. *)
Variable isInBox : Q -> Q -> Q -> Q -> Q -> Q -> bool.
Variable math_sqrt : Q -> Q.

(** The edge the body of the loop looks at when it is at [start]. *)
Definition edge_at (verts : list Q) (fp : FlatPolygon) (stop start : Z) (clockwise : bool)
    : Edge :=
  if clockwise then
    let i := (fstart fp + stop - start)%Z in
    mkEdge (get verts i) (get verts (i + 1)) (get verts (i - 3)) (get verts (i - 2))
  else
    mkEdge (get verts start) (get verts (start + 1))
           (get verts (start + 3)) (get verts (start + 4)).

(** The condition under which the body of the loop adds a wall. *)
Definition wall_visible (tileSize : Q) (e : Edge) : bool :=
  let dx := (math_round (x1 e) - math_round (x2 e))%Z in
  let dy := (math_round (y1 e) - math_round (y2 e))%Z in
  (negb (dx =? 0)%Z || negb (dy =? 0)%Z) &&
  (isInBox (x1 e) (y1 e) 0 0 tileSize tileSize || isInBox (x2 e) (y2 e) 0 0 tileSize tileSize).

(** What the body of the loop appends for one wall. *)
Definition push_wall (extrude extrudeBase : Q) (e : Edge) (b : Buffers) : Buffers :=
  let dx := inject_Z (math_round (x1 e) - math_round (x2 e)) in
  let dy := inject_Z (math_round (y1 e) - math_round (y2 e)) in
  let vi := inject_Z (Z.of_nat (length (vertex b))) / 3 in
  let len := 127 / math_sqrt (dx * dx + dy * dy) in
  let nx := - dy * len in
  let ny := dx * len in
  mkBuffers
    (vertex b ++ [x1 e; y1 e; extrude; x1 e; y1 e; extrudeBase;
                  x2 e; y2 e; extrude; x2 e; y2 e; extrudeBase])
    (normals b ++ [nx; ny; nx; ny; nx; ny; nx; ny])
    (vIndex b ++ [vi + 2; vi; vi + 1; vi + 3; vi + 2; vi + 1])
    ((fun si => si ++ [vi; vi + 1; vi + 2; vi + 3; vi; vi + 2; vi + 1; vi + 3])
       <$> strokeIndex b).

(** [while (start < stop)] of [addExterior]; out of fuel is [None]. *)
Fixpoint addExterior_loop (fuel : nat) (fp : FlatPolygon) (tileSize extrude extrudeBase : Q)
    (stop start : Z) (holeIndex : nat) (nextHole : option Z) (clockwise : bool)
    (b : Buffers) : option Buffers :=
  if (start <? stop)%Z then
    match fuel with
    | O => None
    | S fuel' =>
        let e := edge_at (vertex b) fp stop start clockwise in
        let b := if wall_visible tileSize e then push_wall extrude extrudeBase e b else b in
        if bool_decide (Some start = nextHole) then
          let start := (start + 6)%Z in
          let holeIndex := S holeIndex in
          let nextHole := next_hole (fstart fp) (holes fp) holeIndex in
          let clockwise :=
            Qlt_bool (signedArea (vertex b) start (ring_stop nextHole stop)) 0 in
          addExterior_loop fuel' fp tileSize extrude extrudeBase stop start holeIndex
            nextHole clockwise b
        else
          addExterior_loop fuel' fp tileSize extrude extrudeBase stop (start + 3)%Z holeIndex
            nextHole clockwise b
    end
  else Some b.

Definition addExterior (fuel : nat) (flatPolygon : FlatPolygon) (b : Buffers)
    (tileSize extrude : Q) (extrudeBase : option Q) : option Buffers :=
  let stop := (fstop flatPolygon - 3)%Z in
  let start := fstart flatPolygon in
  let nextHole := next_hole start (holes flatPolygon) 0 in
  let clockwise := Qle_bool 0 (signedArea (vertex b) start (ring_stop nextHole stop)) in
  let extrudeBase := default 0 extrudeBase in
  addExterior_loop fuel flatPolygon tileSize extrude extrudeBase stop start 0 nextHole
    clockwise b.

(** The fuel that always suffices: [start] grows by at least 3 a turn. *)
Definition addExterior_fuel (flatPolygon : FlatPolygon) : nat :=
  Z.to_nat (fstop flatPolygon - 3 - fstart flatPolygon).

Section WithAddPolygon.

(** [addPolygon(vertex, coordinates, tile, tileSize, extrude)] of the
    same directory: the vertex array with the top surface appended, and
    the flat polygons. *)
Variable Coordinates : Type.
Variable TileT : Type.
Variable addPolygon :
  list Q -> Coordinates -> TileT -> Q -> Q -> list Q * list FlatPolygon.

(** [while (v < vertex.length) { normals.push(0, 0); v += 3; }] *)
Definition fake_normals (v len : nat) : list Q :=
  concat (replicate (Nat.div (len - v + 2) 3) [0; 0]).

Fixpoint addExterior_all (flats : list FlatPolygon) (b : Buffers)
    (tileSize extrude : Q) (extrudeBase : option Q) : option Buffers :=
  match flats with
  | [] => Some b
  | flat :: rest =>
      b' ← addExterior (addExterior_fuel flat) flat b tileSize extrude extrudeBase;
      addExterior_all rest b' tileSize extrude extrudeBase
  end.

Definition addExtrude (b : Buffers) (coordinates : Coordinates) (tile : TileT)
    (tileSize extrude : Q) (extrudeBase : option Q)
    : option (list FlatPolygon * Buffers) :=
  let v := length (vertex b) in
  let '(vertex', flatPolygon) := addPolygon (vertex b) coordinates tile tileSize extrude in
  let b := mkBuffers vertex' (normals b ++ fake_normals v (length vertex'))
             (vIndex b) (strokeIndex b) in
  if Qlt_bool MIN_VISIBLE_HEIGHT extrude then
    b' ← addExterior_all flatPolygon b tileSize extrude extrudeBase;
    Some (flatPolygon, b')
  else Some (flatPolygon, b).

End WithAddPolygon.
End WithGeometry.

(** Modelled from the spec: [isInBox] of the display's geometry module is
    not part of the sources at hand; a point is in the box when it lies
    within the bounds on both axes. *)
Definition isInBox_spec (x y xmin ymin xmax ymax : Q) : bool :=
  Qle_bool xmin x && Qle_bool x xmax && Qle_bool ymin y && Qle_bool y ymax.

End Extrude.

(** ** Decoding the geometry of a vector tile feature *)

Module MVT.
Import JS.
Local Open Scope Z_scope.

(** What [loadGeometry] uses of a [Protobuf] reader: the position, and the
    two reads, which return the value and the reader moved on. *)
Class PbfReader (P : Type) : Type := {
  pos : P -> Z;
  set_pos : Z -> P -> P;
  readVarint : P -> Z * P;
  readSVarint : P -> Z * P
}.

(** The variables of [loadGeometry]; [line = None] is [undefined]. *)
Record Decoder (P : Type) : Type := mkDecoder {
  pbf : P;
  cmd : Z;
  length : Z;
  x : Z;
  y : Z;
  lines : list (list (Z * Z));
  line : option (list (Z * Z))
}.
Arguments mkDecoder {P}.
Arguments pbf {P}.
Arguments cmd {P}.
Arguments length {P}.
Arguments x {P}.
Arguments y {P}.
Arguments lines {P}.
Arguments line {P}.

Section WithReader.
Context {P : Type} `{PbfReader P}.

(** [if (length <= 0) { cmdLen = readVarint(); cmd = cmdLen & 0x7;
    length = cmdLen >> 3; } length--;] *)
Definition fetch (d : Decoder P) : Decoder P :=
  if length d <=? 0 then
    let '(cmdLen, p) := readVarint (pbf d) in
    mkDecoder p (Z.land (to_int32 cmdLen) 7) (Z.shiftr (to_int32 cmdLen) 3 - 1)
      (x d) (y d) (lines d) (line d)
  else
    mkDecoder (pbf d) (cmd d) (length d - 1) (x d) (y d) (lines d) (line d).

(** The rest of the body of the loop, once [cmd] and [length] are set. *)
Definition dispatch (d : Decoder P) : Completion (Decoder P) :=
  if (cmd d =? 1) || (cmd d =? 2) then
    let '(a, p) := readSVarint (pbf d) in
    let '(b, p) := readSVarint p in
    let x' := x d + a in
    let y' := y d + b in
    if cmd d =? 1 then
      let lines' := match line d with Some l => lines d ++ [l] | None => lines d end in
      Normal (mkDecoder p (cmd d) (length d) x' y' lines' (Some [(x', y')]))
    else
      match line d with
      | Some l =>
          Normal (mkDecoder p (cmd d) (length d) x' y' (lines d) (Some (l ++ [(x', y')])))
      | None => Throw "TypeError: line is undefined"
      end
  else if cmd d =? 7 then
    match line d with
    | Some (p0 :: l) =>
        Normal (mkDecoder (pbf d) (cmd d) (length d) (x d) (y d) (lines d)
                  (Some (p0 :: l ++ [p0])))
    | Some [] => Throw "TypeError: line[0] is undefined"
    | None => Normal d
    end
  else Throw ("unknown command " +:+ pretty (cmd d)).

(** [while (pbf.pos < end) { ... }] followed by the two last statements;
    out of fuel is [None]. *)
Fixpoint decode_loop (fuel : nat) (end_ : Z) (d : Decoder P)
    : option (Completion (list (list (Z * Z)))) :=
  if pos (pbf d) <? end_ then
    match fuel with
    | O => None
    | S fuel' =>
        match dispatch (fetch d) with
        | Normal d' => decode_loop fuel' end_ d'
        | Throw m => Some (Throw m)
        | Diverge => Some Diverge
        end
    end
  else
    Some (Normal (match line d with Some l => lines d ++ [l] | None => lines d end)).

(** The state in which the loop is entered, and its bound [end]. *)
Definition init (p : P) (geometry : Z) : Z * Decoder P :=
  let '(len, p) := readVarint (set_pos geometry p) in
  (len + pos p, mkDecoder p 1 0 0 0 [] None).

(** [loadGeometry], for a feature whose [_geometry] is [geometry]. *)
Definition loadGeometry (fuel : nat) (p : P) (geometry : Z)
    : option (Completion (list (list (Z * Z)))) :=
  let '(end_, d) := init p geometry in
  decode_loop fuel end_ d.

(** The commands the loop dispatches on, in order. *)
Fixpoint executed (fuel : nat) (end_ : Z) (d : Decoder P) : list Z :=
  match fuel with
  | O => []
  | S fuel' =>
      if pos (pbf d) <? end_ then
        cmd (fetch d) ::
          match dispatch (fetch d) with
          | Normal d' => executed fuel' end_ d'
          | _ => []
          end
      else []
  end.

End WithReader.

(** A reader for experiments: the buffer holds one decoded value per
    position, and a read past its end gives 0. *)
Record TokenReader : Type := mkTokenReader {
  tokens : list Z;
  tpos : Z
}.

Definition read_token (r : TokenReader) : Z * TokenReader :=
  (if tpos r <? 0 then 0 else default 0 (tokens r !! Z.to_nat (tpos r)),
   mkTokenReader (tokens r) (tpos r + 1)).

#[export] Instance TokenReader_pbf : PbfReader TokenReader := {|
  pos := tpos;
  set_pos := fun p r => mkTokenReader (tokens r) p;
  readVarint := read_token;
  readSVarint := read_token
|}.


(** [signedArea(ring)] of the rings [loadGeometry] returns, whose
    coordinates are integers:
    [for (i = 0, len = ring.length, j = len - 1; i < len; j = i++)]. *)
Fixpoint signedArea_loop (fuel : nat) (ring : list (Z * Z)) (i j : nat) (sum : Z) : Z :=
  match fuel with
  | O => sum
  | S fuel' =>
      if (i <? List.length ring)%nat then
        let p1 := default (0, 0) (ring !! i) in
        let p2 := default (0, 0) (ring !! j) in
        signedArea_loop fuel' ring (S i) i (sum + (fst p2 - fst p1) * (snd p1 + snd p2))
      else sum
  end.

Definition signedArea (ring : list (Z * Z)) : Z :=
  signedArea_loop (List.length ring) ring 0 (List.length ring - 1) 0.

(** The variables of [classifyRings]; [None] is [undefined]. *)
Record Classifier : Type := mkClassifier {
  polygons : list (list (list (Z * Z)));
  polygon : option (list (list (Z * Z)));
  ccw : option bool
}.

(** The body of the loop of [classifyRings]. *)
Definition classify (st : Classifier) (ring : list (Z * Z)) : Completion Classifier :=
  let area := signedArea ring in
  if area =? 0 then Normal st
  else
    let ccw' := match ccw st with None => area <? 0 | Some c => c end in
    if Bool.eqb ccw' (area <? 0) then
      Normal (mkClassifier
                (match polygon st with Some p => polygons st ++ [p] | None => polygons st end)
                (Some [ring]) (Some ccw'))
    else
      match polygon st with
      | Some p => Normal (mkClassifier (polygons st) (Some (p ++ [ring])) (Some ccw'))
      | None => Throw "TypeError: polygon is undefined"
      end.

Fixpoint classify_all (st : Classifier) (rings : list (list (Z * Z)))
    : Completion Classifier :=
  match rings with
  | [] => Normal st
  | ring :: rest => st' ← classify st ring; classify_all st' rest
  end.

Definition classifyRings (rings : list (list (Z * Z)))
    : Completion (list (list (list (Z * Z)))) :=
  if (List.length rings <=? 1)%nat then Normal [rings]
  else
    st ← classify_all (mkClassifier [] None None) rings;
    Normal (match polygon st with Some p => polygons st ++ [p] | None => polygons st end).

(** [1 << z] for an integer [z]: the count is taken modulo 32. *)
Definition worldSize (z : Z) : Z := to_int32 (Z.shiftl 1 (z mod 32)).

(** [scaleToTilesize]: the points of the line, each replaced by its place in
    the world square. *)
Definition scaleToTilesize (line : list (Q * Q)) (x y z : Z) (extent : Q) : list (Q * Q) :=
  map (fun p =>
         (((inject_Z x + fst p / extent) / inject_Z (worldSize z))%Q,
          ((inject_Z y + snd p / extent) / inject_Z (worldSize z))%Q))
      line.


(** *** The task of [mvtPreProcessor] *)

Definition BUNDLE_FEATURE_SIZE : nat := 16.

(** A value of the properties of a feature. *)
Inductive Value : Type :=
| VString (s : string)
| VNumber (n : Q)
| VBool (b : bool).

Inductive Signal : Type := CONTINUE | BREAK.

(** [properties[key] ??= value] *)
Definition set_default (key : string) (value : Value) (properties : gmap string Value)
    : gmap string Value :=
  match properties !! key with
  | Some _ => properties
  | None => <[key := value]> properties
  end.

(** [processCoordinates] with a processor that only reads, as that of
    [decodeBBox]: the length of the coordinates it returns, and the lines the
    processor is called on, in order.  A point [None] is [undefined]:
    [coords[i][0]] of a line without points. *)
Definition processCoordinates (type : Z) (coords : list (list (Z * Z)))
    : Completion (nat * list (list (option (Z * Z)))) :=
  if type =? 1 then Normal (List.length coords, [map head coords])
  else if type =? 2 then Normal (List.length coords, map (map Some) coords)
  else if type =? 3 then
    polygons ← classifyRings coords;
    Normal (List.length polygons, map (map Some) (concat polygons))
  else Normal (List.length coords, []).

(** [minX], [maxX], [minY] and [maxY] of [decodeBBox]; [None] as long as
    they are the infinities they start from. *)
Definition Bounds : Type := option (Z * Z * Z * Z).

(** The body of [for (let p of line)] in the processor of [decodeBBox]. *)
Definition bound (b : Bounds) (p : option (Z * Z)) : Completion Bounds :=
  match p with
  | None => Throw "TypeError: p is undefined"
  | Some (x, y) =>
      Normal (Some (match b with
                    | None => (x, x, y, y)
                    | Some (minX, maxX, minY, maxY) =>
                        (Z.min minX x, Z.max maxX x, Z.min minY y, Z.max maxY y)
                    end))
  end.

Fixpoint bound_all (b : Bounds) (points : list (option (Z * Z))) : Completion Bounds :=
  match points with
  | [] => Normal b
  | p :: rest => b' ← bound b p; bound_all b' rest
  end.

Section WithFeatures.
Context {P : Type} `{PbfReader P}.

(** The triangles prepared for a polygon, and the bounding box of a
    feature. *)
Variable Triangles : Type.
Variable BBoxT : Type.

(** [VectorTileFeature.types[type]] of the vector tile library; [None] is
    [undefined]. *)
Variable types : Z -> option string.

(** The four numbers of the bounding box, which [x2Lon] and [y2Lat] compute
    in floating point (with [Math.atan] and [Math.exp]) from the bounds of the
    points, [x0], [y0] and [size]. *)
Variable bbox_of : Bounds -> Z -> Z -> Z -> BBoxT.

(** What the code reads of a [VectorTileFeature] of the vector tile
    library; [vt_id = None] when the feature has no [id]. *)
Record VTFeature : Type := mkVTFeature {
  vt_type : Z;
  extent : Z;
  vt_properties : gmap string Value;
  vt_id : option Z;
  _pbf : P;
  _geometry : Z
}.

(** A layer of the vector tile: [mvtLayer.name], and [mvtLayer.feature(f)]
    for [f] below [mvtLayer.length]. *)
Record VTLayer : Type := mkVTLayer {
  name : string;
  features : list VTFeature
}.

(** What [exec] reads and writes of the feature [vtFeatureToGeoJSON]
    returns; [geometry_type = None] is [undefined]. *)
Record GeoJsonFeature : Type := mkGeoJsonFeature {
  geometry_type : option string;
  geometry_xyz : option Triangles;
  id : option Z;
  properties : gmap string Value;
  bbox : option BBoxT
}.

(** ['Multi' + type] *)
Definition multi (type : option string) : option string :=
  Some ("Multi" +:+ default "undefined" type)%string.

(** [decodeBBox]: the bounding box and the name of the type.  Out of fuel
    (in [loadGeometry]) is [None]. *)
Definition decodeBBox (fuel : nat) (vtFeature : VTFeature) (x y z : Z)
    : option (Completion (BBoxT * option string)) :=
  let size := extent vtFeature * worldSize z in
  let x0 := extent vtFeature * x in
  let y0 := extent vtFeature * y in
  let type := types (vt_type vtFeature) in
  loaded ← loadGeometry fuel (_pbf vtFeature) (_geometry vtFeature);
  Some (coords ← loaded;
        '(len, visited) ← processCoordinates (vt_type vtFeature) coords;
        bounds ← bound_all None (concat visited);
        Normal (bbox_of bounds x0 y0 size, if (1 <? len)%nat then multi type else type)).

(** [vtFeatureToGeoJSON(vtFeature, {x, y, z, l}, includeBBox)] *)
Definition vtFeatureToGeoJSON (fuel : nat) (vtFeature : VTFeature)
    (xyz : Z * Z * Z * string) (includeBBox : bool) : option (Completion GeoJsonFeature) :=
  let '(x, y, z, _) := xyz in
  decoded ← decodeBBox fuel vtFeature x y z;
  Some ('(bbox, type) ← decoded;
        Normal (mkGeoJsonFeature type None (vt_id vtFeature) (vt_properties vtFeature)
                  (if includeBBox then Some bbox else None))).

(** [TaskData]: the layers of [mvt] in the order of [layers], the
    prepared triangles (taken to be an array, with one entry for a layer at
    most) and the counters. *)
Record TaskData : Type := mkTaskData {
  task_xyz : Z * Z * Z;
  task_layers : list VTLayer;
  task_triangles : list (list Triangles);
  task_l : nat;
  task_f : nat;
  task_geojson : list GeoJsonFeature
}.

(** What the body of the inner loop does to the feature: [f] is its index
    and [guid] the counter after [++guid]. *)
Definition complete (mvtLayer : VTLayer) (xyzLayer : option (list Triangles)) (f : nat)
    (guid : Z) (feature : GeoJsonFeature) : GeoJsonFeature :=
  let geom := geometry_type feature in
  mkGeoJsonFeature geom
    (if bool_decide (geom = Some "MultiPolygon"%string) || bool_decide (geom = Some "Polygon"%string)
     then xyzLayer ≫= fun t => t !! f
     else geometry_xyz feature)
    (Some guid)
    (set_default "$layer" (VString (name mvtLayer))
       (set_default "layer" (VString (name mvtLayer)) (properties feature)))
    (bbox feature).

(** [while (f < mvtLayer.length) { ... }], over the features from [f] on.
    The loop pushes to the array [geojson] and counts [guid] up as it goes,
    so what it has done stays done when a feature makes it throw; the result
    is how the loop ended ([true]: by [return this.CONTINUE]) and [f], [guid]
    and [geojson] at that time.  Out of fuel is [None]. *)
Fixpoint bundle (fuel : nat) (mvtLayer : VTLayer) (xyzLayer : option (list Triangles))
    (_xyz : Z * Z * Z * string) (rest : list VTFeature) (f : nat) (guid : Z)
    (geojson : list GeoJsonFeature)
    : option (Completion bool * nat * Z * list GeoJsonFeature) :=
  match rest with
  | [] => Some (Normal false, f, guid, geojson)
  | vtFeature :: rest' =>
      match vtFeatureToGeoJSON fuel vtFeature _xyz true with
      | None => None
      | Some (Normal feature) =>
          let guid := guid + 1 in
          let feature := complete mvtLayer xyzLayer f guid feature in
          let f := S f in
          let geojson := geojson ++ [feature] in
          if (f mod BUNDLE_FEATURE_SIZE =? 0)%nat then Some (Normal true, f, guid, geojson)
          else bundle fuel mvtLayer xyzLayer _xyz rest' f guid geojson
      | Some (Throw m) => Some (Throw m, f, guid, geojson)
      | Some Diverge => Some (Diverge, f, guid, geojson)
      end
  end.

(** [exec(data)], with the counter [guid] of the module: how the call ended,
    and [data] and [guid] at that time ([data.f] and [data.l] are written
    just before a return).  Out of fuel is [None]. *)
Definition exec (fuel : nat) (data : TaskData) (guid : Z)
    : option (Completion Signal * TaskData * Z) :=
  match task_layers data !! task_l data with
  | Some mvtLayer =>
      let xyzLayer := task_triangles data !! task_l data in
      let _xyz := (task_xyz data, name mvtLayer) in
      '(ended, f, guid, geojson) ←
        bundle fuel mvtLayer xyzLayer _xyz (drop (task_f data) (features mvtLayer))
          (task_f data) guid (task_geojson data);
      Some
        match ended with
        | Normal true =>
            (Normal CONTINUE,
             mkTaskData (task_xyz data) (task_layers data) (task_triangles data)
               (task_l data) f geojson, guid)
        | Normal false =>
            (Normal CONTINUE,
             mkTaskData (task_xyz data) (task_layers data) (task_triangles data)
               (S (task_l data)) 0 geojson, guid)
        | Throw m =>
            (Throw m,
             mkTaskData (task_xyz data) (task_layers data) (task_triangles data)
               (task_l data) (task_f data) geojson, guid)
        | Diverge =>
            (Diverge,
             mkTaskData (task_xyz data) (task_layers data) (task_triangles data)
               (task_l data) (task_f data) geojson, guid)
        end
  | None => Some (Normal BREAK, data, guid)
  end.

End WithFeatures.

Arguments VTFeature : clear implicits.
Arguments VTLayer : clear implicits.
Arguments TaskData : clear implicits.
Arguments mkVTFeature {P}.
Arguments vt_type {P}.
Arguments extent {P}.
Arguments vt_properties {P}.
Arguments vt_id {P}.
Arguments _pbf {P}.
Arguments _geometry {P}.
Arguments mkVTLayer {P}.
Arguments name {P}.
Arguments features {P}.
Arguments mkGeoJsonFeature {Triangles BBoxT}.
Arguments geometry_type {Triangles BBoxT}.
Arguments geometry_xyz {Triangles BBoxT}.
Arguments id {Triangles BBoxT}.
Arguments properties {Triangles BBoxT}.
Arguments bbox {Triangles BBoxT}.
Arguments mkTaskData {P Triangles BBoxT}.
Arguments task_xyz {P Triangles BBoxT}.
Arguments task_layers {P Triangles BBoxT}.
Arguments task_triangles {P Triangles BBoxT}.
Arguments task_l {P Triangles BBoxT}.
Arguments task_f {P Triangles BBoxT}.
Arguments task_geojson {P Triangles BBoxT}.
Arguments complete {P Triangles BBoxT}.
Arguments decodeBBox {P _ BBoxT}.
Arguments vtFeatureToGeoJSON {P _ Triangles BBoxT}.
Arguments bundle {P _ Triangles BBoxT}.
Arguments exec {P _ Triangles BBoxT}.

End MVT.

(** ** Vocabulary of the specification *)

Module Props.
Import JS Collision.
Local Open Scope Q_scope.

(** The closed-interval test in the words of the specification: each
    rectangle's min is at most the other's max, on both axes. *)
Definition bbox_overlap (a b : BBox) : Prop :=
  minX a <= maxX b /\ minX b <= maxX a /\ minY a <= maxY b /\ minY b <= maxY a.

(** Two candidates overlap when one box of the first meets one of the second. *)
Definition overlap `{HasBoxes A} `{HasBoxes B} (c : A) (d : B) : Prop :=
  exists a b, a ∈ boxes_of c /\ b ∈ boxes_of d /\ bbox_overlap a b.

(** The arguments of one call of [insert]. *)
Record InsertCall : Type := mkInsertCall {
  i_cx : Q; i_cy : Q; i_cz : Q;
  i_offsetX : Q; i_offsetY : Q;
  i_halfWidth : Q; i_halfHeight : Q;
  i_tile : Tile; i_tileSize : Z;
  i_priority : option Q;
  i_slope : option (Q * Q)
}.

Definition call_insert (c : InsertCall) (h : Handler)
    : Completion (option CollisionData * Handler) :=
  insert (i_cx c) (i_cy c) (i_cz c) (i_offsetX c) (i_offsetY c) (i_halfWidth c)
    (i_halfHeight c) (i_tile c) (i_tileSize c) (i_priority c) (i_slope c) h.

(** A sequence of calls of [insert], with what each call returned.  A call
    that throws has accepted nothing and has left the handler as it was: it
    is listed like a call that returned [false], and the calls after it are
    made all the same, as by a caller that catches the exception. *)
Fixpoint insert_all (calls : list InsertCall) (h : Handler)
    : Completion (list (option CollisionData) * Handler) :=
  match calls with
  | [] => Normal ([], h)
  | c :: rest =>
      '(r, h') ← match call_insert c h with
                 | Throw _ => Normal (None, h)
                 | returned => returned
                 end;
      '(rs, h'') ← insert_all rest h';
      Normal (r :: rs, h'')
  end.

(** The candidates the calls accepted: the results other than [false]. *)
Definition accepted (results : list (option CollisionData)) : list CollisionData :=
  omap (fun r => r) results.

(** The batch under construction keeps its accepted candidates apart from
    one another and from the obstacles. *)
Definition batch_ok (cur : LayerTileCollision) : Prop :=
  (forall i j c d, i ≠ j -> data cur !! i = Some c -> data cur !! j = Some d -> ~ overlap c d) /\
  (forall name obstacles c d, existing cur !! name = Some obstacles ->
     c ∈ data cur -> d ∈ obstacles -> ~ overlap c d).

(** Half the width and half the height of a box, and its centre. *)
Definition half_extent_x (b : BBox) : Q := (maxX b - minX b) / 2.
Definition half_extent_y (b : BBox) : Q := (maxY b - minY b) / 2.
Definition centre_x (b : BBox) : Q := (minX b + maxX b) / 2.
Definition centre_y (b : BBox) : Q := (minY b + maxY b) / 2.

(** [p] is the parent quadkey of [q]: [q] is [p] followed by one digit. *)
Definition is_parent (p q : string) : Prop :=
  exists d, q = (p +:+ String d EmptyString)%string.

(** No resolution pass is scheduled. *)
Definition idle (w : World) : Prop :=
  timer (handler w) = None /\ pending (loop w) = [].

(** A pass is scheduled under handle [tid] for the time [due]. *)
Definition armed (w : World) (tid : nat) (due : Z) : Prop :=
  timer (handler w) = Some tid /\ pending (loop w) = [(tid, due)] /\
  (now (loop w) < due)%Z.

(** The time that passes during a sequence of events. *)
Fixpoint elapsed (es : list Event) : Z :=
  match es with
  | [] => 0%Z
  | CallUpdate :: es' => elapsed es'
  | Elapse ms :: es' => (Z.of_nat ms + elapsed es')%Z
  end.

(** The state of the handler's timer, in every world a run can reach. *)
Definition timer_ok (w : World) : Prop :=
  idle w \/ exists tid due, armed w tid due /\ (due <= now (loop w) + UPDATE_DELAY_MS)%Z.

(** The values [intersects] takes during the sweep over [l], and the visible
    items at its end; neither depends on the buffers. *)
Fixpoint verdicts (mapAligned viewportAligned l : list ScreenCollision) : list bool :=
  match l with
  | [] => []
  | bbox :: rest =>
      let visibleItems := sweep_accept mapAligned viewportAligned bbox in
      sweep_intersects mapAligned viewportAligned bbox ::
        verdicts (fst visibleItems) (snd visibleItems) rest
  end.

Fixpoint visible_items (mapAligned viewportAligned l : list ScreenCollision)
    : list ScreenCollision * list ScreenCollision :=
  match l with
  | [] => (mapAligned, viewportAligned)
  | bbox :: rest =>
      let visibleItems := sweep_accept mapAligned viewportAligned bbox in
      visible_items (fst visibleItems) (snd visibleItems) rest
  end.

(** The buffer ranges the sweep visits, each with the value of [intersects]
    of its candidate. *)
Fixpoint jobs (l : list ScreenCollision) (vs : list bool) : list (bool * AttrRange) :=
  match l, vs with
  | bbox :: rest, v :: vs' => map (pair v) (sattrs bbox) ++ jobs rest vs'
  | _, _ => []
  end.

Fixpoint run_jobs (acc : Heap * bool) (js : list (bool * AttrRange))
    : Completion (Heap * bool) :=
  match js with
  | [] => Normal acc
  | (v, a) :: js' => acc' ← update_attr v acc a; run_jobs acc' js'
  end.

(** The visibility bit of a range: the low bit of its first element. *)
Definition bit (buffers : Heap) (a : AttrRange) : option bool :=
  (fun buf => lsb_set (bdata buf) (start a)) <$> buffers !! buffer a.

(** A range is well formed: its buffer exists and has a positive stride, and
    the range is not empty and begins inside the array. *)
Definition range_ok (buffers : Heap) (a : AttrRange) : Prop :=
  exists buf, buffers !! buffer a = Some buf /\
    (0 < bsize buf)%nat /\ (start a < stop a)%nat /\ (start a < List.length (bdata buf))%nat.

Definition disjoint (a a' : AttrRange) : Prop :=
  buffer a ≠ buffer a' \/ (stop a <= start a')%nat \/ (stop a' <= start a)%nat.

Fixpoint all_disjoint (l : list AttrRange) : Prop :=
  match l with
  | [] => True
  | a :: l' => Forall (disjoint a) l' /\ all_disjoint l'
  end.

(** Every candidate owns its own, well formed ranges of the buffers. *)
Definition ranges_ok (buffers : Heap) (l : list ScreenCollision) : Prop :=
  Forall (range_ok buffers) (flat_map sattrs l) /\ all_disjoint (flat_map sattrs l).


(** After a pass: every range of the candidate has its visibility bit set,
    or every range has it cleared. *)
Definition shown (buffers : Heap) (c : ScreenCollision) : Prop :=
  forall a, a ∈ sattrs c -> bit buffers a = Some true.

(** A scene for experiments: the identity projection, one viewport tile "0"
    drawn at half its size, one buffer of three vertices of two components.
    [label] is a candidate without slope as [insert] stores it for half sizes
    6 (padded to 10), [chain] one with slope [1, 0] and half sizes 30 by 5
    (three boxes of half size 9); each owns one vertex of the buffer. *)
Definition scene_display : Display :=
  mkDisplay (fun x y => (x, y)) 1 [mkViewportTile "0" 0 0 (1 # 2)] (fun _ _ => None).

Definition scene_buffers : Heap := {[ 0%nat := mkBuffer [1; 1; 1; 1; 1; 1]%Z 2 false ]}.

Definition label (priority cx : Q) (vertex : nat) : CollisionData :=
  mkCollisionData [mkBBox (cx - 10) (cx + 10) (- 10) 10]
    [mkAttrRange (2 * vertex) (2 * vertex + 2) 0] priority cx 0 0 0 0 10 10 None.

Definition chain (priority cx : Q) (vertex : nat) : CollisionData :=
  mkCollisionData (updateBBoxes cx 0 (1, 0) 9 9 2)
    [mkAttrRange (2 * vertex) (2 * vertex + 2) 0] priority cx 0 0 0 0 9 9 (Some (1, 0)).

Definition scene_cache (l : list CollisionData)
    : gmap string (gmap string (list CollisionData)) :=
  {[ "0"%string := {[ "1-0"%string := l ]} ]}.

(** The key has a dash in it. *)
Fixpoint has_dash (key : string) : bool :=
  match key with
  | EmptyString => false
  | String c rest => Ascii.eqb c "-"%char || has_dash rest
  end.

(** No tile of the cache is an empty object. *)
Definition no_empty_tile (cache : gmap string (gmap string (list CollisionData))) : Prop :=
  forall key, cache !! key ≠ Some ∅.

(** The candidates stored for a layer and tile, if any. *)
Definition slot (cache : gmap string (gmap string (list CollisionData)))
    (tileKey dataKey : string) : option (list CollisionData) :=
  cache !! tileKey ≫= fun collisionTile => collisionTile !! dataKey.

(** Two states of a buffer that differ at most in the low bit of their
    elements and in a dirty flag that was raised. *)
Definition low_bits_only (buf buf' : Buffer) : Prop :=
  bsize buf' = bsize buf /\
  List.length (bdata buf') = List.length (bdata buf) /\
  (forall i v, bdata buf !! i = Some v ->
     exists v', bdata buf' !! i = Some v' /\ Z.shiftr v' 1 = Z.shiftr v 1) /\
  (dirty buf = true -> dirty buf' = true).

(** A candidate with more than one box carries a slope. *)
Definition chain_has_slope (d : CollisionData) : Prop :=
  (1 < List.length (boxes d))%nat -> is_Some (slope d).

Definition cache_has_slopes (cache : gmap string (gmap string (list CollisionData))) : Prop :=
  forall tileKey dataKey ds d,
    slot cache tileKey dataKey = Some ds -> d ∈ ds -> chain_has_slope d.

(** The cached candidates of the viewport tiles, tile after tile; the
    segments of a tile come in the order of the finite map. *)
Definition viewed (cache : gmap string (gmap string (list CollisionData)))
    (tiles : list ViewportTile) : list CollisionData :=
  flat_map (fun screentile =>
              match cache !! vquadkey screentile with
              | Some tileCollisionData => concat (map snd (map_to_list tileCollisionData))
              | None => []
              end) tiles.

#[export] Instance Buffer_eq_dec : EqDecision Buffer.
Proof. solve_decision. Defined.

#[export] Instance chain_has_slope_dec d : Decision (chain_has_slope d).
Proof. unfold chain_has_slope. apply _. Defined.

(** One step from [acc] to [acc']: the flag is never lowered, the buffers
    keep their keys and change in low bits only, and a changed buffer is
    dirty and raises the flag. *)
Definition writes (acc acc' : Heap * bool) : Prop :=
  (snd acc = true -> snd acc' = true) /\
  forall k,
    match fst acc !! k, fst acc' !! k with
    | Some buf, Some buf' =>
        low_bits_only buf buf' /\ (buf' ≠ buf -> dirty buf' = true /\ snd acc' = true)
    | None, None => True
    | _, _ => False
    end.

(** The screen candidate [c] is the projection of the cached candidate [d]:
    the same buffer ranges and priority, as many boxes (one for a candidate
    without boxes), and a slope exactly when [d] has one. *)
Definition projected (c : ScreenCollision) (d : CollisionData) : Prop :=
  sattrs c = attrs d /\ spriority c = priority d /\
  List.length (sboxes c) = Nat.max 1 (List.length (boxes d)) /\
  (is_Some (sslope c) <-> is_Some (slope d)).

(** The number of calls of [update] among the events. *)
Fixpoint calls (es : list Event) : nat :=
  match es with
  | [] => 0
  | CallUpdate :: es' => S (calls es')
  | Elapse _ :: es' => calls es'
  end.

(** The times of the passes, latest first, lie at least the delay apart. *)
Definition spaced (passes : list Z) : Prop :=
  StronglySorted (fun later earlier => (earlier + UPDATE_DELAY_MS <= later)%Z) passes.

(** The state of a world that started without a pass at time [t0], after
    [n] calls of [update]. *)
Definition paced (t0 : Z) (n : nat) (w : World) : Prop :=
  (t0 <= now (loop w))%Z /\
  spaced (passes w) /\
  Forall (fun p => (t0 + UPDATE_DELAY_MS <= p <= now (loop w))%Z) (passes w) /\
  ((idle w /\ (List.length (passes w) <= n)%nat) \/
   exists tid due, armed w tid due /\ (t0 + UPDATE_DELAY_MS <= due)%Z /\
     Forall (fun p => (p + UPDATE_DELAY_MS <= due)%Z) (passes w) /\
     (S (List.length (passes w)) <= n)%nat).


(** The same call of [insert] with another priority. *)
Definition with_priority (priority : option Q) (c : InsertCall) : InsertCall :=
  mkInsertCall (i_cx c) (i_cy c) (i_cz c) (i_offsetX c) (i_offsetY c) (i_halfWidth c)
    (i_halfHeight c) (i_tile c) (i_tileSize c) priority (i_slope c).

(** Two batches under construction with the same obstacles, whose
    candidates have the same boxes one by one. *)
Definition same_boxes (cur cur' : LayerTileCollision) : Prop :=
  existing cur' = existing cur /\
  Forall2 (fun d d' => boxes d' = boxes d) (data cur) (data cur').

End Props.

(** ** Vocabulary for the geometry decoder *)

Module DecodeProps.
Import JS MVT.
Local Open Scope Z_scope.

(** A command id the decoder knows: moveTo, lineTo or closePolygon. *)
Definition known (c : Z) : Prop := c = 1 \/ c = 2 \/ c = 7.

(** Only known commands, and no lineTo before the first moveTo
    ([has_line]: a moveTo has been seen). *)
Fixpoint known_in_order (has_line : bool) (cmds : list Z) : bool :=
  match cmds with
  | [] => true
  | c :: rest =>
      if c =? 1 then known_in_order true rest
      else if c =? 2 then has_line && known_in_order has_line rest
      else if c =? 7 then known_in_order has_line rest
      else false
  end.

(** A bound on the number of turns of the loop that are left. *)
Definition turns_left `{PbfReader P} (end_ : Z) (d : Decoder P) : Z :=
  Z.max 0 (end_ - pos (pbf d)) * (2 ^ 28 + 1) + Z.max 0 (length d).

(** The command integer of the vector tile format: the count above the
    three bits of the id. *)
Definition command (id count : Z) : Z := Z.lor (Z.shiftl count 3) id.

(** The parameters that move the cursor from [(cx, cy)] along the points. *)
Fixpoint deltas (cx cy : Z) (pts : list (Z * Z)) : list Z :=
  match pts with
  | [] => []
  | (px, py) :: rest => (px - cx) :: (py - cy) :: deltas px py rest
  end.

(** A line as one moveTo and, for its other points, one lineTo command. *)
Definition encode_line (cx cy : Z) (l : list (Z * Z)) : list Z :=
  match l with
  | [] => []
  | p :: rest =>
      command 1 1 :: deltas cx cy [p] ++
      match rest with
      | [] => []
      | _ => command 2 (Z.of_nat (List.length rest)) :: deltas (fst p) (snd p) rest
      end
  end.

(** The lines one after the other; the cursor is carried from line to line. *)
Fixpoint encode (cx cy : Z) (lines : list (list (Z * Z))) : list Z :=
  match lines with
  | [] => []
  | l :: rest =>
      encode_line cx cy l ++ encode (fst (List.last l (cx, cy))) (snd (List.last l (cx, cy))) rest
  end.

(** The number of points of the lines. *)
Definition points (lines : list (list (Z * Z))) : nat :=
  List.length (concat lines).

(** The reader of the buffer [T] at position [k]. *)
Definition reader_at (T : list Z) (k : nat) : TokenReader := mkTokenReader T (Z.of_nat k).

(** [lines.push(line)] for a line that may be undefined. *)
Definition pushed (lines : list (list (Z * Z))) (line : option (list (Z * Z)))
    : list (list (Z * Z)) :=
  match line with Some l => lines ++ [l] | None => lines end.

(** A line the encoding can express: it has a point, and its lineTo count
    fits the command integer. *)
Definition line_ok (l : list (Z * Z)) : Prop :=
  l ≠ [] /\ Z.of_nat (List.length l) <= 2 ^ 28.


(** The term of [signedArea] for the edge from [a] to [b], and the sum of
    the terms along a chain of points. *)
Definition edge_term (a b : Z * Z) : Z := (fst a - fst b) * (snd b + snd a).

Fixpoint chain_sum (prev : Z * Z) (l : list (Z * Z)) : Z :=
  match l with
  | [] => 0
  | p :: rest => edge_term prev p + chain_sum p rest
  end.

(** The chain sum of a list of points, from its first point on. *)
Definition open_sum (l : list (Z * Z)) : Z :=
  match l with
  | [] => 0
  | p :: rest => chain_sum p rest
  end.

(** [if (x) l.push(x)] *)
Definition push_if {A} (l : list A) (x : option A) : list A :=
  match x with Some a => l ++ [a] | None => l end.

(** The winding of a ring as [classifyRings] reads it. *)
Definition winds_ccw (ring : list (Z * Z)) : bool := signedArea ring <? 0.

(** A polygon of the classification: an outer ring of winding [w] and,
    after it, rings of the other winding; no ring is degenerate. *)
Definition polygon_ok (w : bool) (poly : list (list (Z * Z))) : Prop :=
  match poly with
  | [] => False
  | outer :: inner =>
      signedArea outer ≠ 0 /\ winds_ccw outer = w /\
      Forall (fun r => signedArea r ≠ 0 /\ winds_ccw r = negb w) inner
  end.

(** The state of [classifyRings] after the rings [seen]. *)
Definition classified (seen : list (list (Z * Z))) (st : Classifier) : Prop :=
  concat (push_if (polygons st) (polygon st))
    = filter (fun r => signedArea r ≠ 0) seen /\
  match ccw st with
  | None => polygons st = [] /\ polygon st = None
  | Some w => is_Some (polygon st) /\ Forall (polygon_ok w) (push_if (polygons st) (polygon st))
  end.


(** How a run of conversions ended: every feature was converted, or the
    next one made [vtFeatureToGeoJSON] throw, never return, or run out of
    fuel. *)
Inductive Ending : Type :=
| Done
| Failed (msg : string)
| Hung
| NoFuel.

(** The result of a call that ended like that. *)
Definition ended {A} (e : Ending) (a : A) : option (Completion A) :=
  match e with
  | Done => Some (Normal a)
  | Failed msg => Some (Throw msg)
  | Hung => Some Diverge
  | NoFuel => None
  end.

Section WithFeatures.
Context {P : Type} `{PbfReader P} {Triangles BBoxT : Type}.
Variable types : Z -> option string.
Variable bbox_of : Bounds -> Z -> Z -> Z -> BBoxT.
Variable fuel : nat.

(** Modelled from the spec: the task manager of the common package is not
    part of the sources at hand; a scheduler drives the steps of a task
    until one returns Done, here [BREAK].  A step that throws is taken to end
    the run.  Out of steps, or of fuel, is [None]. *)
Fixpoint drive (steps : nat) (data : TaskData P Triangles BBoxT)
    (guid : Z) : option (Completion unit * TaskData P Triangles BBoxT * Z) :=
  match steps with
  | O => None
  | S steps' =>
      match exec types bbox_of fuel data guid with
      | None => None
      | Some (Normal BREAK, data', guid') => Some (Normal tt, data', guid')
      | Some (Normal CONTINUE, data', guid') => drive steps' data' guid'
      | Some (Throw msg, data', guid') => Some (Throw msg, data', guid')
      | Some (Diverge, data', guid') => Some (Diverge, data', guid')
      end
  end.

(** The features of a layer from index [f] on, converted one by one, the
    first with the id [guid + 1], up to the first that is not converted. *)
Fixpoint convert_features (xyz : Z * Z * Z) (mvtLayer : VTLayer P)
    (xyzLayer : option (list Triangles)) (rest : list (VTFeature P)) (f : nat) (guid : Z)
    : list (GeoJsonFeature Triangles BBoxT) * Ending :=
  match rest with
  | [] => ([], Done)
  | vtFeature :: rest' =>
      match vtFeatureToGeoJSON types bbox_of fuel vtFeature (xyz, name mvtLayer) true with
      | Some (Normal feature) =>
          let '(converted, e) :=
            convert_features xyz mvtLayer xyzLayer rest' (S f) (guid + 1) in
          (complete mvtLayer xyzLayer f (guid + 1) feature :: converted, e)
      | Some (Throw msg) => ([], Failed msg)
      | Some Diverge => ([], Hung)
      | None => ([], NoFuel)
      end
  end.

(** The layers from index [l] on, converted one after the other. *)
Fixpoint convert_layers (xyz : Z * Z * Z) (triangles : list (list Triangles))
    (layers : list (VTLayer P)) (l : nat) (guid : Z)
    : list (GeoJsonFeature Triangles BBoxT) * Ending :=
  match layers with
  | [] => ([], Done)
  | mvtLayer :: rest =>
      match convert_features xyz mvtLayer (triangles !! l) (features mvtLayer) 0 guid with
      | (converted, Done) =>
          let '(more, e) :=
            convert_layers xyz triangles rest (S l) (guid + Z.of_nat (List.length converted)) in
          (converted ++ more, e)
      | stopped => stopped
      end
  end.

(** What is left to convert in the state [data], up to the first feature
    that is not converted. *)
Definition to_convert (data : TaskData P Triangles BBoxT) (guid : Z)
    : list (GeoJsonFeature Triangles BBoxT) * Ending :=
  match drop (task_l data) (task_layers data) with
  | [] => ([], Done)
  | mvtLayer :: rest =>
      match convert_features (task_xyz data) mvtLayer (task_triangles data !! task_l data)
              (drop (task_f data) (features mvtLayer)) (task_f data) guid with
      | (converted, Done) =>
          let '(more, e) :=
            convert_layers (task_xyz data) (task_triangles data) rest (S (task_l data))
              (guid + Z.of_nat (List.length converted)) in
          (converted ++ more, e)
      | stopped => stopped
      end
  end.

(** The number of calls of [exec] that are left at most: one for each
    feature and one for each layer that are left, and the last. *)
Definition calls_left (data : TaskData P Triangles BBoxT) : nat :=
  match drop (task_l data) (task_layers data) with
  | [] => 1
  | mvtLayer :: rest =>
      2 + (List.length (features mvtLayer) - task_f data) +
      List.length (concat (map features rest)) + List.length rest
  end.

End WithFeatures.

End DecodeProps.

(** ** Vocabulary for the walls of extruded polygons *)

Module ExtrudeProps.
Import JS Extrude.
Local Open Scope Q_scope.

(** The 12 numbers [addExterior] appends to the vertex array for a wall. *)
Definition wall_vertices (extrude extrudeBase : Q) (e : Edge) : list Q :=
  [x1 e; y1 e; extrude; x1 e; y1 e; extrudeBase;
   x2 e; y2 e; extrude; x2 e; y2 e; extrudeBase].

(** A square with a triangular hole, both rings closed, at height 10: the
    exterior ring has 5 vertices, so the hole begins with vertex 5. *)
Definition courtyard_vertices : list Q :=
  [10; 10; 10;  10; 100; 10;  100; 100; 10;  100; 10; 10;  10; 10; 10;
   40; 40; 10;  60; 40; 10;  50; 60; 10;  40; 40; 10].

Definition courtyard : FlatPolygon := mkFlatPolygon 0 27 [5%Z].

Definition courtyard_buffers : Buffers := mkBuffers courtyard_vertices [] [] None.

(** The edge from the vertex at index [i] of the array to the next one. *)
Definition edge_from (verts : list Q) (i : Z) : Edge :=
  mkEdge (get verts i) (get verts (i + 1)) (get verts (i + 3)) (get verts (i + 4)).

Definition reverse (e : Edge) : Edge := mkEdge (x2 e) (y2 e) (x1 e) (y1 e).

(** The rings of a flat polygon, each as the index of its first vertex and
    the number of its edges: a ring ends where the next hole begins. *)
Fixpoint rings_from (first : Z) (holes : list Z) (base stop : Z) : list (Z * nat) :=
  match holes with
  | [] => [(first, Z.to_nat ((stop - first) / 3 - 1))]
  | hole :: rest =>
      (first, Z.to_nat ((base + hole * 3 - first) / 3 - 1)) ::
        rings_from (base + hole * 3)%Z rest base stop
  end.

Definition rings (fp : FlatPolygon) : list (Z * nat) :=
  rings_from (fstart fp) (holes fp) (fstart fp) (fstop fp).

(** The edges of the rings of the polygon, in the order of the array. *)
Definition ring_edges (verts : list Q) (fp : FlatPolygon) : list Edge :=
  flat_map (fun ring =>
    map (fun k : nat => edge_from verts (fst ring + 3 * Z.of_nat k)%Z) (seq 0 (snd ring)))
    (rings fp).

(** The rounded direction of a wall, as [addExterior] computes it. *)
Definition wall_dx (e : Edge) : Q := inject_Z (math_round (x1 e) - math_round (x2 e)).
Definition wall_dy (e : Edge) : Q := inject_Z (math_round (y1 e) - math_round (y2 e)).

Section WithGeometry.
Variable isInBox : Q -> Q -> Q -> Q -> Q -> Q -> bool.
Variable math_sqrt : Q -> Q.

(** The normal [addExterior] gives the four vertices of a wall. *)
Definition wall_normal (e : Edge) : Q * Q :=
  let len := 127 / math_sqrt (wall_dx e * wall_dx e + wall_dy e * wall_dy e) in
  (- wall_dy e * len, wall_dx e * len).

Definition wall_normals (e : Edge) : list Q :=
  let '(nx, ny) := wall_normal e in [nx; ny; nx; ny; nx; ny; nx; ny].

(** The triangle and line indices of the [k]-th wall appended to a vertex
    array of [len] numbers. *)
Definition wall_indices (len k : nat) : list Q :=
  let vi := inject_Z (Z.of_nat (len + 12 * k)) / 3 in
  [vi + 2; vi; vi + 1; vi + 3; vi + 2; vi + 1].

Definition wall_strokes (len k : nat) : list Q :=
  let vi := inject_Z (Z.of_nat (len + 12 * k)) / 3 in
  [vi; vi + 1; vi + 2; vi + 3; vi; vi + 2; vi + 1; vi + 3].

(** [b'] is [b] with the given walls appended: 4 vertices, 4 normals, 2
    triangles and 4 lines for each. *)
Definition extended (tileSize extrude extrudeBase : Q) (b b' : Buffers) (walls : list Edge)
    : Prop :=
  Forall (fun e => wall_visible isInBox tileSize e = true) walls /\
  vertex b' = vertex b ++ flat_map (wall_vertices extrude extrudeBase) walls /\
  normals b' = normals b ++ flat_map wall_normals walls /\
  vIndex b' =
    vIndex b ++ flat_map (wall_indices (List.length (vertex b))) (seq 0 (List.length walls)) /\
  strokeIndex b' =
    (fun si => si ++ flat_map (wall_strokes (List.length (vertex b)))
                       (seq 0 (List.length walls))) <$> strokeIndex b.

End WithGeometry.

End ExtrudeProps.

(** ** Phase 1: candidates accepted in one batch do not overlap *)

Module Phase1.
Import JS Collision Props.
Local Open Scope Q_scope.

Lemma bbox_intersects_overlap a b : bbox_intersects a b = true <-> bbox_overlap a b.
Proof.
  unfold bbox_intersects, bbox_overlap.
  rewrite !andb_true_iff, !Qle_bool_iff. tauto.
Qed.

Lemma bbox_overlap_sym a b : bbox_overlap a b -> bbox_overlap b a.
Proof. unfold bbox_overlap. tauto. Qed.

Lemma overlap_sym `{HasBoxes A} `{HasBoxes B} (c : A) (d : B) : overlap c d -> overlap d c.
Proof. intros (a & b & ? & ? & ?). exists b, a. auto using bbox_overlap_sym. Qed.

Lemma intersects_true `{HasBoxes A} `{HasBoxes B} (c : A) (l : list B) :
  intersects c l = true <-> exists d, d ∈ l /\ overlap c d.
Proof.
  unfold intersects, overlap. rewrite existsb_exists. split.
  - intros (d & Hd & Hx). apply existsb_exists in Hx as (b & Hb & Hx).
    apply existsb_exists in Hx as (a & Ha & Hx).
    exists d. split; [by apply list_elem_of_In|].
    exists a, b. rewrite !list_elem_of_In. by rewrite <- bbox_intersects_overlap.
  - intros (d & Hd & a & b & Ha & Hb & Hx).
    exists d. split; [by apply list_elem_of_In|].
    apply existsb_exists. exists b. split; [by apply list_elem_of_In|].
    apply existsb_exists. exists a. split; [by apply list_elem_of_In|].
    by apply bbox_intersects_overlap.
Qed.

Lemma intersects_false `{HasBoxes A} `{HasBoxes B} (c : A) (l : list B) :
  intersects c l = false <-> forall d, d ∈ l -> ~ overlap c d.
Proof.
  rewrite <- not_true_iff_false, intersects_true. firstorder.
Qed.

Lemma intersects_existing_false c (E : gmap string (list CollisionData)) :
  intersects_existing c E = false <->
  forall name obstacles d, E !! name = Some obstacles -> d ∈ obstacles -> ~ overlap c d.
Proof.
  unfold intersects_existing. rewrite <- not_true_iff_false, existsb_exists. split.
  - intros Hn name obstacles d HE Hd Ho. apply Hn.
    exists (name, obstacles). split.
    + apply list_elem_of_In. by apply elem_of_map_to_list.
    + apply intersects_true. eauto.
  - intros Hall ([name obstacles] & Hin & Hx). simpl in Hx.
    apply list_elem_of_In, elem_of_map_to_list in Hin.
    apply intersects_true in Hx as (d & Hd & Ho). eapply Hall; eauto.
Qed.

Lemma new_Array_returns n :
  (exists len, new_Array n = Normal len) \/
  new_Array n = Throw "RangeError: Invalid array length".
Proof. unfold new_Array. destruct n; [destruct (_ && _)|..]; eauto. Qed.

(** [new Array] returns or throws its RangeError. *)
Lemma chain_array_returns hw hh sl :
  (exists n, chain_array hw hh sl = Normal n) \/
  chain_array hw hh sl = Throw "RangeError: Invalid array length".
Proof.
  unfold chain_array. destruct sl as [sl|]; [|eauto].
  destruct (double_gt _ _); [|eauto].
  destruct (new_Array_returns (double_floor (double_mul (aspect_ratio hw hh) (binary64 (7 # 10)))))
    as [[len ->]| ->]; simpl; eauto.
Qed.

Lemma insert_all_batch calls : forall h cur,
  curLayerTileCollision h = Some cur -> batch_ok cur ->
  exists results cur',
    insert_all calls h =
      Normal (results, mkHandler (tiles h) (Some cur')
                         (updated h || bool_decide (accepted results ≠ [])) (timer h)) /\
    data cur' = data cur ++ accepted results /\
    existing cur' = existing cur /\ tileKey cur' = tileKey cur /\ dataKey cur' = dataKey cur /\
    batch_ok cur'.
Proof.
  induction calls as [|c calls IH]; intros h cur Hcur Hok.
  - exists [], cur. simpl. rewrite app_nil_r, orb_false_r. destruct h; simpl in *; subst.
    auto 10.
  - simpl. unfold call_insert, insert.
    destruct (chain_array_returns (i_halfWidth c) (i_halfHeight c) (i_slope c))
      as [[n ->]| ->]; simpl.
    2: { destruct (IH h cur Hcur Hok) as (rs & cur' & -> & ? & ? & ? & ? & ?).
         exists (None :: rs), cur'. simpl. auto 10. }
    rewrite Hcur.
    set (cd := insert_data _ _ _ _ _ _ _ _ _ _ _).
    destruct (intersects cd (data cur)) eqn:Hd; simpl.
    { destruct (IH h cur Hcur Hok) as (rs & cur' & -> & ? & ? & ? & ? & ?).
      exists (None :: rs), cur'. simpl. auto 10. }
    destruct (intersects_existing cd (existing cur)) eqn:He; simpl.
    { destruct (IH h cur Hcur Hok) as (rs & cur' & -> & ? & ? & ? & ? & ?).
      exists (None :: rs), cur'. simpl. auto 10. }
    set (cur1 := mkLayerTileCollision _ _ _ _).
    set (h1 := mkHandler _ _ _ _).
    assert (Hok1 : batch_ok cur1).
    { destruct Hok as [Hp Ho]. rewrite intersects_false in Hd.
      rewrite intersects_existing_false in He. split; simpl.
      - intros i j a b Hij Hi Hj.
        destruct (decide (i < List.length (data cur))%nat) as [Hli|Hli];
        destruct (decide (j < List.length (data cur))%nat) as [Hlj|Hlj].
        + rewrite lookup_app_l in Hi, Hj by done. eauto.
        + rewrite lookup_app_l in Hi by done. rewrite lookup_app_r in Hj by lia.
          apply list_lookup_singleton_Some in Hj as [_ <-].
          intros Hx. apply overlap_sym in Hx. eapply Hd; [|done].
          eapply list_elem_of_lookup_2; eauto.
        + rewrite lookup_app_l in Hj by done. rewrite lookup_app_r in Hi by lia.
          apply list_lookup_singleton_Some in Hi as [_ <-].
          apply Hd. eapply list_elem_of_lookup_2; eauto.
        + rewrite lookup_app_r in Hi, Hj by lia.
          apply list_lookup_singleton_Some in Hi as [? _].
          apply list_lookup_singleton_Some in Hj as [? _]. lia.
      - intros name obstacles a b HE Ha Hb.
        apply elem_of_app in Ha as [Ha|Ha]; [eauto|].
        apply list_elem_of_singleton in Ha as ->. eauto. }
    destruct (IH h1 cur1 eq_refl Hok1) as (rs & cur' & -> & Hdata & ? & ? & ? & ?).
    exists (Some cd :: rs), cur'. simpl.
    split; [|split; [|done]].
    + do 3 f_equal. by rewrite orb_true_r.
    + rewrite Hdata. simpl. by rewrite <- app_assoc.
Qed.


Lemma initTile_batch tq tile layer h0 :
  exists cur, curLayerTileCollision (initTile tq tile layer h0) = Some cur /\ data cur = [].
Proof. eexists. split; [reflexivity|reflexivity]. Qed.

(** C1. Whatever calls of [insert] follow [initTile] (a call that throws,
    [new Array] refusing the length of its chain, accepts nothing), the batch
    holds exactly the candidates that were accepted, two different accepted
    candidates never overlap under the closed-interval test, and no accepted
    candidate overlaps a candidate of the obstacles [initTile] gathered (the
    neighbours and the other layers of the same cache key). *)
Theorem phase1_no_overlap tq tile layer h0 calls :
  exists cur results h' cur',
    curLayerTileCollision (initTile tq tile layer h0) = Some cur /\
    insert_all calls (initTile tq tile layer h0) = Normal (results, h') /\
    curLayerTileCollision h' = Some cur' /\
    data cur' = accepted results /\
    (forall i j c d, i ≠ j ->
       accepted results !! i = Some c -> accepted results !! j = Some d -> ~ overlap c d) /\
    (forall name obstacles c d, existing cur !! name = Some obstacles ->
       c ∈ accepted results -> d ∈ obstacles -> ~ overlap c d).
Proof.
  destruct (initTile_batch tq tile layer h0) as (cur & Hcur & Hdata).
  assert (Hok : batch_ok cur).
  { split; rewrite Hdata; [intros i j c d _ Hi; by rewrite lookup_nil in Hi|].
    intros ???? _ Hc. by apply elem_of_nil in Hc. }
  destruct (insert_all_batch calls _ cur Hcur Hok)
    as (results & cur' & Hrun & Hd & He & _ & _ & [Hp Ho]).
  rewrite Hdata in Hd. simpl in Hd.
  eexists cur, results, _, cur'. split; [done|]. split; [exact Hrun|].
  split; [done|]. split; [done|]. rewrite <- Hd. split; [done|].
  intros. eapply Ho; eauto. by rewrite He.
Qed.
End Phase1.

(** ** [insert]: the rejection scenario and the chains of sub-boxes *)

Module Insert.
Import JS Collision Props Phase1.
Local Open Scope Q_scope.

Lemma intersects_existing_empty c (E : gmap string (list CollisionData)) :
  (forall name l, E !! name = Some l -> l = []) -> intersects_existing c E = false.
Proof.
  intros HE. apply intersects_existing_false. intros name l d Hl Hd.
  rewrite (HE _ _ Hl) in Hd. by apply elem_of_nil in Hd.
Qed.

(** C6. In a batch that is empty and has no obstacles, [insert] of the
    candidate at (10, 10) with half sizes 5 and priority 1 is accepted, and
    the following [insert] of the candidate at (12, 12) with the same sizes
    and priority 2 on the same tile returns [false]: the two boxes overlap. *)
Theorem box_rejection tile tileSize h cur :
  curLayerTileCollision h = Some cur ->
  data cur = [] ->
  (forall name obstacles, existing cur !! name = Some obstacles -> obstacles = []) ->
  exists c1 h1,
    insert 10 10 0 0 0 5 5 tile tileSize (Some 1) None h = Normal (Some c1, h1) /\
    insert 12 12 0 0 0 5 5 tile tileSize (Some 2) None h1 = Normal (None, h1).
Proof.
  intros Hcur Hdata HE.
  set (c1 := insert_data 10 10 0 0 0 5 5 tile tileSize (Some 1) None).
  set (c2 := insert_data 12 12 0 0 0 5 5 tile tileSize (Some 2) None).
  assert (Hi : intersects c2 [c1] = true).
  { apply intersects_true. exists c1. split; [apply list_elem_of_here|].
    eexists _, _. split; [apply list_elem_of_here|]. split; [apply list_elem_of_here|].
    unfold bbox_overlap, boxBuffer. cbn [minX maxX minY maxY]. destruct (tileSize =? 256)%Z; lra. }
  exists c1, (mkHandler (tiles h)
                (Some (mkLayerTileCollision (tileKey cur) [c1] (dataKey cur) (existing cur)))
                true (timer h)).
  unfold insert. fold c1 c2. rewrite Hcur, Hdata.
  rewrite intersects_existing_empty by done.
  split; [reflexivity|].
  cbn [curLayerTileCollision data]. by rewrite Hi.
Qed.

Lemma box_rejection_witness :
  exists c1 h1,
    insert 10 10 0 0 0 5 5 (mkTile "120" 5 2 3) 256 (Some 1) None
      (initTile (fun _ _ _ => "") (mkTile "120" 5 2 3) (mkLayer "7" 256) (mkHandler ∅ None false None))
      = Normal (Some c1, h1) /\
    insert 12 12 0 0 0 5 5 (mkTile "120" 5 2 3) 256 (Some 2) None h1 = Normal (None, h1).
Proof.
  eapply box_rejection.
  - reflexivity.
  - reflexivity.
  - intros name obstacles Hl.
    change (({[ "neighbours"%string := [] ]} : gmap string (list CollisionData)) !! name
            = Some obstacles) in Hl.
    apply lookup_singleton_Some in Hl as [_ <-]. reflexivity.
Defined.
Lemma updateBBoxes_length cx cy sl w h n :
  List.length (updateBBoxes cx cy sl w h n) = Z.to_nat (n + 1).
Proof. unfold updateBBoxes. by rewrite length_map, length_seq. Qed.

Lemma updateBBoxes_lookup cx cy sl w h n i b :
  updateBBoxes cx cy sl w h n !! i = Some b ->
  let relPos := (inject_Z (Z.of_nat i) / inject_Z n - (1 # 2)) * (3 # 4) in
  b = mkBBox (fst sl * relPos + cx - w) (fst sl * relPos + cx + w)
             (snd sl * relPos + cy - h) (snd sl * relPos + cy + h).
Proof.
  unfold updateBBoxes. rewrite list_lookup_fmap. intros Hb.
  destruct (seq 0 (Z.to_nat (n + 1)) !! i) as [j|] eqn:Hj; [|done].
  apply lookup_seq in Hj as [-> _]. simpl in Hb. by injection Hb as <-.
Qed.

Lemma pow2_pos (e : Z) : 0 < 2 ^ e.
Proof. apply Qpower_0_lt. reflexivity. Qed.

Lemma pow2_Z (e : Z) : (0 <= e)%Z -> 2 ^ e == inject_Z (2 ^ e).
Proof. intros He. by rewrite Zpower_Qpower. Qed.

(** [floor_log2 q] is not above the logarithm of [q]. *)
Lemma floor_log2_le (q : Q) : 0 < q -> 2 ^ floor_log2 q <= q.
Proof.
  intros Hq. unfold floor_log2.
  destruct (Qle_bool _ q) eqn:Hle; [by apply Qle_bool_iff|]. clear Hle.
  destruct q as [n d]. cbn [Qnum Qden].
  assert (Hn : (0 < n)%Z) by (unfold Qlt in Hq; simpl in Hq; lia).
  set (a := Z.log2 n). set (b := Z.log2 (Z.pos d)).
  assert (Ha : (0 <= a)%Z) by apply Z.log2_nonneg.
  assert (Hb : (0 <= b)%Z) by apply Z.log2_nonneg.
  replace (a - b - 1)%Z with (a - (b + 1))%Z by lia.
  rewrite Qpower_minus by discriminate.
  rewrite (pow2_Z a), (pow2_Z (b + 1)) by lia.
  destruct (Z.log2_spec n Hn) as [Hn1 _].
  destruct (Z.log2_spec (Z.pos d)) as [_ Hd2]; [lia|].
  fold a in Hn1. fold b in Hd2. rewrite <- Z.add_1_r in Hd2.
  rewrite (Qmake_Qdiv n d).
  assert (HA : inject_Z (2 ^ a) <= inject_Z n) by (by rewrite <- Zle_Qle).
  assert (HB : inject_Z (Z.pos d) <= inject_Z (2 ^ (b + 1))) by (rewrite <- Zle_Qle; lia).
  assert (HA0 : 0 < inject_Z (2 ^ a)).
  { rewrite <- (pow2_Z a) by lia. apply pow2_pos. }
  assert (Hd0 : 0 < inject_Z (Z.pos d)) by reflexivity.
  set (A := inject_Z (2 ^ a)) in *. set (B := inject_Z (2 ^ (b + 1))) in *.
  set (N := inject_Z n) in *. set (D := inject_Z (Z.pos d)) in *.
  assert (HND : 0 <= N / D) by (apply Qle_shift_div_l; lra).
  assert (HN : N / D * D == N) by (field; lra).
  apply Qle_shift_div_r; [lra|]. nra.
Qed.

Lemma round_half_even_floor q : (Qfloor q <= round_half_even q)%Z.
Proof. unfold round_half_even. destruct (Qcompare _ _); [destruct (Z.even _)|..]; lia. Qed.

(** Rounding does not take a number from 1 on below 1. *)
Lemma binary64_ge_1 q r : 1 <= q -> binary64 q = Finite r -> 1 <= r.
Proof.
  intros Hq. unfold binary64.
  assert (Qeq_bool q 0 = false) as ->.
  { apply not_true_iff_false. intros H%Qeq_bool_iff. lra. }
  assert (Qle_bool 0 q = true) as -> by (apply Qle_bool_iff; lra).
  assert (Hab : Qabs q = q).
  { destruct q as [[|p|p] d]; unfold Qle in Hq; simpl in Hq; try lia. reflexivity. }
  rewrite Hab.
  set (e := Z.max (floor_log2 q) (-1022)).
  set (ulp := 2 ^ (e - 52)).
  set (m := round_half_even (q / ulp)).
  destruct (Qle_bool _ _); [done|]. intros [= <-]. rewrite Qred_correct.
  assert (Hulp : 0 < ulp) by apply pow2_pos.
  assert (Hm : (Qfloor (q / ulp) <= m)%Z) by apply round_half_even_floor.
  destruct (Z.le_gt_cases e 52) as [He|He].
  - assert (Hinv : 1 / ulp == inject_Z (2 ^ (52 - e))).
    { rewrite <- pow2_Z by lia. unfold ulp.
      replace (52 - e)%Z with (- (e - 52))%Z by lia. rewrite Qpower_opp. field.
      apply Qpower_not_0. discriminate. }
    assert (Hk : (2 ^ (52 - e) <= Qfloor (q / ulp))%Z).
    { rewrite <- (Qfloor_Z (2 ^ (52 - e))). apply Qfloor_resp_le. rewrite <- Hinv.
      apply Qmult_le_compat_r; [lra|]. apply Qlt_le_weak. by apply Qinv_lt_0_compat. }
    assert (Hk' : inject_Z (2 ^ (52 - e)) <= inject_Z m) by (rewrite <- Zle_Qle; lia).
    rewrite <- Hinv in Hk'.
    assert (1 / ulp * ulp == 1) as <- by (field; lra).
    apply Qmult_le_compat_r; [done|lra].
  - assert (Hfl : e = floor_log2 q) by lia.
    assert (Hle : 2 ^ e <= q) by (rewrite Hfl; apply floor_log2_le; lra).
    assert (Hdiv : 2 ^ e / ulp == inject_Z (2 ^ 52)).
    { rewrite <- pow2_Z by lia. unfold ulp. rewrite <- Qpower_minus by discriminate.
      by replace (e - (e - 52))%Z with 52%Z by lia. }
    assert (Hk : (2 ^ 52 <= Qfloor (q / ulp))%Z).
    { rewrite <- (Qfloor_Z (2 ^ 52)). apply Qfloor_resp_le. rewrite <- Hdiv.
      apply Qmult_le_compat_r; [done|]. apply Qlt_le_weak. by apply Qinv_lt_0_compat. }
    assert (Hk' : inject_Z (2 ^ 52) <= inject_Z m) by (rewrite <- Zle_Qle; lia).
    rewrite <- Hdiv in Hk'.
    assert (H1 : 1 <= 2 ^ e) by (apply Qpower_1_le; [lra|lia]).
    assert (2 ^ e / ulp * ulp == 2 ^ e) as Heq by (field; lra).
    apply Qle_trans with (2 ^ e); [done|]. rewrite <- Heq.
    apply Qmult_le_compat_r; [done|lra].
Qed.

Lemma point7 : binary64 (7 # 10) = Finite (3152519739159347 # 4503599627370496).
Proof. vm_compute. reflexivity. Qed.

Lemma binary64_pos q : 0 < q -> binary64 q = Infinity \/ exists r, binary64 q = Finite r.
Proof.
  intros Hq. unfold binary64. destruct (Qeq_bool q 0); [eauto|].
  assert (Qle_bool 0 q = true) as -> by (apply Qle_bool_iff; lra).
  destruct (Qle_bool _ _); eauto.
Qed.

(** A candidate is split when its floored ratio is an integer from 2 on and
    [new Array] takes the floored product with [.7], which is 1 at least. *)
Lemma chain_array_split hw hh sl n :
  chain_array hw hh (Some sl) = Normal (Some n) ->
  exists a r, aspect_ratio hw hh = Finite (inject_Z a) /\ (2 <= a)%Z /\
    binary64 (inject_Z a * (3152519739159347 # 4503599627370496)) = Finite r /\
    n = Qfloor r /\ (1 <= n)%Z.
Proof.
  unfold chain_array, aspect_ratio. rewrite point7.
  destruct (double_div _ _) as [q| | |]; cbn [double_floor double_gt double_mul].
  - destruct (Qlt_bool (3 # 2) (inject_Z (Qfloor q))) eqn:Hgt; [|done].
    assert (Ha : (2 <= Qfloor q)%Z).
    { unfold Qlt_bool in Hgt. apply negb_true_iff, not_true_iff_false in Hgt.
      rewrite Qle_bool_iff in Hgt. unfold Qle in Hgt. simpl in Hgt. lia. }
    destruct (binary64 _) as [r| | |] eqn:Hr; cbn [double_floor new_Array];
      [|intros; discriminate..].
    destruct (_ && _); simpl; [|done]. rewrite Z.div_1_r. intros [= <-].
    exists (Qfloor q), r. split; [done|]. split; [done|]. split; [done|]. split; [done|].
    rewrite <- (Qfloor_Z 1). apply Qfloor_resp_le. apply (binary64_ge_1 _ _) in Hr; [done|].
    rewrite Zle_Qle in Ha. change (inject_Z 2) with 2 in Ha.
    set (z := inject_Z (Qfloor q)) in *. lra.
  - intros; discriminate.
  - done.
  - done.
Qed.

Lemma aspect_gt (a : Z) : double_gt (Finite (inject_Z a)) (Finite (3 # 2)) = true <-> (2 <= a)%Z.
Proof.
  cbn [double_gt]. unfold Qlt_bool. rewrite negb_true_iff, <- not_true_iff_false, Qle_bool_iff.
  unfold Qle. simpl. lia.
Qed.

(** Up to a floored ratio of 89 the product with [.7] is floored as that
    with 7/10 is. *)
Lemma chain_length_small (a : Z) :
  (2 <= a < 90)%Z ->
  new_Array (double_floor (double_mul (Finite (inject_Z a)) (binary64 (7 # 10))))
  = Normal (Qfloor (inject_Z a * (7 # 10))).
Proof.
  intros Ha.
  assert (Hall : forallb (fun k : nat =>
            match new_Array (double_floor (double_mul (Finite (inject_Z (Z.of_nat k)))
                                             (binary64 (7 # 10)))) with
            | Normal n => (n =? Qfloor (inject_Z (Z.of_nat k) * (7 # 10)))%Z
            | _ => false
            end) (seq 2 88) = true) by (vm_compute; reflexivity).
  rewrite forallb_forall in Hall. specialize (Hall (Z.to_nat a)).
  rewrite Z2Nat.id in Hall by lia.
  destruct (new_Array _) as [n| |]; [|discriminate Hall; apply in_seq; lia..].
  f_equal. apply Z.eqb_eq, Hall. apply in_seq. lia.
Qed.

(** C5 (amended). When [insert] splits a candidate with a slope, into a
    chain for an array of length [n], then [n >= 1] and the chain has [n + 1]
    boxes; every box is a square whose half extent is the smaller padded half
    size, and the centre of box [i] is the centre of box 0 moved by
    [i / n * 0.75] times the slope vector.  The candidate is split when the
    floored ratio [a = Math.floor(max / min)] of the padded half sizes is 2
    at least; [n] is [Math.floor(a * .7)] in binary64 arithmetic:
    [floor(7 a / 10)] up to [a = 89], but 62 and not 63 at [a = 90].  Half
    sizes 30 by 5 give [a = 3].  When the smaller padded half size is 0 the
    ratio is infinite and [new Array] throws. *)
Theorem slope_chain :
  (forall cx cy cz ox oy hw hh tile ts prio sl n,
     chain_array hw hh (Some sl) = Normal (Some n) ->
     let m := math_min (hw + 4) (hh + 4) in
     let bs := boxes (insert_data cx cy cz ox oy hw hh tile ts prio (Some sl)) in
     (1 <= n)%Z /\
     List.length bs = Z.to_nat (n + 1) /\
     (forall b, b ∈ bs -> half_extent_x b == m /\ half_extent_y b == m) /\
     (forall i b0 b, bs !! 0%nat = Some b0 -> bs !! i = Some b ->
        centre_x b == centre_x b0 + fst sl * (inject_Z (Z.of_nat i) / inject_Z n * (3 # 4)) /\
        centre_y b == centre_y b0 + snd sl * (inject_Z (Z.of_nat i) / inject_Z n * (3 # 4)))) /\
  (forall hw hh sl a, aspect_ratio hw hh = Finite (inject_Z a) ->
     ((a < 2)%Z -> chain_array hw hh (Some sl) = Normal None) /\
     ((2 <= a < 90)%Z ->
        chain_array hw hh (Some sl) = Normal (Some (Qfloor (inject_Z a * (7 # 10))))) /\
     (a = 90%Z -> chain_array hw hh (Some sl) = Normal (Some 62%Z))) /\
  aspect_ratio 30 5 = Finite 3 /\
  aspect_ratio 896 6 = Finite 90 /\
  (forall cx cy cz ox oy hh tile ts prio sl h, 0 <= hh ->
     insert cx cy cz ox oy (- 4) hh tile ts prio (Some sl) h
     = Throw "RangeError: Invalid array length").
Proof.
  split; [|split; [|split; [|split]]].
  - intros cx cy cz ox oy hw hh tile ts prio sl n Hn m bs.
    destruct (chain_array_split hw hh sl n Hn) as (a & r & _ & _ & _ & _ & Hn1).
    assert (Hbs : exists X Y, bs = updateBBoxes X Y sl m m n).
    { unfold bs, insert_data. rewrite Hn. cbv zeta. eexists _, _. reflexivity. }
    destruct Hbs as (X & Y & Hbs).
    assert (Hnz : ~ inject_Z n == 0).
    { intros Hz. rewrite Zle_Qle in Hn1. change (inject_Z 1) with 1 in Hn1. lra. }
    split; [done|]. rewrite Hbs. split; [apply updateBBoxes_length|]. split.
    + intros b Hb. apply list_elem_of_lookup in Hb as [i Hi].
      apply updateBBoxes_lookup in Hi as ->.
      unfold half_extent_x, half_extent_y. simpl. split; field; exact Hnz.
    + intros i b0 b H0 Hi.
      apply updateBBoxes_lookup in H0 as ->. apply updateBBoxes_lookup in Hi as ->.
      unfold centre_x, centre_y. simpl.
      split; field; exact Hnz.
  - intros hw hh sl a Ha. unfold chain_array. rewrite Ha. split; [|split].
    + intros Hlt. destruct (double_gt _ _) eqn:Hgt; [|done].
      apply aspect_gt in Hgt. lia.
    + intros Hr. rewrite (proj2 (aspect_gt a)) by lia.
      by rewrite chain_length_small.
    + intros ->. vm_compute. reflexivity.
  - vm_compute. reflexivity.
  - vm_compute. reflexivity.
  - intros cx cy cz ox oy hh tile ts prio sl h Hhh. unfold insert.
    assert (Hthrow : chain_array (- 4) hh (Some sl) = Throw "RangeError: Invalid array length");
      [|by rewrite Hthrow].
    unfold chain_array.
    assert (Hinf : aspect_ratio (- 4) hh = Infinity).
    { unfold aspect_ratio, boxBuffer.
      assert (Hmin : math_min (- 4 + 4) (hh + 4) = - 4 + 4).
      { unfold math_min. assert (Qle_bool (- 4 + 4) (hh + 4) = true) as ->; [|done].
        apply Qle_bool_iff. lra. }
      assert (Hmax : math_max (- 4 + 4) (hh + 4) = hh + 4).
      { unfold math_max. assert (Qle_bool (- 4 + 4) (hh + 4) = true) as ->; [|done].
        apply Qle_bool_iff. lra. }
      rewrite Hmin, Hmax.
      change (binary64 (- 4 + 4)) with (Finite 0).
      destruct (binary64_pos (hh + 4)) as [->|[r Hr]]; [lra|reflexivity|].
      rewrite Hr. pose proof (binary64_ge_1 (hh + 4) r ltac:(lra) Hr) as Hr1.
      cbn [double_div]. change (Qeq_bool 0 0) with true. cbv iota.
      assert (Qeq_bool r 0 = false) as ->.
      { apply not_true_iff_false. intros H%Qeq_bool_iff. lra. }
      assert (Qle_bool 0 r = true) as -> by (apply Qle_bool_iff; lra).
      reflexivity. }
    rewrite Hinf, point7. reflexivity.
Qed.

(** The boxes of one chain overlap one another: they are 0.375 apart and 18
    wide.  The invariant of phase 1 is about different candidates. *)
Example chain_boxes_overlap :
  forall b0 b1,
    boxes (insert_data 100 50 0 0 0 30 5 (mkTile "12" 1 2 2) 512 None (Some (1, 0))) !! 0%nat
      = Some b0 ->
    boxes (insert_data 100 50 0 0 0 30 5 (mkTile "12" 1 2 2) 512 None (Some (1, 0))) !! 1%nat
      = Some b1 ->
    bbox_overlap b0 b1.
Proof.
  intros b0 b1 H0 H1. vm_compute in H0, H1. injection H0 as <-. injection H1 as <-.
  apply bbox_intersects_overlap. vm_compute. reflexivity.
Qed.

Lemma slope_chain_witness :
  let bs := boxes (insert_data 100 50 0 0 0 30 5 (mkTile "12" 1 2 2) 512 None (Some (1, 0))) in
  List.length bs = 3%nat /\
  (forall b, b ∈ bs -> half_extent_x b == 9 /\ half_extent_y b == 9) /\
  (forall i b0 b, bs !! 0%nat = Some b0 -> bs !! i = Some b ->
     centre_x b == centre_x b0 + 1 * (inject_Z (Z.of_nat i) / 2 * (3 # 4)) /\
     centre_y b == centre_y b0 + 0 * (inject_Z (Z.of_nat i) / 2 * (3 # 4))).
Proof.
  assert (Hn : chain_array 30 5 (Some (1, 0)) = Normal (Some 2%Z)) by (vm_compute; reflexivity).
  destruct slope_chain as (Hchain & _).
  pose proof (Hchain 100 50 0 0 0 30 5 (mkTile "12" 1 2 2) 512%Z None (1, 0) 2%Z Hn)
    as (_ & Hlen & Hext & Hpos).
  split; [exact Hlen|]. split; [exact Hext|exact Hpos].
Defined.

(** At the scenario's input every sub-box has half-extent 9, more than
    [min(30, 5) = 5]; and a candidate with ratio 1.8 stays one box. *)
Lemma slope_chain_counterexample :
  (exists b,
     b ∈ boxes (insert_data 100 50 0 0 0 30 5 (mkTile "12" 1 2 2) 512 None (Some (1, 0))) /\
     ~ half_extent_x b <= math_min 30 5) /\
  (1 # 1) + (1 # 2) < (14 + 4) / (6 + 4) /\
  List.length (boxes (insert_data 100 50 0 0 0 14 6 (mkTile "12" 1 2 2) 512 None (Some (1, 0))))
    = 1%nat.
Proof.
  split; [|split; [vm_compute; reflexivity|vm_compute; reflexivity]].
  destruct (boxes (insert_data 100 50 0 0 0 30 5 (mkTile "12" 1 2 2) 512 None (Some (1, 0)))
              !! 0%nat) as [b|] eqn:Hb; [|vm_compute in Hb; discriminate].
  exists b. split; [by eapply list_elem_of_lookup_2|].
  vm_compute in Hb. injection Hb as <-. vm_compute. intros H. apply H. reflexivity.
Qed.

End Insert.

(** ** Tile cache keys: a 256 tile and its 512 parent share one batch space *)

Module Folding.
Import JS Collision Props Phase1.
Local Open Scope Q_scope.

Lemma slice_0_m1_app p d : slice_0_m1 (p +:+ String d EmptyString) = p.
Proof.
  induction p as [|c p IH]; [reflexivity|].
  change (String c p +:+ String d "")%string with (String c (p +:+ String d "")).
  simpl. rewrite IH. destruct p; reflexivity.
Qed.

Lemma cache_key_parent p q (A B : Layer) :
  is_parent p q -> tileSize A = 256%Z -> tileSize B ≠ 256%Z ->
  getTileCacheKey q A = getTileCacheKey p B.
Proof.
  intros [d ->] HA HB. unfold getTileCacheKey. rewrite HA. simpl.
  destruct (Z.eqb_spec (tileSize B) 256); [done|]. apply slice_0_m1_app.
Qed.

Lemma half_trunc_div2 (x : Z) : (0 <= x < 2 ^ 32)%Z -> half_trunc x = (x / 2)%Z.
Proof.
  intros Hx. unfold half_trunc, to_int32.
  rewrite Z.quot_div_nonneg by lia.
  rewrite Z.mod_small; [lia|].
  assert (0 <= x / 2 < 2 ^ 31)%Z; [|lia].
  split; [apply Z.div_pos; lia|]. apply Z.div_lt_upper_bound; lia.
Qed.

Lemma parent_grid (x : Z) :
  (0 <= x < 2 ^ 32)%Z -> (half_trunc x * 512 + rem2 x * 256 = x * 256)%Z.
Proof.
  intros Hx. rewrite half_trunc_div2 by done. unfold rem2.
  rewrite Z.rem_mod_nonneg by lia.
  pose proof (Z.div_mod x 2). lia.
Qed.

(** A 256 tile is handled as its 512 parent with the anchor moved by the
    parity of the tile: the two calls build the same record. *)
Lemma insert_data_256 cx cy cz ox oy hw hh (tile parent : Tile) prio sl :
  x parent = half_trunc (x tile) -> y parent = half_trunc (y tile) ->
  insert_data cx cy cz ox oy hw hh tile 256 prio sl =
  insert_data (cx + inject_Z (rem2 (x tile) * 256)) (cy + inject_Z (rem2 (y tile) * 256))
    cz ox oy hw hh parent 512 prio sl.
Proof.
  intros Hx Hy. unfold insert_data. rewrite Hx, Hy. reflexivity.
Qed.

Lemma completeTile_cache display flag h cur buffers u h1 b1 :
  curLayerTileCollision h = Some cur ->
  completeTile display flag h buffers = Normal (u, h1, b1) ->
  curLayerTileCollision h1 = None /\
  exists m, tiles h1 !! tileKey cur = Some m /\ m !! dataKey cur = Some (data cur).
Proof.
  intros Hcur. unfold completeTile. rewrite Hcur.
  set (h' := mkHandler _ _ _ _).
  assert (Hh' : curLayerTileCollision h' = None /\
    exists m, tiles h' !! tileKey cur = Some m /\ m !! dataKey cur = Some (data cur)).
  { split; [done|]. eexists. split; [apply lookup_insert_eq|apply lookup_insert_eq]. }
  destruct (updated h && flag).
  - destruct (updateTileSync _ _ _ _) as [[b' ?]| |]; simpl; [|done|done].
    by intros [= <- <- <-].
  - by intros [= <- <- <-].
Qed.

Section WithTileUtils.
Variable tq : Z -> Z -> Z -> string.

Lemma initTile_existing tile layer h m D obstacles :
  curLayerTileCollision h = None ->
  tiles h !! getTileCacheKey (quadkey tile) layer = Some m ->
  m !! D = Some obstacles ->
  D ≠ getDataKey (quadkey tile) layer ->
  exists cur, curLayerTileCollision (initTile tq tile layer h) = Some cur /\
    data cur = [] /\ existing cur !! D = Some obstacles.
Proof.
  intros Hcur Hm HD Hne. unfold initTile.
  set (h' := clearTile _ _ _).
  assert (Hh' : exists m', tiles h' !! getTileCacheKey (quadkey tile) layer = Some m' /\
                           m' !! D = Some obstacles).
  { unfold h', clearTile. rewrite Hcur. simpl.
    rewrite ?bool_decide_eq_false_2 by done. rewrite Hm.
    assert (Hd : delete (getDataKey (quadkey tile) layer) m !! D = Some obstacles)
      by (by rewrite lookup_delete_ne).
    case_bool_decide as Hemp.
    - rewrite Hemp, lookup_empty in Hd. done.
    - eexists. simpl. split; [apply lookup_insert_eq|done]. }
  destruct Hh' as (m' & Hm' & HD').
  eexists. split; [reflexivity|]. split; [reflexivity|]. simpl.
  rewrite Hm'. simpl. by apply lookup_union_Some_l.
Qed.

(** A batch that completes becomes an obstacle for the batch of every other
    layer and tile with the same cache key. *)
Lemma shared_key_collide_check display flag (t1 t2 : Tile) (l1 l2 : Layer)
    h0 buffers calls1 calls2 res1 h1 u h2 b2 :
  getTileCacheKey (quadkey t1) l1 = getTileCacheKey (quadkey t2) l2 ->
  getDataKey (quadkey t1) l1 ≠ getDataKey (quadkey t2) l2 ->
  insert_all calls1 (initTile tq t1 l1 h0) = Normal (res1, h1) ->
  completeTile display flag h1 buffers = Normal (u, h2, b2) ->
  exists res2 h3,
    insert_all calls2 (initTile tq t2 l2 h2) = Normal (res2, h3) /\
    forall a b, a ∈ accepted res1 -> b ∈ accepted res2 -> ~ overlap b a.
Proof.
  intros Hkey Hne Hrun1 Hdone.
  destruct (initTile_batch tq t1 l1 h0) as (cur1 & Hcur1 & Hdata1).
  assert (Hok1 : batch_ok cur1).
  { split; rewrite Hdata1; [intros i j c d _ Hi; by rewrite lookup_nil in Hi|].
    intros ???? _ Hc. by apply elem_of_nil in Hc. }
  destruct (insert_all_batch calls1 _ cur1 Hcur1 Hok1)
    as (res1' & cur1' & Hrun1' & Hd1 & _ & Hk1 & Hdk1 & _).
  rewrite Hrun1 in Hrun1'. injection Hrun1' as <- ->.
  rewrite Hdata1 in Hd1. simpl in Hd1.
  apply (completeTile_cache _ _ _ cur1') in Hdone as (Hnone & m & Hm & HD); [|done].
  assert (tileKey cur1 = getTileCacheKey (quadkey t1) l1 /\
          dataKey cur1 = getDataKey (quadkey t1) l1) as [Htk Hdk].
  { unfold initTile in Hcur1. simpl in Hcur1. by injection Hcur1 as <-. }
  rewrite Hk1, Htk, Hkey in Hm. rewrite Hdk1, Hdk, Hd1 in HD.
  destruct (initTile_existing t2 l2 h2 m _ _ Hnone Hm HD Hne) as (cur2 & Hcur2 & Hdata2 & Hex).
  assert (Hok2 : batch_ok cur2).
  { split; rewrite Hdata2; [intros i j c d _ Hi; by rewrite lookup_nil in Hi|].
    intros ???? _ Hc. by apply elem_of_nil in Hc. }
  destruct (insert_all_batch calls2 _ cur2 Hcur2 Hok2)
    as (res2 & cur2' & Hrun2 & Hd2 & He2 & _ & _ & [_ Ho]).
  rewrite Hdata2 in Hd2. simpl in Hd2.
  eexists res2, _. split; [exact Hrun2|].
  intros a b Ha Hb. eapply Ho; [by rewrite He2| by rewrite Hd2 | done].
Qed.

End WithTileUtils.

(** C4 (amended). A 256 layer registering tile [Q] and a 512 layer
    registering the parent of [Q] use the same tile cache key; [insert] for a
    256 tile builds the record it builds for the 512 parent tile with the
    anchor moved by 256 times the parity of the tile index (the tile size
    doubles and the index halves, the coordinates keep their scale); and
    whichever of the two layers completes its batch first, no candidate the
    other one accepts afterwards overlaps a candidate of that batch. *)
Theorem tile_cache_key_folding tq display (A B : Layer) (tQ tP : Tile) :
  tileSize A = 256%Z -> tileSize B = 512%Z ->
  is_parent (quadkey tP) (quadkey tQ) ->
  getDataKey (quadkey tQ) A ≠ getDataKey (quadkey tP) B ->
  getTileCacheKey (quadkey tQ) A = getTileCacheKey (quadkey tP) B /\
  (x tP = half_trunc (x tQ) -> y tP = half_trunc (y tQ) ->
   forall cx cy cz ox oy hw hh prio sl,
     insert_data cx cy cz ox oy hw hh tQ 256 prio sl =
     insert_data (cx + inject_Z (rem2 (x tQ) * 256)) (cy + inject_Z (rem2 (y tQ) * 256))
       cz ox oy hw hh tP 512 prio sl) /\
  (forall flag h0 buffers callsA callsB resA hA u h1 b1,
     insert_all callsA (initTile tq tQ A h0) = Normal (resA, hA) ->
     completeTile display flag hA buffers = Normal (u, h1, b1) ->
     exists resB hB,
       insert_all callsB (initTile tq tP B h1) = Normal (resB, hB) /\
       forall a b, a ∈ accepted resA -> b ∈ accepted resB -> ~ overlap b a) /\
  (forall flag h0 buffers callsA callsB resB hB u h1 b1,
     insert_all callsB (initTile tq tP B h0) = Normal (resB, hB) ->
     completeTile display flag hB buffers = Normal (u, h1, b1) ->
     exists resA hA,
       insert_all callsA (initTile tq tQ A h1) = Normal (resA, hA) /\
       forall b a, b ∈ accepted resB -> a ∈ accepted resA -> ~ overlap a b).
Proof.
  intros HA HB Hpar Hne.
  assert (Hkey : getTileCacheKey (quadkey tQ) A = getTileCacheKey (quadkey tP) B)
    by (apply cache_key_parent; [done|done|by rewrite HB]).
  split; [done|]. split; [intros; by apply insert_data_256|]. split.
  - intros. by eapply shared_key_collide_check.
  - intros. by eapply shared_key_collide_check.
Qed.

Lemma tile_cache_key_folding_witness :
  let A := mkLayer "1" 256 in
  let B := mkLayer "2" 512 in
  let tQ := mkTile "120" 5 2 3 in
  let tP := mkTile "12" 2 1 2 in
  getTileCacheKey (quadkey tQ) A = getTileCacheKey (quadkey tP) B /\
  (forall cx cy cz ox oy hw hh prio sl,
     insert_data cx cy cz ox oy hw hh tQ 256 prio sl =
     insert_data (cx + inject_Z (rem2 (x tQ) * 256)) (cy + inject_Z (rem2 (y tQ) * 256))
       cz ox oy hw hh tP 512 prio sl).
Proof.
  intros A B tQ tP.
  destruct (tile_cache_key_folding (fun _ _ _ => ""%string)
              (mkDisplay (fun x y => (x, y)) 1 [] (fun _ _ => None)) A B tQ tP)
    as (Hkey & Hdata & _).
  - reflexivity.
  - reflexivity.
  - exists (Ascii.ascii_of_nat 48). reflexivity.
  - discriminate.
  - split; [exact Hkey|]. apply Hdata; reflexivity.
Defined.

(** A candidate of the 256 layer in tile "120" and, after that batch is
    complete, an overlapping candidate of the 512 layer in tile "12": the
    second [insert] returns [false]. *)
Example folded_batches_collide :
  let tq := fun _ _ _ : Z => ""%string in
  let display := mkDisplay (fun x y => (x, y)) 1 [] (fun _ _ => None) in
  let A := mkLayer "1" 256 in
  let B := mkLayer "2" 512 in
  let tQ := mkTile "120" 5 2 3 in
  let tP := mkTile "12" 2 1 2 in
  exists c hA h1 b1,
    insert 10 10 0 0 0 5 5 tQ 256 None None (initTile tq tQ A (mkHandler ∅ None false None))
      = Normal (Some c, hA) /\
    completeTile display false hA ∅ = Normal (true, h1, b1) /\
    insert 270 12 0 0 0 5 5 tP 512 None None (initTile tq tP B h1) =
      Normal (None, initTile tq tP B h1).
Proof.
  simpl. eexists _, _, _, _. split; [reflexivity|]. split; [reflexivity|].
  vm_compute. reflexivity.
Qed.

(** The anchor of a candidate of a 256 tile is moved, not doubled: for
    [cx = 10] in the odd tile 1 the stored [cx] is 266, not [2 * 10 + 256]. *)
Lemma coordinates_not_doubled :
  let c := insert_data 10 10 0 0 0 5 5 (mkTile "1" 1 0 1) 256 None None in
  cx c == 266 /\ ~ cx c == 2 * 10 + inject_Z (rem2 1 * 256) /\
  boxes c = [mkBBox (0 + 0 + (10 + 256) - (5 + 4)) (0 + 0 + (10 + 256) + (5 + 4))
                    (0 + 0 + (10 + 0) - (5 + 4)) (0 + 0 + (10 + 0) + (5 + 4))].
Proof.
  split; [reflexivity|]. split; [|reflexivity]. vm_compute. discriminate.
Qed.

End Folding.

(** ** The debounce timer of phase 2 *)

Module Debounce.
Import JS Collision Props.
Local Open Scope Z_scope.

Lemma elapsed_nonneg es : 0 <= elapsed es.
Proof. induction es as [|[|ms] es IH]; simpl; lia. Qed.

Lemma update_idle w :
  idle w ->
  armed (mkWorld (update (handler w) (loop w)).1 (update (handler w) (loop w)).2
           (wbuffers w) (passes w))
        (nextTimer (loop w)) (now (loop w) + UPDATE_DELAY_MS).
Proof.
  intros [Ht Hp]. unfold update, armed. rewrite Ht. simpl. rewrite Hp.
  unfold UPDATE_DELAY_MS. repeat split; simpl; lia.
Qed.

(** [update] while a pass is scheduled changes nothing. *)
Lemma update_armed h l tid : timer h = Some tid -> update h l = (h, l).
Proof. intros Ht. unfold update. by rewrite Ht. Qed.

Lemma step_call_armed display w tid due :
  armed w tid due -> step display w CallUpdate = Normal w.
Proof.
  intros (Ht & _). simpl. rewrite (update_armed _ _ _ Ht). by destruct w.
Qed.

Lemma step_elapse_armed_early display w tid due ms :
  armed w tid due -> now (loop w) + Z.of_nat ms < due ->
  exists w', step display w (Elapse ms) = Normal w' /\ armed w' tid due /\
             now (loop w') = now (loop w) + Z.of_nat ms /\ passes w' = passes w /\
             nextTimer (loop w') = nextTimer (loop w).
Proof.
  intros (Ht & Hp & Hnow) Hms. simpl. rewrite Hp. simpl.
  destruct (Z.leb_spec due (now (loop w) + Z.of_nat ms)); [lia|]. simpl.
  eexists. split; [reflexivity|]. unfold armed. simpl. auto.
Qed.

Lemma step_elapse_armed_late display w tid due ms w' :
  armed w tid due -> due <= now (loop w) + Z.of_nat ms ->
  step display w (Elapse ms) = Normal w' ->
  idle w' /\ passes w' = due :: passes w /\ now (loop w') = now (loop w) + Z.of_nat ms.
Proof.
  intros (Ht & Hp & Hnow) Hms. simpl. rewrite Hp. simpl.
  destruct (Z.leb_spec due (now (loop w) + Z.of_nat ms)); [|lia].
  unfold on_timeout.
  destruct (updateTiles _ _ _ _ _) as [[b' u']| |]; simpl; [|done|done].
  rewrite Hp, filter_cons_False by (simpl; intros Hn; by apply Hn). rewrite filter_nil.
  intros [= <-]. unfold idle. simpl. auto.
Qed.

Lemma step_elapse_idle display w ms :
  idle w ->
  exists w', step display w (Elapse ms) = Normal w' /\ idle w' /\ passes w' = passes w.
Proof.
  intros [Ht Hp]. simpl. rewrite Hp. simpl. eexists. split; [reflexivity|].
  unfold idle. simpl. auto.
Qed.

Lemma step_timer_ok display w e w' :
  timer_ok w -> step display w e = Normal w' ->
  timer_ok w' /\ exists fired, passes w' = fired ++ passes w.
Proof.
  intros [Hidle|(tid & due & Harm & Hdue)] Hstep.
  - destruct e as [|ms].
    + destruct Hidle as [Ht Hp]. simpl in Hstep. unfold update in Hstep.
      rewrite Ht in Hstep. simpl in Hstep. injection Hstep as <-. split; [|by exists []].
      right. exists (nextTimer (loop w)), (now (loop w) + UPDATE_DELAY_MS).
      unfold armed. simpl. rewrite Hp. unfold UPDATE_DELAY_MS. simpl.
      repeat split; lia.
    + destruct (step_elapse_idle display w ms Hidle) as (w1 & Hs & Hi & Hp).
      rewrite Hs in Hstep. injection Hstep as <-. split; [by left|by exists []].
  - destruct e as [|ms].
    + rewrite (step_call_armed _ _ _ _ Harm) in Hstep. injection Hstep as <-.
      split; [right; eauto|by exists []].
    + destruct (Z.lt_ge_cases (now (loop w) + Z.of_nat ms) due) as [Hlt|Hge].
      * destruct (step_elapse_armed_early display w tid due ms Harm Hlt)
          as (w1 & Hs & Ha & Hn & Hp & _).
        rewrite Hs in Hstep. injection Hstep as <-. split; [|by exists []].
        right. exists tid, due. split; [done|]. lia.
      * destruct (step_elapse_armed_late display w tid due ms w' Harm Hge Hstep)
          as (Hi & Hp & _).
        split; [by left|]. exists [due]. by rewrite Hp.
Qed.

Lemma run_timer_ok display es : forall w w',
  timer_ok w -> run display w es = Normal w' ->
  timer_ok w' /\ exists fired, passes w' = fired ++ passes w.
Proof.
  induction es as [|e es IH]; intros w w' Hok Hrun; simpl in Hrun.
  - injection Hrun as <-. split; [done|by exists []].
  - destruct (step display w e) as [w1| |] eqn:Hs; simpl in Hrun; [|done|done].
    destruct (step_timer_ok _ _ _ _ Hok Hs) as (Hok1 & f1 & Hp1).
    destruct (IH _ _ Hok1 Hrun) as (Hok' & f2 & Hp2).
    split; [done|]. exists (f2 ++ f1). by rewrite Hp2, Hp1, app_assoc.
Qed.

Lemma run_armed display es : forall w w' tid due,
  armed w tid due -> run display w es = Normal w' ->
  (now (loop w) + elapsed es < due ->
     armed w' tid due /\ passes w' = passes w /\ nextTimer (loop w') = nextTimer (loop w)) /\
  (due <= now (loop w) + elapsed es ->
     exists fired, passes w' = fired ++ due :: passes w).
Proof.
  induction es as [|e es IH]; intros w w' tid due Harm Hrun; simpl in Hrun.
  - injection Hrun as <-. simpl. split; [auto|]. destruct Harm as (_ & _ & ?). lia.
  - destruct (step display w e) as [w1| |] eqn:Hs; simpl in Hrun; [|done|done].
    destruct e as [|ms].
    + rewrite (step_call_armed _ _ _ _ Harm) in Hs. injection Hs as <-.
      simpl. by apply IH.
    + simpl. pose proof (elapsed_nonneg es).
      destruct (Z.lt_ge_cases (now (loop w) + Z.of_nat ms) due) as [Hlt|Hge].
      * destruct (step_elapse_armed_early display w tid due ms Harm Hlt)
          as (w2 & Hs2 & Ha & Hn & Hp & Hnt).
        rewrite Hs in Hs2. injection Hs2 as <-.
        destruct (IH _ _ _ _ Ha Hrun) as [IH1 IH2]. rewrite Hn, Hp, Hnt in *. split.
        -- intros Hl. apply IH1. lia.
        -- intros Hl. apply IH2. lia.
      * destruct (step_elapse_armed_late display w tid due ms w1 Harm Hge Hs)
          as (Hi & Hp & _).
        split; [lia|]. intros _.
        destruct (run_timer_ok display es w1 w' (or_introl Hi) Hrun) as (_ & f & Hf).
        exists f. by rewrite Hf, Hp.
Qed.

(** C7 (amended). From a state without a scheduled pass, [update] followed
    by any calls of [update] and any passing of time: there is never more than
    one timeout pending; [update] while a pass is scheduled leaves the event
    loop as it is; as long as less than 150 ms have passed since the first
    call the one pending timeout is the one that call set, due 150 ms after
    it, and no pass has run; and once 150 ms have passed, a pass has run at
    exactly 150 ms after the first call. *)
Theorem debounce display w es w' :
  idle w ->
  run display w (CallUpdate :: es) = Normal w' ->
  (List.length (pending (loop w')) <= 1)%nat /\
  (forall tid, timer (handler w') = Some tid ->
     update (handler w') (loop w') = (handler w', loop w')) /\
  (elapsed es < UPDATE_DELAY_MS ->
     pending (loop w') = [(nextTimer (loop w), now (loop w) + UPDATE_DELAY_MS)] /\
     passes w' = passes w) /\
  (UPDATE_DELAY_MS <= elapsed es ->
     exists fired, passes w' = fired ++ (now (loop w) + UPDATE_DELAY_MS) :: passes w).
Proof.
  intros Hidle Hrun.
  destruct (run_timer_ok display _ w w' (or_introl Hidle) Hrun) as (Hok & _).
  split; [|split; [intros tid; apply update_armed|]].
  { destruct Hok as [[_ ->]|(tid & due & (_ & -> & _) & _)]; simpl; lia. }
  assert (Hrun' : run display (mkWorld (update (handler w) (loop w)).1
                    (update (handler w) (loop w)).2 (wbuffers w) (passes w)) es = Normal w').
  { simpl in Hrun. by destruct (update _ _). }
  pose proof (update_idle w Hidle) as Harm.
  destruct (run_armed display es _ w' _ _ Harm Hrun') as [Hearly Hlate].
  assert (Hnow : now (update (handler w) (loop w)).2 = now (loop w)).
  { unfold update. destruct Hidle as [-> _]. reflexivity. }
  simpl in Hearly, Hlate. rewrite Hnow in Hearly, Hlate. split.
  - intros Hlt. destruct Hearly as ((_ & Hp & _) & Hps & _); [lia|]. auto.
  - intros Hge. apply Hlate. lia.
Qed.

Lemma debounce_witness :
  let display := mkDisplay (fun x y => (x, y)) 1 [] (fun _ _ => None) in
  let w := mkWorld (mkHandler ∅ None false None) (mkEventLoop 1000 [] 0) ∅ [] in
  exists w',
    run display w [CallUpdate; Elapse 40; CallUpdate; Elapse 40; CallUpdate; Elapse 100]
      = Normal w' /\
    exists fired, passes w' = fired ++ [1150].
Proof.
  intros display w.
  destruct (run display w [CallUpdate; Elapse 40; CallUpdate; Elapse 40; CallUpdate; Elapse 100])
    as [w'| |] eqn:Hrun; [|vm_compute in Hrun; discriminate..].
  exists w'. split; [reflexivity|].
  destruct (debounce display w _ w' (conj eq_refl eq_refl) Hrun) as (_ & _ & _ & Hlate).
  apply Hlate. vm_compute. discriminate.
Defined.

(** The delay is not measured from the latest call: with calls at 0 and at
    100 the timeout stays due at 150, and the pass runs then, 50 ms after the
    latest call. *)
Lemma trailing_debounce_counterexample :
  let display := mkDisplay (fun x y => (x, y)) 1 [] (fun _ _ => None) in
  let w := mkWorld (mkHandler ∅ None false None) (mkEventLoop 0 [] 0) ∅ [] in
  exists w1 w2,
    run display w [CallUpdate; Elapse 100; CallUpdate] = Normal w1 /\
    now (loop w1) = 100 /\
    pending (loop w1) = [(0%nat, 150)] /\
    ~ pending (loop w1) = [(0%nat, now (loop w1) + UPDATE_DELAY_MS)] /\
    run display w1 [Elapse 50] = Normal w2 /\
    passes w2 = [150].
Proof.
  simpl. eexists _, _. split; [reflexivity|]. split; [reflexivity|].
  split; [reflexivity|]. split; [discriminate|]. split; reflexivity.
Qed.

End Debounce.

(** ** Phase 2: the sweep in screen space *)

Module Phase2.
Import JS Collision Props Phase1.
Local Open Scope Q_scope.

Lemma land_1 (u : Z) : Z.land u 1 = Z.b2z (Z.testbit u 0).
Proof.
  change 1%Z with (Z.ones 1). rewrite Z.land_ones by lia.
  change (2 ^ 1)%Z with 2%Z. by rewrite Z.bit0_mod.
Qed.

Lemma lsb_lxor (v : Z) : (Z.land (Z.lxor v 1) 1 =? 1)%Z = negb (Z.land v 1 =? 1)%Z.
Proof.
  rewrite !land_1, Z.lxor_spec. change (Z.testbit 1 0) with true.
  by destruct (Z.testbit v 0).
Qed.

Lemma toggle_range_spec fuel : forall data start stop size,
  (0 < size)%nat -> (stop - start <= fuel)%nat ->
  exists data', toggle_range fuel data start stop size = Some data' /\
    List.length data' = List.length data /\
    (forall p, (p < start)%nat \/ (stop <= p)%nat -> data' !! p = data !! p) /\
    ((start < stop)%nat -> data' !! start = (fun v => Z.lxor v 1) <$> data !! start).
Proof.
  induction fuel as [|fuel IH]; intros data start stop size Hsize Hfuel.
  - exists data. simpl. destruct (Nat.ltb_spec start stop); [lia|].
    repeat split; auto. lia.
  - simpl. destruct (Nat.ltb_spec start stop) as [Hlt|Hge].
    + destruct (IH (alter (fun v => Z.lxor v 1) start data) (start + size)%nat stop size)
        as (data' & Hrun & Hlen & Hout & _); [done|lia|].
      exists data'. split; [done|]. split; [by rewrite Hlen, length_alter|]. split.
      * intros p Hp. rewrite Hout by lia. apply list_lookup_alter_ne. lia.
      * intros _. rewrite Hout by lia. apply list_lookup_alter_eq.
    + exists data. repeat split; auto. lia.
Qed.

Lemma lsb_set_toggled data data' i :
  (i < List.length data)%nat ->
  data' !! i = (fun v => Z.lxor v 1) <$> data !! i ->
  lsb_set data' i = negb (lsb_set data i).
Proof.
  intros Hi Hd. unfold lsb_set. rewrite Hd.
  destruct (lookup_lt_is_Some_2 data i Hi) as [v ->]. simpl. apply lsb_lxor.
Qed.

Lemma disjoint_sym a a' : disjoint a a' -> disjoint a' a.
Proof. unfold disjoint. intros [H|[H|H]]; auto. Qed.

Lemma update_attr_spec v (buffers : Heap) u a :
  range_ok buffers a ->
  exists buffers' u',
    update_attr v (buffers, u) a = Normal (buffers', u') /\
    bit buffers' a = Some (negb v) /\
    (forall a', range_ok buffers a' -> range_ok buffers' a') /\
    (forall a', (start a' < stop a')%nat -> disjoint a a' -> bit buffers' a' = bit buffers a').
Proof.
  intros (buf & Hbuf & Hsize & Hne & Hin). unfold update_attr. rewrite Hbuf.
  destruct (Bool.eqb v (lsb_set (bdata buf) (start a))) eqn:Hv.
  - apply Bool.eqb_prop in Hv.
    destruct (toggle_range_spec (stop a - start a) (bdata buf) (start a) (stop a) (bsize buf))
      as (data' & -> & Hlen & Hout & Hat); [done|lia|].
    eexists _, _. split; [reflexivity|]. split; [|split].
    + unfold bit. rewrite lookup_insert_eq. simpl.
      rewrite (lsb_set_toggled (bdata buf)) by auto. by rewrite <- Hv.
    + intros a' (buf' & Hbuf' & ? & ? & ?).
      destruct (decide (buffer a' = buffer a)) as [Heq|Hneq].
      * rewrite Heq in Hbuf'. rewrite Hbuf in Hbuf'. injection Hbuf' as <-.
        eexists. rewrite Heq, lookup_insert_eq. split; [reflexivity|]. simpl.
        rewrite Hlen. auto.
      * exists buf'. by rewrite lookup_insert_ne.
    + intros a' Hne' Hdis. unfold bit.
      destruct (decide (buffer a = buffer a')) as [Heq|Hneq].
      * rewrite <- Heq, lookup_insert_eq, Hbuf. simpl. f_equal.
        unfold lsb_set. rewrite Hout; [done|].
        destruct Hdis as [?|[?|?]]; [done|lia|lia].
      * by rewrite lookup_insert_ne.
  - apply Bool.eqb_false_iff in Hv.
    eexists _, _. split; [reflexivity|]. split; [|by split].
    unfold bit. rewrite Hbuf. simpl. f_equal.
    destruct v, (lsb_set (bdata buf) (start a)); done.
Qed.

Lemma update_attr_stable v (buffers : Heap) u a :
  bit buffers a = Some (negb v) -> update_attr v (buffers, u) a = Normal (buffers, u).
Proof.
  unfold bit, update_attr. destruct (buffers !! buffer a) as [buf|]; [|done].
  simpl. intros [= ->]. by destruct v.
Qed.

Lemma run_jobs_spec js : forall (buffers : Heap) u,
  Forall (range_ok buffers) (map snd js) -> all_disjoint (map snd js) ->
  exists buffers' u',
    run_jobs (buffers, u) js = Normal (buffers', u') /\
    (forall v a, (v, a) ∈ js -> bit buffers' a = Some (negb v)) /\
    (forall a', range_ok buffers a' -> range_ok buffers' a') /\
    (forall a', (start a' < stop a')%nat -> Forall (disjoint a') (map snd js) ->
       bit buffers' a' = bit buffers a').
Proof.
  induction js as [|[v a] js IH]; intros buffers u Hok Hdis.
  - exists buffers, u. split; [done|]. split; [by intros ?? ?%elem_of_nil|]. auto.
  - simpl in Hok, Hdis. apply Forall_cons in Hok as [Ha Hok]. destruct Hdis as [Hda Hdis].
    destruct (update_attr_spec v buffers u a Ha) as (b1 & u1 & Hrun1 & Hbit1 & Hpres1 & Hfr1).
    destruct (IH b1 u1) as (b2 & u2 & Hrun2 & Hbit2 & Hpres2 & Hfr2);
      [by eapply Forall_impl; [exact Hok|] | done |].
    exists b2, u2. split; [cbn [run_jobs]; by rewrite Hrun1|]. split; [|split].
    + intros v' a' Hin. apply elem_of_cons in Hin as [[= -> ->]|Hin]; [|by eauto].
      rewrite Hfr2; [done| |done]. destruct Ha as (? & _ & _ & ? & _). done.
    + auto.
    + intros a' Hne Hall. simpl in Hall. apply Forall_cons in Hall as [Hd Hall].
      rewrite Hfr2 by done. apply Hfr1; [done|]. by apply disjoint_sym.
Qed.

Lemma run_jobs_stable js : forall (buffers : Heap) u,
  (forall v a, (v, a) ∈ js -> bit buffers a = Some (negb v)) ->
  run_jobs (buffers, u) js = Normal (buffers, u).
Proof.
  induction js as [|[v a] js IH]; intros buffers u Hbits; [done|].
  cbn [run_jobs]. rewrite update_attr_stable by (apply Hbits; left). simpl.
  apply IH. intros. apply Hbits. by right.
Qed.

Lemma run_jobs_app js1 js2 acc :
  run_jobs acc (js1 ++ js2) = (acc' ← run_jobs acc js1; run_jobs acc' js2).
Proof.
  revert acc. induction js1 as [|[v a] js1 IH]; intros acc; [done|].
  simpl. destruct (update_attr v acc a); simpl; auto.
Qed.

Lemma update_attrs_jobs v l : forall acc,
  update_attrs v acc l = run_jobs acc (map (pair v) l).
Proof.
  induction l as [|a l IH]; intros acc; [done|].
  simpl. destruct (update_attr v acc a); simpl; auto.
Qed.

(** The sweep is the sequence of its jobs; the visible items do not depend
    on the buffers. *)
Lemma sweep_jobs l : forall st,
  sweep st l =
    (acc ← run_jobs (heap st, sweep_updated st)
             (jobs l (verdicts (visibleItemsMapAligned st) (visibleItemsViewportAligned st) l));
     Normal (mkSweep
       (fst (visible_items (visibleItemsMapAligned st) (visibleItemsViewportAligned st) l))
       (snd (visible_items (visibleItemsMapAligned st) (visibleItemsViewportAligned st) l))
       (fst acc) (snd acc))).
Proof.
  induction l as [|bbox l IH]; intros st; [by destruct st|].
  simpl. unfold sweep_step. rewrite run_jobs_app, update_attrs_jobs.
  destruct (run_jobs _ (map _ _)) as [[b1 u1]| |]; simpl; [|done|done].
  by rewrite IH.
Qed.

Lemma verdicts_length l : forall vM vV, List.length (verdicts vM vV l) = List.length l.
Proof. induction l; intros; simpl; auto. Qed.

Lemma jobs_ranges l : forall vs,
  List.length vs = List.length l -> map snd (jobs l vs) = flat_map sattrs l.
Proof.
  induction l as [|bbox l IH]; intros [|v vs] Hlen; try done.
  simpl. rewrite map_app, map_map, map_id. f_equal. apply IH. simpl in Hlen. lia.
Qed.

Lemma jobs_elem l : forall vs i bbox v a,
  l !! i = Some bbox -> vs !! i = Some v -> a ∈ sattrs bbox -> (v, a) ∈ jobs l vs.
Proof.
  induction l as [|b l IH]; intros [|v0 vs] i bbox v a Hl Hv Ha; try done.
  simpl. apply elem_of_app. destruct i as [|i]; simpl in *.
  - injection Hl as ->. injection Hv as ->. left. by apply list_elem_of_fmap_2.
  - right. eauto.
Qed.

Lemma sort_insert_perm a l : sort_insert a l ≡ₚ a :: l.
Proof.
  induction l as [|b l IH]; [done|]. simpl.
  destruct (Qle_bool _ _); [done|]. rewrite IH. apply perm_swap.
Qed.

Lemma sort_by_priority_perm l : sort_by_priority l ≡ₚ l.
Proof.
  induction l as [|a l IH]; [done|]. simpl.
  rewrite sort_insert_perm. by apply perm_skip.
Qed.

Lemma flat_map_perm {A B} (f : A -> list B) l l' : l ≡ₚ l' -> flat_map f l ≡ₚ flat_map f l'.
Proof.
  induction 1 as [|a l l' _ IH|a b l|l1 l2 l3 _ IH1 _ IH2]; simpl.
  - done.
  - by rewrite IH.
  - rewrite !app_assoc. f_equiv. apply Permutation_app_comm.
  - by rewrite IH1.
Qed.

Lemma all_disjoint_perm l l' : l ≡ₚ l' -> all_disjoint l -> all_disjoint l'.
Proof.
  induction 1 as [|a l l' Hp IH|a b l|l1 l2 l3 _ IH1 _ IH2]; simpl.
  - done.
  - intros [Ha Hl]. split; [by rewrite <- Hp|auto].
  - intros [Hb [Ha Hl]]. apply Forall_cons in Hb as [Hba Hb].
    split; [|by split]. apply Forall_cons. split; [by apply disjoint_sym|done].
  - auto.
Qed.

Lemma ranges_ok_sorted (buffers : Heap) l :
  ranges_ok buffers l -> ranges_ok buffers (sort_by_priority l).
Proof.
  intros [Hok Hdis].
  pose proof (flat_map_perm sattrs _ _ (sort_by_priority_perm l)) as Hp.
  split; [by rewrite Hp|]. eapply all_disjoint_perm; [symmetry; exact Hp|done].
Qed.

Lemma jobs_inv l : forall vs v a,
  List.length vs = List.length l -> (v, a) ∈ jobs l vs ->
  exists i bbox, l !! i = Some bbox /\ vs !! i = Some v /\ a ∈ sattrs bbox.
Proof.
  induction l as [|b l IH]; intros [|v0 vs] v a Hlen Hin;
    try (by apply elem_of_nil in Hin).
  simpl in Hin. apply elem_of_app in Hin as [Hin|Hin].
  - apply list_elem_of_fmap in Hin as (a0 & [= -> ->] & Ha). exists 0%nat, b. auto.
  - destruct (IH vs v a) as (i & bbox & ? & ? & ?); [simpl in Hlen; lia|done|].
    exists (S i), bbox. auto.
Qed.

(** What a pass does to well formed buffers: it returns, and afterwards the
    bit of every range of the [i]-th candidate of the sorted list is the
    negation of the [i]-th verdict. *)
Lemma updateTiles_bits display cache tiles scale (buffers : Heap) l :
  collect display cache tiles scale [] = Normal l ->
  ranges_ok buffers l ->
  let sorted := sort_by_priority l in
  exists buffers' u,
    updateTiles display cache tiles scale buffers = Normal (buffers', u) /\
    (forall i bbox v a, sorted !! i = Some bbox -> verdicts [] [] sorted !! i = Some v ->
       a ∈ sattrs bbox -> bit buffers' a = Some (negb v)) /\
    ranges_ok buffers' l.
Proof.
  intros Hcol Hok sorted. pose proof (ranges_ok_sorted _ _ Hok) as [Hr Hd].
  fold sorted in Hr, Hd.
  destruct (run_jobs_spec (jobs sorted (verdicts [] [] sorted)) buffers false)
    as (b' & u' & Hrun & Hbits & Hpres & _).
  { by rewrite jobs_ranges by apply verdicts_length. }
  { by rewrite jobs_ranges by apply verdicts_length. }
  exists b', u'. unfold updateTiles. rewrite Hcol. simpl. fold sorted.
  rewrite sweep_jobs. simpl. rewrite Hrun. simpl. split; [done|]. split.
  - intros i bbox v a Hi Hv Ha. apply Hbits. by eapply jobs_elem.
  - destruct Hok as [Hok Hdis]. split; [|done]. eapply Forall_impl; [exact Hok|auto].
Qed.

(** C3. On well formed buffers (every range of a collected candidate lies in
    an existing buffer with a positive stride, is not empty and shares no
    element with another range) a pass over the collected candidates returns,
    and a second pass on the buffers it leaves, with the same cache, tiles and
    projection, changes nothing in them, sets no dirty flag and returns
    [false]. *)
Theorem phase2_idempotent display cache tiles scale (buffers : Heap) l :
  collect display cache tiles scale [] = Normal l ->
  ranges_ok buffers l ->
  exists buffers' u,
    updateTiles display cache tiles scale buffers = Normal (buffers', u) /\
    updateTiles display cache tiles scale buffers' = Normal (buffers', false).
Proof.
  intros Hcol Hok.
  destruct (updateTiles_bits _ _ _ _ _ _ Hcol Hok) as (b' & u & Hrun & Hbits & _).
  exists b', u. split; [done|].
  unfold updateTiles. rewrite Hcol. simpl. rewrite sweep_jobs. simpl.
  rewrite run_jobs_stable; [done|].
  intros v a Hin.
  destruct (jobs_inv _ _ _ _ (verdicts_length _ _ _) Hin) as (i & bbox & ? & ? & ?).
  eauto.
Qed.




Lemma verdicts_app l1 l2 : forall vM vV,
  verdicts vM vV (l1 ++ l2) =
  verdicts vM vV l1 ++
  verdicts (fst (visible_items vM vV l1)) (snd (visible_items vM vV l1)) l2.
Proof. induction l1 as [|b l1 IH]; intros; simpl; [done|]. by rewrite IH. Qed.

Lemma visible_items_mono l : forall vM vV c,
  (c ∈ vM -> c ∈ fst (visible_items vM vV l)) /\
  (c ∈ vV -> c ∈ snd (visible_items vM vV l)).
Proof.
  induction l as [|b l IH]; intros vM vV c; simpl; [done|].
  destruct (IH (fst (sweep_accept vM vV b)) (snd (sweep_accept vM vV b)) c) as [IH1 IH2].
  unfold sweep_accept in *.
  destruct (sweep_intersects vM vV b); [done|].
  destruct (sslope b); simpl in *; split; intros Hc; first [apply IH1|apply IH2];
    rewrite ?elem_of_app; auto.
Qed.

(** A candidate the sweep accepts joins the visible items of its class. *)
Lemma sweep_accept_in vM vV c :
  sweep_intersects vM vV c = false ->
  match sslope c with
  | Some _ => c ∈ fst (sweep_accept vM vV c)
  | None => c ∈ snd (sweep_accept vM vV c)
  end.
Proof.
  intros Hv. unfold sweep_accept. rewrite Hv.
  destruct (sslope c); simpl; apply elem_of_app; right; apply list_elem_of_here.
Qed.

Lemma sweep_intersects_true vM vV c1 c2 :
  overlap c1 c2 ->
  ~ (is_Some (sslope c1) /\ is_Some (sslope c2)) ->
  match sslope c1 with Some _ => c1 ∈ vM | None => c1 ∈ vV end ->
  sweep_intersects vM vV c2 = true.
Proof.
  intros Hov Hcls Hin. apply overlap_sym in Hov. unfold sweep_intersects.
  destruct (sslope c1) eqn:H1.
  - destruct (sslope c2) eqn:H2; [exfalso; apply Hcls; eauto|].
    apply orb_true_iff. right. apply intersects_true. eauto.
  - assert (intersects c2 vV = true) as -> by (apply intersects_true; eauto).
    by destruct (sslope c2).
Qed.

(** In the sweep over a list, an accepted candidate hides every later
    candidate that overlaps it, unless both have a slope. *)
Lemma verdicts_later l1 c1 l2 c2 l3 vM vV :
  overlap c1 c2 ->
  ~ (is_Some (sslope c1) /\ is_Some (sslope c2)) ->
  verdicts vM vV (l1 ++ c1 :: l2 ++ c2 :: l3) !! List.length l1 = Some false ->
  verdicts vM vV (l1 ++ c1 :: l2 ++ c2 :: l3) !! (List.length l1 + S (List.length l2))%nat
    = Some true.
Proof.
  intros Hov Hcls. rewrite verdicts_app.
  set (vM1 := fst (visible_items vM vV l1)). set (vV1 := snd (visible_items vM vV l1)).
  assert (Hl1 : List.length (verdicts vM vV l1) = List.length l1) by apply verdicts_length.
  rewrite lookup_app_r by lia. rewrite (lookup_app_r _ _ (_ + _)%nat) by lia.
  rewrite Hl1, Nat.sub_diag. replace (_ + _ - _)%nat with (S (List.length l2)) by lia.
  simpl. intros [= Hv]. rewrite verdicts_app.
  set (vs := sweep_accept vM1 vV1 c1) in *.
  assert (Hl2 : List.length (verdicts (fst vs) (snd vs) l2) = List.length l2)
    by apply verdicts_length.
  rewrite lookup_app_r by lia. rewrite Hl2, Nat.sub_diag. simpl. f_equal.
  apply (sweep_intersects_true _ _ c1); [done|done|].
  pose proof (sweep_accept_in vM1 vV1 c1 Hv) as Hin. fold vs in Hin.
  destruct (sslope c1); by apply visible_items_mono.
Qed.

Lemma sorted_split (l : list ScreenCollision) i j c1 c2 :
  (i < j)%nat -> l !! i = Some c1 -> l !! j = Some c2 ->
  exists l1 l2 l3, l = l1 ++ c1 :: l2 ++ c2 :: l3 /\
    List.length l1 = i /\ (i + S (List.length l2))%nat = j.
Proof.
  intros Hij Hi Hj.
  exists (take i l), (take (j - S i) (drop (S i) l)), (drop (S (j - S i)) (drop (S i) l)).
  assert (Hj' : drop (S i) l !! (j - S i)%nat = Some c2).
  { rewrite lookup_drop. by replace (S i + (j - S i))%nat with j by lia. }
  split; [|split].
  - rewrite (take_drop_middle _ _ _ Hj'). by rewrite (take_drop_middle _ _ _ Hi).
  - apply length_take_le. apply lookup_lt_Some in Hi. lia.
  - rewrite length_take_le; [lia|]. apply lookup_lt_Some in Hj'. lia.
Qed.






(** The scene with its candidates [l]: what [collect] returns is what
    [project_cData] makes of each of them. *)
Ltac scene_ranges :=
  split; [repeat constructor; eexists; (split; [reflexivity|]); simpl; lia
         |simpl; repeat split; repeat constructor; unfold disjoint; simpl; lia].



Lemma phase2_idempotent_witness :
  let cache := scene_cache [label 0 0 0; label 1 30 1; label 2 60 2] in
  exists buffers' u,
    updateTiles scene_display cache (vtiles scene_display) (s scene_display) scene_buffers
      = Normal (buffers', u) /\
    updateTiles scene_display cache (vtiles scene_display) (s scene_display) buffers'
      = Normal (buffers', false).
Proof.
  intros cache.
  eapply (phase2_idempotent scene_display cache (vtiles scene_display) (s scene_display)).
  - reflexivity.
  - scene_ranges.
Defined.

(** With an empty range the test [intersects == visible] succeeds at every
    pass although the loop toggles nothing, and the pass marks the buffer
    dirty and returns [true] again; and two overlapping labels that share one
    range toggle it back and forth, pass after pass. *)
Lemma phase2_idempotent_counterexample :
  let buffers : Heap := {[ 0%nat := mkBuffer [0; 0]%Z 2 false ]} in
  let lone := mkCollisionData [mkBBox (- 10) 10 (- 10) 10] [mkAttrRange 0 0 0]
                1 0 0 0 0 0 10 10 None in
  let shared priority cx := mkCollisionData [mkBBox (cx - 10) (cx + 10) (- 10) 10]
                [mkAttrRange 0 2 0] priority cx 0 0 0 0 10 10 None in
  (exists buffers',
     updateTiles scene_display (scene_cache [lone]) (vtiles scene_display) (s scene_display)
       buffers = Normal (buffers', true) /\
     updateTiles scene_display (scene_cache [lone]) (vtiles scene_display) (s scene_display)
       buffers' = Normal (buffers', true)) /\
  (exists buffers',
     updateTiles scene_display (scene_cache [shared 0 0; shared 1 5]) (vtiles scene_display)
       (s scene_display) buffers = Normal (buffers', true) /\
     updateTiles scene_display (scene_cache [shared 0 0; shared 1 5]) (vtiles scene_display)
       (s scene_display) buffers' = Normal (buffers', true)).
Proof.
  split; eexists; (split; [vm_compute; reflexivity|vm_compute; reflexivity]).
Qed.


Lemma all_slopes_accepted l : forall vM,
  Forall (fun c => is_Some (sslope c)) l ->
  Forall (eq false) (verdicts vM [] l) /\ snd (visible_items vM [] l) = [].
Proof.
  induction l as [|c l IH]; intros vM Hall; [by split|].
  apply Forall_cons in Hall as [[sl Hc] Hall]. simpl.
  assert (Hv : sweep_intersects vM [] c = false) by (unfold sweep_intersects; by rewrite Hc).
  unfold sweep_accept. rewrite Hv, Hc. simpl.
  destruct (IH (vM ++ [c]) Hall) as [IH1 IH2]. split; [by constructor|done].
Qed.

Lemma sweep_intersects_iff vM vV c :
  sweep_intersects vM vV c = true <->
  exists d, overlap c d /\ (d ∈ vV \/ (sslope c = None /\ d ∈ vM)).
Proof.
  unfold sweep_intersects. destruct (sslope c) as [sl|].
  - rewrite intersects_true. split.
    + intros (d & ? & ?). eauto.
    + intros (d & ? & [?|[? _]]); [eauto|done].
  - rewrite orb_true_iff, !intersects_true. split.
    + intros [(d & ? & ?)|(d & ? & ?)]; eauto 6.
    + intros (d & ? & [?|[_ ?]]); eauto.
Qed.

(** The visible items at the end of the sweep over [l] are the items there
    were at its beginning and the candidates of [l] that were accepted, each
    in the list of its class. *)
Lemma visible_items_accepted l : forall vM vV d,
  (d ∈ fst (visible_items vM vV l) <->
     d ∈ vM \/ exists k, l !! k = Some d /\ verdicts vM vV l !! k = Some false /\
                         is_Some (sslope d)) /\
  (d ∈ snd (visible_items vM vV l) <->
     d ∈ vV \/ exists k, l !! k = Some d /\ verdicts vM vV l !! k = Some false /\
                         sslope d = None).
Proof.
  induction l as [|b l IH]; intros vM vV d.
  - simpl. split; (split; [auto|intros [?|(k & Hk & _)]; done]).
  - cbn [visible_items verdicts].
    destruct (IH (fst (sweep_accept vM vV b)) (snd (sweep_accept vM vV b)) d) as [IH1 IH2].
    rewrite IH1, IH2. clear IH1 IH2 IH.
    assert (Hstep : forall (P : ScreenCollision -> Prop) (vs : list bool),
      (exists k, (b :: l) !! k = Some d /\ (sweep_intersects vM vV b :: vs) !! k = Some false /\ P d)
      <-> (b = d /\ sweep_intersects vM vV b = false /\ P d) \/
          exists k, l !! k = Some d /\ vs !! k = Some false /\ P d).
    { intros P vs. split.
      - intros ([|k] & Hk & Hf & HP); simpl in Hk, Hf.
        + left. split; [congruence|]. split; [congruence|done].
        + right. eauto.
      - intros [[-> [Hf HP]]|(k & Hk & Hf & HP)].
        + exists 0%nat. simpl. rewrite Hf. auto.
        + exists (S k). auto. }
    generalize (verdicts (fst (sweep_accept vM vV b)) (snd (sweep_accept vM vV b)) l).
    intros vs.
    pose proof (Hstep (fun d => is_Some (sslope d)) vs) as H1.
    pose proof (Hstep (fun d => sslope d = None) vs) as H2. cbv beta in H1, H2.
    rewrite H1, H2. clear Hstep H1 H2. unfold sweep_accept.
    destruct (sweep_intersects vM vV b) eqn:Hv; cbn [fst snd].
    + split; (split; [intros [?|?]; auto|intros [?|[(_ & ? & _)|?]]; [auto|done|auto]]).
    + destruct (sslope b) as [sl|] eqn:Hb; cbn [fst snd];
        rewrite elem_of_app, list_elem_of_singleton; split; split.
      * intros [[?| ->]|?]; [auto| |auto]. right. left. rewrite Hb. eauto.
      * intros [?|[[<- _]|?]]; auto.
      * intros [?|?]; auto.
      * intros [?|[[<- [_ ?]]|?]]; [auto|congruence|auto].
      * intros [?|?]; auto.
      * intros [?|[[<- [_ [? ?]]]|?]]; [auto|congruence|auto].
      * intros [[?| ->]|?]; [auto| |auto]. right. left. auto.
      * intros [?|[[<- _]|?]]; auto.
Qed.

(** The verdict on the candidate at index [i] is taken against the visible
    items the candidates before it have left. *)
Lemma verdicts_lookup l i c :
  l !! i = Some c ->
  verdicts [] [] l !! i =
    Some (sweep_intersects (fst (visible_items [] [] (take i l)))
            (snd (visible_items [] [] (take i l))) c) /\
  forall k, (k < i)%nat -> verdicts [] [] (take i l) !! k = verdicts [] [] l !! k.
Proof.
  intros Hi.
  assert (Hlen : List.length (verdicts [] [] (take i l)) = i).
  { rewrite verdicts_length. apply length_take_le. apply lookup_lt_Some in Hi. lia. }
  assert (Hl : verdicts [] [] l = verdicts [] [] (take i l ++ c :: drop (S i) l))
    by (by rewrite take_drop_middle).
  rewrite Hl, verdicts_app. clear Hl.
  split.
  - rewrite lookup_app_r by lia. by rewrite Hlen, Nat.sub_diag.
  - intros k Hk. by rewrite lookup_app_l by lia.
Qed.

(** C8. In the sweep of [updateTiles] over any list of candidates, a
    candidate is rejected exactly when it overlaps a candidate accepted
    before it and one of the two is viewport aligned (has no slope): an
    accepted viewport aligned candidate hides every later candidate that
    overlaps it, an accepted candidate with a slope hides the later viewport
    aligned ones only.  The two lists of the sweep hold the accepted
    candidates of each class.  So when every candidate has a slope none is
    rejected, and two overlapping candidates with slopes are both visible
    after the pass. *)
Theorem class_asymmetry :
  (forall l i c, l !! i = Some c ->
     (verdicts [] [] l !! i = Some true <->
      exists k d, (k < i)%nat /\ l !! k = Some d /\ verdicts [] [] l !! k = Some false /\
        overlap c d /\ (sslope d = None \/ sslope c = None))) /\
  (forall l buffers st, sweep (mkSweep [] [] buffers false) l = Normal st ->
     forall d,
       (d ∈ visibleItemsViewportAligned st <->
          exists k, l !! k = Some d /\ verdicts [] [] l !! k = Some false /\ sslope d = None) /\
       (d ∈ visibleItemsMapAligned st <->
          exists k, l !! k = Some d /\ verdicts [] [] l !! k = Some false /\
                    is_Some (sslope d))) /\
  (forall l, Forall (fun c => is_Some (sslope c)) l -> Forall (eq false) (verdicts [] [] l)) /\
  (let cache := scene_cache [chain 1 100 0; chain 2 130 1] in
   exists c1 c2 buffers' u,
     collect scene_display cache (vtiles scene_display) (s scene_display) [] = Normal [c1; c2] /\
     is_Some (sslope c1) /\ is_Some (sslope c2) /\ overlap c1 c2 /\ overlap c2 c1 /\
     sattrs c1 ≠ [] /\ sattrs c2 ≠ [] /\
     updateTiles scene_display cache (vtiles scene_display) (s scene_display)
       ({[ 0%nat := mkBuffer [0; 0; 0; 0; 0; 0]%Z 2 false ]} : Heap) = Normal (buffers', u) /\
     shown buffers' c1 /\ shown buffers' c2).
Proof.
  split; [|split; [|split]].
  - intros l i c Hi. destruct (verdicts_lookup l i c Hi) as [-> Hpre].
    assert (Hlen : List.length (take i l) = i).
    { apply length_take_le. apply lookup_lt_Some in Hi. lia. }
    split.
    + intros [= Hv]. apply sweep_intersects_iff in Hv as (d & Hov & Hd).
      destruct Hd as [Hd|[Hc Hd]].
      * apply (visible_items_accepted (take i l) [] [] d) in Hd
          as [Hd|(k & Hk & Hf & Hs)]; [by apply elem_of_nil in Hd|].
        assert (k < i)%nat by (apply lookup_lt_Some in Hk; lia).
        exists k, d. rewrite <- Hpre by done. rewrite lookup_take_lt in Hk by done. auto 7.
      * apply (visible_items_accepted (take i l) [] [] d) in Hd
          as [Hd|(k & Hk & Hf & Hs)]; [by apply elem_of_nil in Hd|].
        assert (k < i)%nat by (apply lookup_lt_Some in Hk; lia).
        exists k, d. rewrite <- Hpre by done. rewrite lookup_take_lt in Hk by done. auto 7.
    + intros (k & d & Hk & Hd & Hf & Hov & Hcls). f_equal.
      apply sweep_intersects_iff. exists d. split; [done|].
      rewrite <- Hpre in Hf by done.
      assert (Hd' : take i l !! k = Some d) by (by rewrite lookup_take_lt).
      destruct (sslope d) as [sl|] eqn:Hsd.
      * destruct Hcls as [?|Hc]; [done|]. right. split; [done|].
        apply (visible_items_accepted (take i l) [] [] d). right. exists k.
        rewrite Hsd. eauto.
      * left. apply (visible_items_accepted (take i l) [] [] d). right. exists k. auto.
  - intros l buffers st. rewrite sweep_jobs. cbn [visibleItemsMapAligned
      visibleItemsViewportAligned heap sweep_updated].
    destruct (run_jobs _ _) as [acc| |]; simpl; [|done|done].
    intros [= <-] d. cbn [visibleItemsMapAligned visibleItemsViewportAligned].
    destruct (visible_items_accepted l [] [] d) as [HM HV]. split.
    + rewrite HV. split; [intros [Hd|?]; [by apply elem_of_nil in Hd|done]|auto].
    + rewrite HM. split; [intros [Hd|?]; [by apply elem_of_nil in Hd|done]|auto].
  - intros l Hl. by apply all_slopes_accepted.
  - intros cache. eexists _, _, _, _. split; [reflexivity|].
    split; [by eexists|]. split; [by eexists|].
    assert (Hov : forall (a b : ScreenCollision) x y,
              boxes_of a !! 0%nat = Some x -> boxes_of b !! 0%nat = Some y ->
              bbox_intersects x y = true -> overlap a b).
    { intros a b x y Hx Hy Hxy. exists x, y.
      split; [by eapply list_elem_of_lookup_2|]. split; [by eapply list_elem_of_lookup_2|].
      by apply bbox_intersects_overlap. }
    split; [eapply Hov; [reflexivity|reflexivity|vm_compute; reflexivity]|].
    split; [eapply Hov; [reflexivity|reflexivity|vm_compute; reflexivity]|].
    split; [discriminate|]. split; [discriminate|].
    split; [vm_compute; reflexivity|].
    split; intros a ->%list_elem_of_singleton; reflexivity.
Qed.

End Phase2.

(** ** [loadGeometry]: unknown commands are fatal *)

Module Decode.
Import JS MVT DecodeProps.
Local Open Scope Z_scope.

Section WithReader.
Context {P : Type} `{PbfReader P}.

Lemma dispatch_unknown (d : Decoder P) :
  ~ known (cmd d) -> dispatch d = Throw ("unknown command " +:+ pretty (cmd d)).
Proof.
  intros Hk. unfold dispatch, known in *.
  destruct (Z.eqb_spec (cmd d) 1); [tauto|].
  destruct (Z.eqb_spec (cmd d) 2); [tauto|].
  destruct (Z.eqb_spec (cmd d) 7); [tauto|]. reflexivity.
Qed.

Lemma dispatch_known (d : Decoder P) msg :
  dispatch d = Throw msg -> known (cmd d) ->
  (cmd d = 2 /\ line d = None) \/ (cmd d = 7 /\ line d = Some []).
Proof.
  unfold dispatch, known.
  destruct (Z.eqb_spec (cmd d) 1) as [->|?]; simpl.
  { destruct (readSVarint (pbf d)) as [a p]. by destruct (readSVarint p). }
  destruct (Z.eqb_spec (cmd d) 2) as [->|?]; simpl.
  { destruct (readSVarint (pbf d)) as [a p]. destruct (readSVarint p).
    destruct (line d); [done|auto]. }
  destruct (Z.eqb_spec (cmd d) 7) as [->|?]; [|lia].
  destruct (line d) as [[|p0 l]|]; [auto|done|done].
Qed.

Lemma dispatch_diverge (d : Decoder P) : dispatch d ≠ Diverge.
Proof.
  unfold dispatch. destruct (_ || _).
  - destruct (readSVarint (pbf d)) as [a p]. destruct (readSVarint p).
    destruct (cmd d =? 1); [done|]. by destruct (line d).
  - destruct (cmd d =? 7); [|done]. by destruct (line d) as [[|??]|].
Qed.

(** An unknown command ends the decoding with its error, wherever in the
    input it is met. *)
Lemma executed_unknown_throws fuel : forall end_ (d : Decoder P) c,
  c ∈ executed fuel end_ d -> ~ known c ->
  decode_loop fuel end_ d = Some (Throw ("unknown command " +:+ pretty c)).
Proof.
  induction fuel as [|fuel IH]; intros end_ d c Hc Hk; simpl in Hc.
  - by apply elem_of_nil in Hc.
  - simpl. destruct (pos (pbf d) <? end_); [|by apply elem_of_nil in Hc].
    apply elem_of_cons in Hc as [->|Hc].
    + by rewrite dispatch_unknown.
    + destruct (dispatch (fetch d)); [eauto|by apply elem_of_nil in Hc..].
Qed.

Lemma fetch_line (d : Decoder P) : line (fetch d) = line d.
Proof.
  unfold fetch. destruct (length d <=? 0); [|done]. by destruct (readVarint (pbf d)).
Qed.

Lemma dispatch_line (d d' : Decoder P) :
  dispatch d = Normal d' -> line d ≠ Some [] ->
  line d' ≠ Some [] /\ (cmd d = 1 -> is_Some (line d')) /\ (is_Some (line d) -> is_Some (line d')).
Proof.
  unfold dispatch.
  destruct (Z.eqb_spec (cmd d) 1) as [->|?]; simpl.
  { destruct (readSVarint (pbf d)) as [a p]. destruct (readSVarint p).
    intros [= <-] _. simpl. eauto. }
  destruct (Z.eqb_spec (cmd d) 2) as [->|?]; simpl.
  { destruct (readSVarint (pbf d)) as [a p]. destruct (readSVarint p).
    destruct (line d) as [l|]; [|done]. intros [= <-] _. simpl.
    split; [by destruct l|]. split; [lia|eauto]. }
  destruct (Z.eqb_spec (cmd d) 7) as [->|?]; [|done].
  destruct (line d) as [[|p0 l]|] eqn:Hl; [done| |].
  - intros [= <-] _. simpl. split; [done|]. split; [lia|eauto].
  - intros [= <-] _. rewrite Hl. split; [done|]. split; [lia|]. by intros [??].
Qed.

(** Known commands in order never throw. *)
Lemma known_commands_decode fuel : forall end_ (d : Decoder P) r,
  decode_loop fuel end_ d = Some r ->
  line d ≠ Some [] ->
  known_in_order (bool_decide (is_Some (line d))) (executed fuel end_ d) = true ->
  exists lines, r = Normal lines.
Proof.
  induction fuel as [|fuel IH]; intros end_ d r Hrun Hline Hcmds; simpl in Hrun.
  - destruct (pos (pbf d) <? end_); [done|]. injection Hrun as <-. eauto.
  - simpl in Hcmds. destruct (pos (pbf d) <? end_); [|injection Hrun as <-; eauto].
    pose proof (fetch_line d) as Hfl.
    destruct (dispatch (fetch d)) as [d'|msg|] eqn:Hd.
    + apply dispatch_line in Hd as Hd'; [|by rewrite Hfl]. destruct Hd' as (Hne & H1 & Hkeep).
      apply (IH _ _ _ Hrun Hne). rewrite Hfl in Hkeep. revert Hcmds. cbn [known_in_order].
      destruct (Z.eqb_spec (cmd (fetch d)) 1) as [Hc|?].
      { by rewrite (bool_decide_eq_true_2 (is_Some (line d'))) by auto. }
      destruct (Z.eqb_spec (cmd (fetch d)) 2) as [Hc|?].
      { intros [Hb Hcmds]%andb_true_iff. apply bool_decide_eq_true in Hb as Hs.
        rewrite Hb in Hcmds. by rewrite (bool_decide_eq_true_2 (is_Some (line d'))) by auto. }
      destruct (Z.eqb_spec (cmd (fetch d)) 7) as [Hc|?]; [|done].
      destruct (line d) as [l|] eqn:Hl.
      * rewrite (bool_decide_eq_true_2 (is_Some (Some l))) by eauto.
        by rewrite (bool_decide_eq_true_2 (is_Some (line d'))) by eauto.
      * assert (line d' = None) as ->; [|done].
        unfold dispatch in Hd. rewrite Hc in Hd. simpl in Hd. rewrite Hfl in Hd.
        by injection Hd as <-.
    + exfalso. revert Hcmds. cbn [known_in_order].
      destruct (Z.eqb_spec (cmd (fetch d)) 1) as [Hc|?];
        [|destruct (Z.eqb_spec (cmd (fetch d)) 2) as [Hc|?];
          [|destruct (Z.eqb_spec (cmd (fetch d)) 7) as [Hc|?]; [|done]]];
        (destruct (dispatch_known _ _ Hd) as [[Hc' Hl]|[Hc' Hl]];
          [unfold known; lia| |]); rewrite Hfl in Hl; try lia; try done.
      rewrite Hl. by rewrite bool_decide_eq_false_2 by (by intros [??]).
    + by apply dispatch_diverge in Hd.
Qed.

Section Progress.
(** Every read moves the reader on. *)
Hypothesis readVarint_advances : forall p : P, pos p < pos (snd (readVarint p)).
Hypothesis readSVarint_advances : forall p : P, pos p < pos (snd (readSVarint p)).

Lemma to_int32_shiftr (c : Z) : Z.shiftr (to_int32 c) 3 < 2 ^ 28.
Proof.
  unfold to_int32. rewrite Z.shiftr_div_pow2 by lia.
  pose proof (Z.mod_pos_bound (c + 2 ^ 31) (2 ^ 32)).
  apply Z.div_lt_upper_bound; lia.
Qed.

Lemma fetch_turns (d : Decoder P) :
  (length d <= 0 -> pos (pbf d) < pos (pbf (fetch d)) /\ length (fetch d) < 2 ^ 28 - 1) /\
  (0 < length d -> pos (pbf (fetch d)) = pos (pbf d) /\ length (fetch d) = length d - 1).
Proof.
  unfold fetch. destruct (Z.leb_spec (length d) 0).
  - split; [|lia]. intros _. pose proof (readVarint_advances (pbf d)) as Hadv.
    destruct (readVarint (pbf d)) as [c p]. simpl in *.
    pose proof (to_int32_shiftr c). lia.
  - split; [lia|]. by intros _.
Qed.

Lemma dispatch_turns (d d' : Decoder P) :
  dispatch d = Normal d' -> pos (pbf d) <= pos (pbf d') /\ length d' = length d.
Proof.
  unfold dispatch. destruct (_ || _).
  - pose proof (readSVarint_advances (pbf d)) as H1.
    destruct (readSVarint (pbf d)) as [a p]. pose proof (readSVarint_advances p) as H2.
    destruct (readSVarint p) as [b p']. simpl in *.
    destruct (cmd d =? 1); [intros [= <-]; simpl; lia|].
    destruct (line d); [|done]. intros [= <-]. simpl. lia.
  - destruct (cmd d =? 7); [|done].
    destruct (line d) as [[|??]|]; [done|intros [= <-]; simpl; lia|intros [= <-]; lia].
Qed.

Lemma turns_left_decreases end_ (d d' : Decoder P) :
  pos (pbf d) < end_ -> dispatch (fetch d) = Normal d' ->
  0 <= turns_left end_ d' < turns_left end_ d.
Proof.
  intros Hpos Hd. apply dispatch_turns in Hd as [Hp Hl].
  destruct (fetch_turns d) as [Hread Hkeep]. unfold turns_left. rewrite Hl.
  destruct (Z.le_gt_cases (length d) 0) as [Hle|Hgt].
  - destruct (Hread Hle) as [Hadv Hlen]. nia.
  - destruct (Hkeep Hgt) as [Heq Hlen]. rewrite Hlen. nia.
Qed.

(** The loop ends: with more fuel than [turns_left] it returns. *)
Lemma decode_loop_total fuel : forall end_ (d : Decoder P),
  turns_left end_ d < Z.of_nat fuel ->
  exists r, decode_loop fuel end_ d = Some r.
Proof.
  induction fuel as [|fuel IH]; intros end_ d Hfuel.
  - unfold turns_left in Hfuel. lia.
  - simpl. destruct (Z.ltb_spec (pos (pbf d)) end_) as [Hpos|]; [|eauto].
    destruct (dispatch (fetch d)) as [d'|msg|] eqn:Hd; [|eauto..].
    apply IH. pose proof (turns_left_decreases _ _ _ Hpos Hd). lia.
Qed.

End Progress.
End WithReader.

(** C10 (amended). With a reader whose reads move it on, [loadGeometry]
    returns once the fuel exceeds [turns_left]; a command id other than 1, 2
    and 7 among the commands it executes makes it throw
    ["unknown command <id>"]; and when the commands it executes are only
    1, 2 and 7, with no lineTo before the first moveTo, it returns the lines
    without an error. *)
Theorem unknown_command_is_fatal {P : Type} `{PbfReader P} (p : P) (geometry : Z) fuel :
  (forall q : P, pos q < pos (snd (readVarint q))) ->
  (forall q : P, pos q < pos (snd (readSVarint q))) ->
  turns_left (fst (init p geometry)) (snd (init p geometry)) < Z.of_nat fuel ->
  exists r,
    loadGeometry fuel p geometry = Some r /\
    (forall c, c ∈ executed fuel (fst (init p geometry)) (snd (init p geometry)) ->
       ~ known c -> r = Throw ("unknown command " +:+ pretty c)) /\
    (known_in_order false (executed fuel (fst (init p geometry)) (snd (init p geometry))) = true ->
       exists lines, r = Normal lines).
Proof.
  intros Hv Hs Hfuel. unfold loadGeometry.
  assert (Hline : line (snd (init p geometry)) = None).
  { unfold init. by destruct (readVarint (set_pos geometry p)). }
  destruct (init p geometry) as [end_ d]. simpl in *.
  destruct (decode_loop_total Hv Hs fuel end_ d Hfuel) as [r Hr].
  exists r. split; [done|]. split.
  - intros c Hc Hk. pose proof (executed_unknown_throws fuel end_ d c Hc Hk) as Hu.
    rewrite Hr in Hu. by injection Hu.
  - intros Hk. apply (known_commands_decode fuel end_ d r Hr); [by rewrite Hline|].
    by rewrite Hline.
Qed.

(** moveTo (5, 5), lineTo (+1, +1) (+2, +2), closePolygon. *)
Lemma unknown_command_is_fatal_witness :
  let p := mkTokenReader [9; 9; 5; 5; 18; 1; 1; 2; 2; 15] 0 in
  exists r,
    loadGeometry (Z.to_nat (2 ^ 32)) p 0 = Some r /\
    (exists lines, r = Normal lines) /\
    r = Normal [[(5, 5); (6, 6); (8, 8); (5, 5)]].
Proof.
  intros p.
  destruct (unknown_command_is_fatal p 0 (Z.to_nat (2 ^ 32))) as (r & Hr & _ & Hok).
  - intros q. simpl. lia.
  - intros q. simpl. lia.
  - rewrite Z2Nat.id by lia. lazy. reflexivity.
  - exists r. split; [exact Hr|]. split; [apply Hok; lazy; reflexivity|].
    assert (Hrun : loadGeometry (Z.to_nat (2 ^ 32)) p 0
                   = Some (Normal [[(5, 5); (6, 6); (8, 8); (5, 5)]])) by (lazy; reflexivity).
    rewrite Hrun in Hr. by injection Hr.
Defined.

(** Command 3 after a moveTo: the decoding ends with the error. *)
Example unknown_command_3 :
  loadGeometry (Z.to_nat (2 ^ 32)) (mkTokenReader [4; 9; 5; 5; 11] 0) 0
    = Some (Throw "unknown command 3").
Proof. lazy. reflexivity. Qed.

(** A lineTo that no moveTo precedes: only command 2 is executed, and the
    decoding ends with a type error ([line] is undefined). *)
Lemma lineTo_first_counterexample :
  let p := mkTokenReader [3; 10; 5; 5] 0 in
  executed (Z.to_nat (2 ^ 32)) (fst (init p 0)) (snd (init p 0)) = [2] /\
  Forall known [2] /\
  loadGeometry (Z.to_nat (2 ^ 32)) p 0 = Some (Throw "TypeError: line is undefined") /\
  ~ exists lines, loadGeometry (Z.to_nat (2 ^ 32)) p 0 = Some (Normal lines).
Proof.
  intros p. split; [lazy; reflexivity|]. split; [repeat constructor; unfold known; lia|].
  assert (Hrun : loadGeometry (Z.to_nat (2 ^ 32)) p 0
                 = Some (Throw "TypeError: line is undefined")) by (lazy; reflexivity).
  split; [exact Hrun|]. intros [lines Hl]. rewrite Hrun in Hl. discriminate.
Qed.

End Decode.

(** ** [addExtrude]: which edges get a wall *)

Module Walls.
Import JS Extrude ExtrudeProps.
Local Open Scope Q_scope.

Section WithGeometry.
Variable isInBox : Q -> Q -> Q -> Q -> Q -> Q -> bool.
Variable math_sqrt : Q -> Q.

Lemma get_app (V extra : list Q) (i : Z) :
  (0 <= i < Z.of_nat (List.length V))%Z -> get (V ++ extra) i = get V i.
Proof.
  intros Hi. unfold get. destruct (Z.ltb_spec i 0); [lia|].
  rewrite lookup_app_l by lia. done.
Qed.

Lemma push_wall_vertex extrude extrudeBase e b :
  vertex (push_wall math_sqrt extrude extrudeBase e b)
    = vertex b ++ wall_vertices extrude extrudeBase e.
Proof. reflexivity. Qed.

(** Without holes the loop visits one edge per turn and never changes
    direction. *)
Lemma addExterior_loop_no_holes (fp : FlatPolygon) (V : list Q) tileSize extrude extrudeBase
    (n : nat) clockwise :
  holes fp = [] -> (0 <= fstart fp)%Z ->
  (fstart fp + 3 * Z.of_nat (S n) <= Z.of_nat (List.length V))%Z ->
  forall (r k : nat) fuel b extra holeIndex,
    (k + r = n)%nat -> (r <= fuel)%nat -> vertex b = V ++ extra ->
    exists b',
      addExterior_loop isInBox math_sqrt fuel fp tileSize extrude extrudeBase
        (fstart fp + 3 * Z.of_nat n) (fstart fp + 3 * Z.of_nat k) holeIndex None clockwise b
        = Some b' /\
      vertex b' = vertex b ++
        flat_map (wall_vertices extrude extrudeBase)
          (filter (fun e => wall_visible isInBox tileSize e = true)
             (map (fun j : nat =>
                     edge_at V fp (fstart fp + 3 * Z.of_nat n) (fstart fp + 3 * Z.of_nat j)
                       clockwise)
                  (seq k r))).
Proof.
  intros Hholes Hstart Hlen. induction r as [|r IH]; intros k fuel b extra hi Hk Hfuel Hb.
  - exists b. replace k with n by lia. destruct fuel; simpl; rewrite Z.ltb_irrefl;
      by rewrite app_nil_r.
  - destruct fuel as [|fuel]; [lia|]. simpl addExterior_loop.
    destruct (Z.ltb_spec (fstart fp + 3 * Z.of_nat k) (fstart fp + 3 * Z.of_nat n)); [|lia].
    assert (Hedge : edge_at (vertex b) fp (fstart fp + 3 * Z.of_nat n)
                      (fstart fp + 3 * Z.of_nat k) clockwise
                  = edge_at V fp (fstart fp + 3 * Z.of_nat n)
                      (fstart fp + 3 * Z.of_nat k) clockwise).
    { rewrite Hb. unfold edge_at. destruct clockwise; rewrite !get_app by lia; done. }
    rewrite Hedge. set (e := edge_at V fp _ _ _).
    replace (fstart fp + 3 * Z.of_nat k + 3)%Z with (fstart fp + 3 * Z.of_nat (S k))%Z by lia.
    simpl seq. simpl map. fold e. rewrite filter_cons.
    destruct (wall_visible isInBox tileSize e) eqn:Hvis.
    + rewrite decide_True by done.
      edestruct (IH (S k) fuel (push_wall math_sqrt extrude extrudeBase e b)) as (b' & Hrun & Hv);
        [lia|lia|by rewrite push_wall_vertex, Hb, <- app_assoc|].
      exists b'. split; [exact Hrun|]. rewrite Hv, push_wall_vertex. simpl.
      by rewrite <- !app_assoc.
    + rewrite decide_False by (by intros ?).
      edestruct (IH (S k) fuel b) as (b' & Hrun & Hv); [lia|lia|exact Hb|].
      exists b'. split; [exact Hrun|exact Hv].
Qed.

Lemma rev_map_seq {A} (f : nat -> A) n :
  rev (map f (seq 0 n)) = map (fun j => f (n - 1 - j)%nat) (seq 0 n).
Proof.
  induction n as [|n IH]; [done|].
  rewrite seq_S at 1. rewrite map_app, rev_app_distr. simpl rev. simpl app.
  rewrite IH. change (seq 0 (S n)) with (0%nat :: seq 1 n). rewrite <- seq_shift.
  cbn [map]. rewrite map_map. f_equal; [f_equal; lia|].
  apply map_ext. intros j. f_equal. lia.
Qed.

Lemma wall_visible_reverse tileSize e :
  wall_visible isInBox tileSize (reverse e) = wall_visible isInBox tileSize e.
Proof.
  unfold wall_visible, reverse. simpl. rewrite (orb_comm (isInBox (x2 e) _ _ _ _ _)).
  f_equal. f_equal; f_equal;
    [destruct (Z.eqb_spec (math_round (x2 e) - math_round (x1 e)) 0),
              (Z.eqb_spec (math_round (x1 e) - math_round (x2 e)) 0)
    |destruct (Z.eqb_spec (math_round (y2 e) - math_round (y1 e)) 0),
              (Z.eqb_spec (math_round (y1 e) - math_round (y2 e)) 0)]; try done; lia.
Qed.

(** For a polygon without holes, [addExterior] appends the walls of exactly
    those edges of the ring that pass [wall_visible], walking the ring
    backwards, each edge turned round, when the ring is clockwise. *)
Theorem addExterior_no_holes (fp : FlatPolygon) (b : Buffers) tileSize extrude extrudeBase
    (n : nat) :
  holes fp = [] -> (0 <= fstart fp)%Z ->
  fstop fp = (fstart fp + 3 * Z.of_nat (S n))%Z ->
  (fstop fp <= Z.of_nat (List.length (vertex b)))%Z ->
  let clockwise := Qle_bool 0 (signedArea (vertex b) (fstart fp) (fstop fp - 3)) in
  let edges := ring_edges (vertex b) fp in
  exists b',
    addExterior isInBox math_sqrt (addExterior_fuel fp) fp b tileSize extrude extrudeBase
      = Some b' /\
    vertex b' = vertex b ++
      flat_map (wall_vertices extrude (default 0 extrudeBase))
        (filter (fun e => wall_visible isInBox tileSize e = true)
           (if clockwise then map reverse (rev edges) else edges)).
Proof.
  intros Hholes Hstart Hstop Hlen clockwise edges.
  unfold addExterior. rewrite Hholes.
  change (next_hole (fstart fp) [] 0) with (@None Z). simpl ring_stop. fold clockwise.
  replace (fstop fp - 3)%Z with (fstart fp + 3 * Z.of_nat n)%Z by lia.
  edestruct (addExterior_loop_no_holes fp (vertex b) tileSize extrude (default 0 extrudeBase)
               n clockwise Hholes Hstart ltac:(lia) n 0%nat (addExterior_fuel fp) b [] 0%nat)
    as (b' & Hrun & Hv); [lia|unfold addExterior_fuel; lia|by rewrite app_nil_r|].
  replace (fstart fp + 3 * Z.of_nat 0)%Z with (fstart fp) in Hrun by lia.
  exists b'. split; [exact Hrun|]. rewrite Hv. do 3 f_equal.
  assert (Hedges : edges = map (fun k : nat => edge_from (vertex b) (fstart fp + 3 * Z.of_nat k))
                             (seq 0 n)).
  { unfold edges, ring_edges, rings. rewrite Hholes. simpl. rewrite app_nil_r.
    replace (Z.to_nat ((fstop fp - fstart fp) / 3 - 1)) with n; [done|].
    rewrite Hstop. replace (fstart fp + 3 * Z.of_nat (S n) - fstart fp)%Z
      with (Z.of_nat (S n) * 3)%Z by lia.
    rewrite Z.div_mul by lia. lia. }
  destruct clockwise.
  - rewrite Hedges, rev_map_seq, map_map. apply map_ext_in. intros j Hj%in_seq.
    unfold edge_at, reverse, edge_from. simpl.
    f_equal; f_equal; lia.
  - by rewrite Hedges.
Qed.

End WithGeometry.

Section WithAddPolygon.
Variable isInBox : Q -> Q -> Q -> Q -> Q -> Q -> bool.
Variable math_sqrt : Q -> Q.
Variable Coordinates : Type.
Variable TileT : Type.
Variable addPolygon : list Q -> Coordinates -> TileT -> Q -> Q -> list Q * list FlatPolygon.

(** At a height of at most 0.01, [addExtrude] leaves the index arrays as they
    are and adds no vertex to those of the top surface. *)
Lemma addExtrude_flat b coordinates tile tileSize extrude extrudeBase :
  extrude <= MIN_VISIBLE_HEIGHT ->
  exists flats b',
    addExtrude isInBox math_sqrt Coordinates TileT addPolygon b coordinates tile tileSize
      extrude extrudeBase = Some (flats, b') /\
    (vertex b', flats) = addPolygon (vertex b) coordinates tile tileSize extrude /\
    vIndex b' = vIndex b /\ strokeIndex b' = strokeIndex b.
Proof.
  intros Hlow. unfold addExtrude.
  destruct (addPolygon _ _ _ _ _) as [vertex' flats].
  assert (Qlt_bool MIN_VISIBLE_HEIGHT extrude = false) as ->.
  { unfold Qlt_bool. apply negb_false_iff. by apply Qle_bool_iff. }
  by eexists _, _.
Qed.

End WithAddPolygon.


(** C9 (failing input). The walls [addExterior] builds for the courtyard
    polygon, whose exterior ring is clockwise: the fourth joins the first
    vertex of the hole to the last vertex of the exterior ring, which is no
    edge of a ring, and the edge of the exterior ring from (100, 10) to
    (10, 10), which lies in the tile and is 90 long, has no wall. *)
Theorem courtyard_walls (math_sqrt : Q -> Q) :
  let walls :=
    [mkEdge 40 40 50 60; mkEdge 50 60 60 40; mkEdge 60 40 40 40; mkEdge 40 40 10 10;
     mkEdge 100 10 100 100; mkEdge 100 100 10 100; mkEdge 10 100 10 10] in
  let cross := mkEdge 40 40 10 10 in
  let missed := mkEdge 100 10 10 10 in
  vertex <$> addExterior isInBox_spec math_sqrt (addExterior_fuel courtyard) courtyard
               courtyard_buffers 256 10 None
    = Some (courtyard_vertices ++ flat_map (wall_vertices 10 0) walls) /\
  cross ∈ walls /\
  Forall (fun e => e ≠ cross /\ e ≠ reverse cross) (ring_edges courtyard_vertices courtyard) /\
  missed ∈ ring_edges courtyard_vertices courtyard /\
  wall_visible isInBox_spec 256 missed = true /\
  Forall (fun w => w ≠ missed /\ w ≠ reverse missed) walls.
Proof.
  split; [vm_compute; reflexivity|].
  split; [do 3 apply list_elem_of_further; apply list_elem_of_here|].
  split; [repeat constructor; discriminate|].
  split; [do 3 apply list_elem_of_further; apply list_elem_of_here|].
  split; [vm_compute; reflexivity|].
  repeat constructor; discriminate.
Qed.

(** The same courtyard with both rings turned round is handled by the other
    branch of the loop, which walks the array forwards: every wall is an edge
    of a ring and every edge of a ring has its wall. *)
Example courtyard_reversed_walls (math_sqrt : Q -> Q) :
  let verts :=
    [10; 10; 10;  100; 10; 10;  100; 100; 10;  10; 100; 10;  10; 10; 10;
     40; 40; 10;  50; 60; 10;  60; 40; 10;  40; 40; 10] in
  vertex <$> addExterior isInBox_spec math_sqrt (addExterior_fuel courtyard) courtyard
               (mkBuffers verts [] [] None) 256 10 None
    = Some (verts ++ flat_map (wall_vertices 10 0) (ring_edges verts courtyard)).
Proof. vm_compute. reflexivity. Qed.

End Walls.

(** * The tile cache: batches, commits, clearing and removal *)

Module Cache.
Import JS Collision Props Phase1.
Local Open Scope Q_scope.

Lemma has_dash_dataKey quadkey layer : has_dash (getDataKey quadkey layer) = true.
Proof.
  unfold getDataKey. induction (id layer) as [|c s IH]; simpl; [done|].
  rewrite IH. apply orb_true_r.
Qed.

Lemma dataKey_not_neighbours quadkey layer : getDataKey quadkey layer ≠ "neighbours"%string.
Proof.
  intros Heq. pose proof (has_dash_dataKey quadkey layer) as Hd. rewrite Heq in Hd. done.
Qed.

Lemma slot_insert_eq (cache : gmap string (gmap string (list CollisionData))) tk m dk :
  slot (<[tk := m]> cache) tk dk = m !! dk.
Proof. unfold slot. by rewrite lookup_insert_eq. Qed.

Lemma slot_insert_ne (cache : gmap string (gmap string (list CollisionData))) tk tk' m dk :
  tk ≠ tk' -> slot (<[tk := m]> cache) tk' dk = slot cache tk' dk.
Proof. intros. unfold slot. by rewrite lookup_insert_ne. Qed.

Lemma clearTile_slots quadkey layer h :
  dataKey <$> curLayerTileCollision h ≠ Some (getDataKey quadkey layer) ->
  let h' := clearTile quadkey layer h in
  slot (tiles h') (getTileCacheKey quadkey layer) (getDataKey quadkey layer) = None /\
  (forall tk dk, (tk, dk) ≠ (getTileCacheKey quadkey layer, getDataKey quadkey layer) ->
     slot (tiles h') tk dk = slot (tiles h) tk dk).
Proof.
  intros Hcur. unfold clearTile. rewrite bool_decide_eq_false_2 by done.
  set (tk := getTileCacheKey quadkey layer). set (dk := getDataKey quadkey layer).
  destruct (tiles h !! tk) as [m|] eqn:Hm.
  - case_bool_decide as Hemp; simpl.
    + split; [unfold slot; by rewrite lookup_delete_eq|].
      intros tk' dk' Hne. unfold slot.
      destruct (decide (tk' = tk)) as [->|Htk].
      * rewrite lookup_delete_eq, Hm. simpl.
        assert (dk' ≠ dk) by congruence.
        rewrite <- (lookup_delete_ne m dk dk') by done. by rewrite Hemp.
      * by rewrite lookup_delete_ne.
    + split; [unfold slot; rewrite lookup_insert_eq; simpl; apply lookup_delete_eq|].
      intros tk' dk' Hne. unfold slot.
      destruct (decide (tk' = tk)) as [->|Htk].
      * rewrite lookup_insert_eq, Hm. simpl.
        assert (dk' ≠ dk) by congruence. by rewrite lookup_delete_ne.
      * by rewrite lookup_insert_ne.
  - simpl. split; [unfold slot; by rewrite Hm|]. done.
Qed.

(** [clearTile] on the tile of the open batch does nothing.  Otherwise it
    deletes the candidates stored for this layer and tile, leaves every other
    slot of the cache as it was, drops the cache tile when nothing is left in
    it (so a cache without empty tiles stays one), and touches neither the
    open batch, the update flag nor the timer. *)
Theorem clearTile_slot quadkey layer h :
  (dataKey <$> curLayerTileCollision h = Some (getDataKey quadkey layer) ->
     clearTile quadkey layer h = h) /\
  (dataKey <$> curLayerTileCollision h ≠ Some (getDataKey quadkey layer) ->
     let h' := clearTile quadkey layer h in
     slot (tiles h') (getTileCacheKey quadkey layer) (getDataKey quadkey layer) = None /\
     (forall tk dk, (tk, dk) ≠ (getTileCacheKey quadkey layer, getDataKey quadkey layer) ->
        slot (tiles h') tk dk = slot (tiles h) tk dk) /\
     (no_empty_tile (tiles h) -> no_empty_tile (tiles h')) /\
     curLayerTileCollision h' = curLayerTileCollision h /\
     updated h' = updated h /\ timer h' = timer h).
Proof.
  split.
  - intros Hcur. unfold clearTile. by rewrite bool_decide_eq_true_2.
  - intros Hcur h'. destruct (clearTile_slots quadkey layer h Hcur) as [Hown Hother].
    split; [exact Hown|]. split; [exact Hother|].
    unfold h', clearTile. rewrite bool_decide_eq_false_2 by done.
    set (tk := getTileCacheKey quadkey layer).
    destruct (tiles h !! tk) as [m|] eqn:Hm; [|done].
    case_bool_decide as Hemp; simpl; (split; [|done]); intros Hne key.
    + destruct (decide (key = tk)) as [->|?];
        [by rewrite lookup_delete_eq|rewrite lookup_delete_ne by done; apply Hne].
    + destruct (decide (key = tk)) as [->|?];
        [rewrite lookup_insert_eq; congruence|rewrite lookup_insert_ne by done; apply Hne].
Qed.

(** The cache after a commit of [data] under [(tk, dk)]. *)
Lemma commit_slots (cache : gmap string (gmap string (list CollisionData))) tk dk data :
  let cache' := <[tk := <[dk := data]> (default ∅ (cache !! tk))]> cache in
  slot cache' tk dk = Some data /\
  (forall tk' dk', (tk', dk') ≠ (tk, dk) -> slot cache' tk' dk' = slot cache tk' dk').
Proof.
  intros cache'. unfold cache'. split; [rewrite slot_insert_eq; apply lookup_insert_eq|].
  intros tk' dk' Hne. destruct (decide (tk' = tk)) as [->|Htk].
  - rewrite slot_insert_eq. assert (dk' ≠ dk) by congruence.
    rewrite lookup_insert_ne by done. unfold slot.
    destruct (cache !! tk); [done|]. simpl. apply lookup_empty.
  - by rewrite slot_insert_ne.
Qed.

Lemma completeTile_state display flag h cur buffers u h1 b1 :
  curLayerTileCollision h = Some cur ->
  completeTile display flag h buffers = Normal (u, h1, b1) ->
  u = updated h /\
  h1 = mkHandler (<[tileKey cur := <[dataKey cur := data cur]>
                                     (default ∅ (tiles h !! tileKey cur))]> (tiles h))
         None (updated h) (timer h) /\
  (flag = false -> b1 = buffers).
Proof.
  intros Hcur. unfold completeTile. rewrite Hcur.
  destruct (updated h && flag) eqn:Hf.
  - destruct (updateTileSync _ _ _ _) as [[b' ?]| |]; simpl; [|done|done].
    intros [= <- <- <-]. repeat split. intros ->. by rewrite andb_false_r in Hf.
  - intros [= <- <- <-]. repeat split.
Qed.

(** [completeTile] stores the data of the open batch under its tile key
    and data key, leaves every other slot as it was, closes the batch and
    returns the update flag; without the screen-space update it leaves the
    attribute buffers alone. *)
Theorem completeTile_commit display flag h cur buffers u h1 b1 :
  curLayerTileCollision h = Some cur ->
  completeTile display flag h buffers = Normal (u, h1, b1) ->
  u = updated h /\
  curLayerTileCollision h1 = None /\
  slot (tiles h1) (tileKey cur) (dataKey cur) = Some (data cur) /\
  (forall tk dk, (tk, dk) ≠ (tileKey cur, dataKey cur) ->
     slot (tiles h1) tk dk = slot (tiles h) tk dk) /\
  (no_empty_tile (tiles h) -> no_empty_tile (tiles h1)) /\
  (flag = false -> b1 = buffers).
Proof.
  intros Hcur Hdone.
  destruct (completeTile_state _ _ _ _ _ _ _ _ Hcur Hdone) as (Hu & -> & Hb).
  destruct (commit_slots (tiles h) (tileKey cur) (dataKey cur) (data cur)) as [Hown Hother].
  split; [exact Hu|]. split; [done|]. split; [exact Hown|]. split; [exact Hother|].
  split; [|exact Hb]. simpl. intros Hne key.
  destruct (decide (key = tileKey cur)) as [->|?].
  - rewrite lookup_insert_eq. intros [= Hm].
    assert (Hl : <[dataKey cur := data cur]> (default ∅ (tiles h !! tileKey cur))
                   !! dataKey cur = Some (data cur)) by apply lookup_insert_eq.
    by rewrite Hm, lookup_empty in Hl.
  - rewrite lookup_insert_ne by done. apply Hne.
Qed.

Lemma completeTile_commit_witness :
  let display := mkDisplay (fun x y => (x, y)) 1 [] (fun _ _ => None) in
  let cur := mkLayerTileCollision "12" [] "1-120" ∅ in
  let h := mkHandler ∅ (Some cur) true None in
  exists h1,
    completeTile display true h ∅ = Normal (true, h1, ∅) /\
    slot (tiles h1) "12" "1-120" = Some [].
Proof.
  intros display cur h. eexists. split; [reflexivity|].
  eapply (completeTile_commit display true h cur ∅); reflexivity.
Defined.

Section WithTileUtils.
Variable tq : Z -> Z -> Z -> string.

(** After [initTile] and a sequence of [insert] calls, [completeTile]
    returns [true] exactly when some candidate was accepted, and the cache
    slot of the layer and tile holds the accepted candidates, in the order of
    the calls. *)
Theorem completeTile_flag display tile layer h0 calls results hA buffers :
  insert_all calls (initTile tq tile layer h0) = Normal (results, hA) ->
  exists h1,
    completeTile display false hA buffers
      = Normal (bool_decide (accepted results ≠ []), h1, buffers) /\
    slot (tiles h1) (getTileCacheKey (quadkey tile) layer) (getDataKey (quadkey tile) layer)
      = Some (accepted results).
Proof.
  intros Hrun.
  destruct (initTile_batch tq tile layer h0) as (cur & Hcur & Hdata).
  assert (Hok : batch_ok cur).
  { split; rewrite Hdata; [intros i j c d _ Hi; by rewrite lookup_nil in Hi|].
    intros ???? _ Hc. by apply elem_of_nil in Hc. }
  destruct (insert_all_batch calls _ cur Hcur Hok)
    as (res & cur' & Hrun' & Hd & _ & Hk & Hdk & _).
  rewrite Hrun in Hrun'. injection Hrun' as <- ->.
  rewrite Hdata in Hd. simpl in Hd.
  assert (tileKey cur = getTileCacheKey (quadkey tile) layer /\
          dataKey cur = getDataKey (quadkey tile) layer) as [Htk Hdkk].
  { unfold initTile in Hcur. simpl in Hcur. by injection Hcur as <-. }
  unfold completeTile. simpl. rewrite andb_false_r. eexists. split; [reflexivity|].
  simpl. rewrite Hk, Hdk, Htk, Hdkk, slot_insert_eq, lookup_insert_eq. by rewrite Hd.
Qed.

End WithTileUtils.

Lemma completeTile_flag_witness :
  let display := mkDisplay (fun x y => (x, y)) 1 [] (fun _ _ => None) in
  let tile := mkTile "120" 5 2 3 in
  let layer := mkLayer "1" 256 in
  let calls := [mkInsertCall 10 10 0 0 0 5 5 tile 256 None None;
                mkInsertCall 12 12 0 0 0 5 5 tile 256 None None] in
  exists results hA h1,
    insert_all calls (initTile (fun _ _ _ => ""%string) tile layer (mkHandler ∅ None false None))
      = Normal (results, hA) /\
    completeTile display false hA ∅ = Normal (true, h1, ∅).
Proof.
  intros display tile layer calls.
  destruct (insert_all calls (initTile (fun _ _ _ => ""%string) tile layer
              (mkHandler ∅ None false None))) as [[results hA]| |] eqn:Hrun;
    [|vm_compute in Hrun; discriminate..].
  destruct (completeTile_flag (fun _ _ _ => ""%string) display tile layer _ calls results hA ∅ Hrun)
    as (h1 & Hc & _).
  exists results, hA, h1. split; [reflexivity|].
  assert (Hres : bool_decide (accepted results ≠ []) = true).
  { vm_compute in Hrun. injection Hrun as <- _. reflexivity. }
  by rewrite Hres in Hc.
Defined.

(** Committing a batch and then clearing its tile gives back the cache as
    it was before, when the slot was free and the cache has no empty tile. *)
Theorem completeTile_clearTile display quadkey layer h cur buffers u h1 b1 :
  curLayerTileCollision h = Some cur ->
  tileKey cur = getTileCacheKey quadkey layer ->
  dataKey cur = getDataKey quadkey layer ->
  slot (tiles h) (tileKey cur) (dataKey cur) = None ->
  no_empty_tile (tiles h) ->
  completeTile display false h buffers = Normal (u, h1, b1) ->
  tiles (clearTile quadkey layer h1) = tiles h.
Proof.
  intros Hcur Htk Hdk Hslot Hne. unfold completeTile. rewrite Hcur, andb_false_r.
  intros [= <- <- <-]. unfold clearTile. simpl.
  rewrite <- Htk, <- Hdk, lookup_insert_eq, delete_insert_eq.
  unfold slot in Hslot. destruct (tiles h !! tileKey cur) as [m|] eqn:Hm; simpl in *.
  - rewrite delete_id by done. rewrite bool_decide_eq_false_2.
    + simpl. rewrite insert_insert_eq. by apply insert_id.
    + intros ->. by apply (Hne (tileKey cur)).
  - rewrite delete_empty. rewrite bool_decide_eq_true_2 by done. simpl.
    rewrite delete_insert_eq. by apply delete_id.
Qed.

Lemma completeTile_clearTile_witness :
  let display := mkDisplay (fun x y => (x, y)) 1 [] (fun _ _ => None) in
  let layer := mkLayer "1" 512 in
  let other := label 1 0 0 in
  let cache : gmap string (gmap string (list CollisionData)) :=
    {[ "12"%string := {[ "2-12"%string := [other] ]} ]} in
  let cur := mkLayerTileCollision "12" [label 2 50 1] "1-12" ∅ in
  exists h1,
    completeTile display false (mkHandler cache (Some cur) true None) ∅ = Normal (true, h1, ∅) /\
    tiles (clearTile "12" layer h1) = cache.
Proof.
  intros display layer other cache cur. eexists. split; [reflexivity|].
  eapply (completeTile_clearTile display "12" layer (mkHandler cache (Some cur) true None) cur ∅);
    try reflexivity.
  intros key. simpl. destruct (decide (key = "12"%string)) as [->|Hk].
  - unfold cache. rewrite lookup_singleton_eq. intros [=].
  - unfold cache. by rewrite lookup_singleton_ne.
Defined.

Section WithTileUtils2.
Variable tq : Z -> Z -> Z -> string.

(** With no batch open, [initTile] opens an empty one and resets the
    update flag.  The obstacles of the batch hold nothing under the data key
    of the tile itself ([clearTile] has removed it) and, under every other
    data key, what the cache tile stores. *)
Theorem initTile_obstacles tile layer h :
  curLayerTileCollision h = None ->
  exists cur,
    curLayerTileCollision (initTile tq tile layer h) = Some cur /\
    data cur = [] /\ updated (initTile tq tile layer h) = false /\
    existing cur !! getDataKey (quadkey tile) layer = None /\
    (forall dk, dk ≠ getDataKey (quadkey tile) layer -> dk ≠ "neighbours"%string ->
       existing cur !! dk = slot (tiles h) (getTileCacheKey (quadkey tile) layer) dk).
Proof.
  intros Hcur.
  destruct (clearTile_slots (quadkey tile) layer h) as [Hown Hother]; [by rewrite Hcur|].
  eexists. split; [reflexivity|]. split; [reflexivity|]. split; [reflexivity|]. simpl.
  set (h' := clearTile _ _ _) in *. set (tk := getTileCacheKey _ _) in *.
  set (own := getDataKey _ _) in *.
  assert (Hex : forall (nb : list CollisionData) dk, dk ≠ "neighbours"%string ->
            (default ∅ (tiles h' !! tk) ∪ {[ "neighbours"%string := nb ]}) !! dk
            = slot (tiles h') tk dk).
  { intros nb dk Hne. rewrite lookup_union, lookup_singleton_ne by done.
    unfold slot. destruct (tiles h' !! tk) as [m|]; simpl.
    - by destruct (m !! dk).
    - by rewrite lookup_empty. }
  split.
  - rewrite Hex by apply dataKey_not_neighbours. exact Hown.
  - intros dk Hne Hnb. rewrite Hex by done. apply Hother. congruence.
Qed.

Lemma neighbour_key_in z y x tx ty :
  tx ∈ [-1; 0; 1]%Z -> ty ∈ [-1; 0; 1]%Z -> (tx, ty) ≠ (0, 0)%Z ->
  tq z (y + ty)%Z (x + tx)%Z ∈ neighbour_keys tq z y x.
Proof.
  intros Hx Hy Hne. unfold neighbour_keys.
  apply list_elem_of_In, in_flat_map. exists ty. split; [by apply list_elem_of_In|].
  apply in_flat_map. exists tx. split; [by apply list_elem_of_In|].
  destruct (Z.eqb_spec tx 0) as [->|?]; destruct (Z.eqb_spec ty 0) as [->|?];
    simpl; auto.
Qed.

Lemma initTile_existing_eq tile layer h cur :
  curLayerTileCollision (initTile tq tile layer h) = Some cur ->
  let h1 := clearTile (quadkey tile) layer h in
  let aligned := (tileSize layer =? 256)%Z in
  existing cur =
    default ∅ (tiles h1 !! getTileCacheKey (quadkey tile) layer) ∪
    {[ "neighbours"%string :=
         flat_map (fun qk =>
           match tiles h1 !! qk with
           | Some collisionData => concat (map snd (map_to_list collisionData))
           | None => []
           end)
           (neighbour_keys tq (if aligned then z tile - 1 else z tile)%Z
              (if aligned then half_trunc (y tile) else y tile)
              (if aligned then half_trunc (x tile) else x tile)) ]}.
Proof. by intros [= <-]. Qed.

(** A candidate stored, for any layer, in one of the eight cache tiles
    around the tile of a batch is an obstacle of the batch: no candidate the
    batch accepts overlaps it. *)
Theorem neighbour_rejection tile layer h tx ty m dk obstacles d calls results h' :
  curLayerTileCollision h = None ->
  tx ∈ [-1; 0; 1]%Z -> ty ∈ [-1; 0; 1]%Z -> (tx, ty) ≠ (0, 0)%Z ->
  let aligned := (tileSize layer =? 256)%Z in
  let nk := tq (if aligned then z tile - 1 else z tile)%Z
               ((if aligned then half_trunc (y tile) else y tile) + ty)%Z
               ((if aligned then half_trunc (x tile) else x tile) + tx)%Z in
  tiles h !! nk = Some m -> m !! dk = Some obstacles -> d ∈ obstacles ->
  (nk, dk) ≠ (getTileCacheKey (quadkey tile) layer, getDataKey (quadkey tile) layer) ->
  slot (tiles h) (getTileCacheKey (quadkey tile) layer) "neighbours" = None ->
  insert_all calls (initTile tq tile layer h) = Normal (results, h') ->
  forall c, c ∈ accepted results -> ~ overlap c d.
Proof.
  intros Hcur Hx Hy Hne aligned nk Hm Hdk Hd Hnot Hnb Hrun.
  destruct (clearTile_slots (quadkey tile) layer h) as [_ Hother]; [by rewrite Hcur|].
  destruct (initTile_batch tq tile layer h) as (cur & Hc & Hdata).
  pose proof (initTile_existing_eq tile layer h cur Hc) as Hexs. cbv zeta in Hexs.
  fold aligned in Hexs. set (h1 := clearTile _ _ _) in *.
  set (tk := getTileCacheKey _ _) in *.
  assert (Hex : exists nb, existing cur !! "neighbours"%string = Some nb /\ d ∈ nb).
  { rewrite Hexs. eexists. split.
    - rewrite lookup_union_r; [apply lookup_singleton_eq|].
      specialize (Hother tk "neighbours"%string). unfold slot in Hother, Hnb.
      rewrite Hnb in Hother.
      destruct (tiles h1 !! tk) as [m1|]; [|apply lookup_empty].
      apply Hother. intros [= Heq]. by apply (dataKey_not_neighbours (quadkey tile) layer).
    - apply list_elem_of_In, in_flat_map. exists nk. split.
      + apply list_elem_of_In. by apply neighbour_key_in.
      + specialize (Hother nk dk Hnot). unfold slot in Hother. rewrite Hm in Hother.
        cbn [mbind option_bind] in Hother. rewrite Hdk in Hother.
        destruct (tiles h1 !! nk) as [m1|] eqn:Hm1; cbn [mbind option_bind] in Hother; [|done].
        apply in_concat. exists obstacles. split; [|by apply list_elem_of_In].
        apply in_map_iff. exists (dk, obstacles). split; [done|].
        apply list_elem_of_In. by apply elem_of_map_to_list. }
  destruct Hex as (nb & Hnbs & Hdn).
  assert (Hok : batch_ok cur).
  { split; rewrite Hdata; [intros i j c0 d0 _ Hi; by rewrite lookup_nil in Hi|].
    intros ???? _ Hc0. by apply elem_of_nil in Hc0. }
  destruct (insert_all_batch calls _ cur Hc Hok)
    as (res & cur' & Hrun' & Hd' & He & _ & _ & [_ Ho]).
  rewrite Hrun in Hrun'. injection Hrun' as <- _.
  rewrite Hdata in Hd'. simpl in Hd'.
  intros c Hin. eapply Ho; [by rewrite He|by rewrite Hd'|done].
Qed.

End WithTileUtils2.

Lemma initTile_obstacles_witness :
  let cache : gmap string (gmap string (list CollisionData)) :=
    {[ "12"%string := {[ "2-12"%string := [label 1 0 0]; "1-12"%string := [label 2 50 1] ]} ]} in
  exists cur,
    curLayerTileCollision (initTile (fun _ _ _ => ""%string) (mkTile "12" 2 1 2) (mkLayer "1" 512)
                             (mkHandler cache None true None)) = Some cur /\
    existing cur !! "1-12"%string = None /\
    existing cur !! "2-12"%string = Some [label 1 0 0].
Proof.
  intros cache.
  destruct (initTile_obstacles (fun _ _ _ => ""%string) (mkTile "12" 2 1 2) (mkLayer "1" 512)
              (mkHandler cache None true None) eq_refl) as (cur & Hc & _ & _ & Hown & Hother).
  exists cur. split; [exact Hc|]. split; [exact Hown|].
  rewrite (Hother "2-12"%string) by discriminate. reflexivity.
Defined.

Lemma neighbour_rejection_witness :
  let tq := fun z y x : Z => if ((x =? 3) && (y =? 1))%Z then "13"%string else ""%string in
  let east := insert_data 4 500 0 0 0 5 5 (mkTile "13" 3 1 2) 512 None None in
  let cache : gmap string (gmap string (list CollisionData)) :=
    {[ "13"%string := {[ "1-13"%string := [east] ]} ]} in
  let tile := mkTile "12" 2 1 2 in
  exists results h',
    insert_all [mkInsertCall 505 500 0 0 0 5 5 tile 512 None None]
      (initTile tq tile (mkLayer "1" 512) (mkHandler cache None false None))
      = Normal (results, h') /\
    results = [None] /\
    forall c, c ∈ accepted results -> ~ overlap c east.
Proof.
  intros tq east cache tile.
  destruct (insert_all [mkInsertCall 505 500 0 0 0 5 5 tile 512 None None]
              (initTile tq tile (mkLayer "1" 512) (mkHandler cache None false None)))
    as [[results h']| |] eqn:Hrun; [|vm_compute in Hrun; discriminate..].
  exists results, h'. split; [reflexivity|]. split.
  - vm_compute in Hrun. by injection Hrun as <- _.
  - eapply (neighbour_rejection tq tile (mkLayer "1" 512) (mkHandler cache None false None)
              1%Z 0%Z {[ "1-13"%string := [east] ]} "1-13"%string [east] east);
      [reflexivity| | |discriminate|reflexivity|reflexivity|apply list_elem_of_here
      |discriminate|reflexivity|exact Hrun].
    + apply list_elem_of_further, list_elem_of_further, list_elem_of_here.
    + apply list_elem_of_further, list_elem_of_here.
Defined.

Section WithNumber.
Variable Number : string -> option Q.

Lemma first_segment_dataKey quadkey layer :
  has_dash (id layer) = false -> first_segment (getDataKey quadkey layer) = id layer.
Proof.
  unfold getDataKey. induction (id layer) as [|c s IH]; simpl; [done|].
  destruct (Ascii.eqb c "-"); simpl; [done|]. intros Hd. by rewrite IH.
Qed.

Lemma removeTiles_slot layer h tk dk :
  slot (tiles (removeTiles Number layer h)) tk dk =
  if is_layer_key Number layer dk then None else slot (tiles h) tk dk.
Proof.
  unfold slot, removeTiles. simpl. rewrite lookup_fmap.
  destruct (tiles h !! tk) as [m|]; simpl; [|by destruct (is_layer_key _ _ _)].
  destruct (is_layer_key Number layer dk) eqn:Hk.
  - apply map_lookup_filter_None. right. intros v _. simpl. by rewrite Hk.
  - destruct (m !! dk) as [v|] eqn:Hv.
    + apply map_lookup_filter_Some. by split.
    + apply map_lookup_filter_None. by left.
Qed.

(** [removeTiles] looks at the part of a data key before its first dash.
    For a layer whose id has no dash (a number that is not negative) that is
    the id: every slot of the layer is deleted, in every cache tile, and the
    slots of the layers with another number are kept.  The data key of a
    layer with a negative id begins with a dash, so that part is empty and
    is read as [Number("")], 0 in JavaScript: its slots are deleted by
    [removeTiles] of a layer with that number, not by [removeTiles] of the
    layer itself.  Every cache tile stays, even an emptied one. *)
Theorem removeTiles_layer layer h n :
  Number (id layer) = Some n ->
  let h' := removeTiles Number layer h in
  (has_dash (id layer) = false ->
   forall tk quadkey, slot (tiles h') tk (getDataKey quadkey layer) = None) /\
  (forall other n' tk quadkey,
     has_dash (id other) = false -> Number (id other) = Some n' -> ~ n' == n ->
     slot (tiles h') tk (getDataKey quadkey other) = slot (tiles h) tk (getDataKey quadkey other)) /\
  (forall other rest z tk quadkey,
     id other = String "-" rest -> Number "" = Some z ->
     (z == n -> slot (tiles h') tk (getDataKey quadkey other) = None) /\
     (~ z == n ->
      slot (tiles h') tk (getDataKey quadkey other)
      = slot (tiles h) tk (getDataKey quadkey other))) /\
  dom (tiles h') = dom (tiles h) /\
  curLayerTileCollision h' = curLayerTileCollision h.
Proof.
  intros Hn h'. split; [|split; [|split; [|split; [|done]]]].
  - intros Hdash tk quadkey. unfold h'. rewrite removeTiles_slot.
    unfold is_layer_key. rewrite first_segment_dataKey, Hn by done.
    assert (Qeq_bool n n = true) as -> by (by apply Qeq_bool_iff). done.
  - intros other n' tk quadkey Hd' Hn' Hneq. unfold h'. rewrite removeTiles_slot.
    unfold is_layer_key. rewrite first_segment_dataKey, Hn, Hn' by done.
    assert (Qeq_bool n' n = false) as ->; [|done].
    apply not_true_iff_false. intros Heq. by apply Qeq_bool_iff in Heq.
  - intros other rest z tk quadkey Hid Hz. unfold h'. rewrite removeTiles_slot.
    unfold is_layer_key, getDataKey. rewrite Hid. simpl. rewrite Hz, Hn. split.
    + intros Heq. by rewrite (proj2 (Qeq_bool_iff z n) Heq).
    + intros Hneq. assert (Qeq_bool z n = false) as ->; [|done].
      apply not_true_iff_false. intros Heq. by apply Qeq_bool_iff in Heq.
  - unfold h', removeTiles. simpl. apply dom_fmap_L.
Qed.

End WithNumber.

Lemma removeTiles_layer_witness :
  let Number := fun s : string =>
    if String.eqb s "" then Some 0 else if String.eqb s "0" then Some 0
    else if String.eqb s "-1" then Some (- 1) else if String.eqb s "2" then Some 2 else None in
  let cache : gmap string (gmap string (list CollisionData)) :=
    {[ "12"%string := {[ "2-12"%string := [label 1 0 0]; "0-12"%string := [label 2 50 1];
                         "-1-12"%string := [label 4 90 1] ]};
       "13"%string := {[ "0-13"%string := [label 3 0 2] ]} ]} in
  let h := mkHandler cache None false None in
  let h0 := removeTiles Number (mkLayer "0" 512) h in
  let h1 := removeTiles Number (mkLayer "-1" 512) h in
  slot (tiles h0) "12" "0-12" = None /\
  slot (tiles h0) "13" "0-13" = None /\
  slot (tiles h0) "12" "2-12" = Some [label 1 0 0] /\
  slot (tiles h0) "12" "-1-12" = None /\
  tiles h0 !! "13"%string = Some ∅ /\
  slot (tiles h1) "12" "-1-12" = Some [label 4 90 1].
Proof.
  intros Number cache h h0 h1.
  destruct (removeTiles_layer Number (mkLayer "0" 512) h 0 eq_refl)
    as (Hgone & Hkept & Hneg & _).
  destruct (removeTiles_layer Number (mkLayer "-1" 512) h (- 1) eq_refl)
    as (_ & _ & Hown & _).
  split; [exact (Hgone eq_refl "12"%string "12"%string)|].
  split; [exact (Hgone eq_refl "13"%string "13"%string)|].
  split.
  { etransitivity;
      [exact (Hkept (mkLayer "2" 512) 2 "12"%string "12"%string eq_refl eq_refl
                ltac:(discriminate))|reflexivity]. }
  split.
  { exact (proj1 (Hneg (mkLayer "-1" 512) "1"%string 0 "12"%string "12"%string eq_refl eq_refl)
             ltac:(reflexivity)). }
  split; [reflexivity|].
  etransitivity;
    [exact (proj2 (Hown (mkLayer "-1" 512) "1"%string 0 "12"%string "12"%string eq_refl eq_refl)
              ltac:(discriminate))|reflexivity].
Defined.

End Cache.

(** * Phase 2: what a pass writes, and what it can read *)

Module Screen.
Import JS Collision Props Phase1 Phase2 Cache.
Local Open Scope Q_scope.

Lemma shiftr_lxor_1 (v : Z) : Z.shiftr (Z.lxor v 1) 1 = Z.shiftr v 1.
Proof. rewrite Z.shiftr_lxor. change (Z.shiftr 1 1) with 0%Z. apply Z.lxor_0_r. Qed.

Lemma toggle_range_low fuel : forall data start stop size data',
  toggle_range fuel data start stop size = Some data' ->
  List.length data' = List.length data /\
  forall i v, data !! i = Some v ->
    exists v', data' !! i = Some v' /\ Z.shiftr v' 1 = Z.shiftr v 1.
Proof.
  induction fuel as [|fuel IH]; intros data start stop size data'; simpl.
  - destruct (start <? stop)%nat; [done|]. intros [= <-]. eauto.
  - destruct (start <? stop)%nat; [|intros [= <-]; eauto].
    intros Hrun. apply IH in Hrun as [Hlen Hlow]. split; [by rewrite Hlen, length_alter|].
    intros i v Hi. destruct (decide (i = start)) as [->|Hne].
    + destruct (Hlow start (Z.lxor v 1)) as (v' & ? & Hv').
      { by rewrite list_lookup_alter_eq, Hi. }
      exists v'. split; [done|]. by rewrite Hv', shiftr_lxor_1.
    + apply Hlow. by rewrite list_lookup_alter_ne.
Qed.

Lemma low_bits_only_refl buf : low_bits_only buf buf.
Proof. repeat split; eauto. Qed.

Lemma low_bits_only_trans b1 b2 b3 :
  low_bits_only b1 b2 -> low_bits_only b2 b3 -> low_bits_only b1 b3.
Proof.
  intros (Hs1 & Hl1 & Hv1 & Hd1) (Hs2 & Hl2 & Hv2 & Hd2).
  split; [congruence|]. split; [congruence|]. split; [|auto].
  intros i v Hi. destruct (Hv1 i v Hi) as (v' & Hi' & He).
  destruct (Hv2 i v' Hi') as (v'' & ? & He'). exists v''. split; [done|congruence].
Qed.

Lemma writes_refl acc : writes acc acc.
Proof.
  split; [done|]. intros k. destruct (fst acc !! k); [|done].
  split; [apply low_bits_only_refl|done].
Qed.

Lemma writes_trans a1 a2 a3 : writes a1 a2 -> writes a2 a3 -> writes a1 a3.
Proof.
  intros [Hu1 Hk1] [Hu2 Hk2]. split; [auto|]. intros k.
  specialize (Hk1 k). specialize (Hk2 k).
  destruct (fst a1 !! k) as [b1|], (fst a2 !! k) as [b2|], (fst a3 !! k) as [b3|]; try done.
  destruct Hk1 as [Hl1 Hc1], Hk2 as [Hl2 Hc2].
  split; [by eapply low_bits_only_trans|]. intros Hne.
  destruct (decide (b3 = b2)) as [->|Hne32]; [|by apply Hc2].
  destruct (Hc1 Hne) as [? ?]. auto.
Qed.

Lemma update_attr_writes v acc a acc' :
  update_attr v acc a = Normal acc' -> writes acc acc'.
Proof.
  destruct acc as [buffers u]. unfold update_attr.
  destruct (buffers !! buffer a) as [buf|] eqn:Hbuf; [|done].
  destruct (Bool.eqb v _); [|intros [= <-]; apply writes_refl].
  destruct (toggle_range _ _ _ _ _) as [data'|] eqn:Hrun; [|done].
  intros [= <-]. apply toggle_range_low in Hrun as [Hlen Hlow].
  split; [done|]. intros k. simpl. destruct (decide (k = buffer a)) as [->|Hne].
  - rewrite Hbuf, lookup_insert_eq. split; [|done]. repeat split; auto.
  - rewrite lookup_insert_ne by done. destruct (buffers !! k); [|done].
    split; [apply low_bits_only_refl|done].
Qed.

Lemma run_jobs_writes js : forall acc acc',
  run_jobs acc js = Normal acc' -> writes acc acc'.
Proof.
  induction js as [|[v a] js IH]; intros acc acc'; simpl.
  - intros [= <-]. apply writes_refl.
  - destruct (update_attr v acc a) as [acc1| |] eqn:H1; simpl; [|done..].
    intros H2. eapply writes_trans; [by eapply update_attr_writes|by apply IH].
Qed.

(** Whatever the cache and the buffers are, a pass that returns has kept the
    set of buffers, the stride and the length of each, and every bit but the
    lowest of every element; a buffer it has changed is marked dirty and the
    pass returns [true]; so a pass that returns [false] has left the buffers
    exactly as they were. *)
Theorem updateTiles_frame display cache tiles scale (buffers buffers' : Heap) u :
  updateTiles display cache tiles scale buffers = Normal (buffers', u) ->
  (forall k,
     match buffers !! k, buffers' !! k with
     | Some buf, Some buf' =>
         low_bits_only buf buf' /\ (buf' ≠ buf -> dirty buf' = true /\ u = true)
     | None, None => True
     | _, _ => False
     end) /\
  (u = false -> buffers' = buffers).
Proof.
  unfold updateTiles. destruct (collect _ _ _ _ _) as [l| |]; simpl; [|done..].
  rewrite sweep_jobs. simpl.
  destruct (run_jobs _ _) as [[b1 u1]| |] eqn:Hrun; simpl; [|done..].
  intros [= <- <-]. apply run_jobs_writes in Hrun as [_ Hk]. simpl in Hk.
  split; [exact Hk|]. intros ->. apply map_eq. intros k. specialize (Hk k).
  destruct (buffers !! k) as [buf|], (b1 !! k) as [buf'|]; try done.
  destruct Hk as [_ Hc]. destruct (decide (buf' = buf)) as [->|Hne]; [done|].
  by destruct (Hc Hne).
Qed.

Lemma updateTiles_frame_witness :
  let cache := scene_cache [label 0 0 0; label 1 5 1; label 2 60 2] in
  exists buffers' buf',
    updateTiles scene_display cache (vtiles scene_display) (s scene_display) scene_buffers
      = Normal (buffers', true) /\
    buffers' !! 0%nat = Some buf' /\
    low_bits_only (mkBuffer [1; 1; 1; 1; 1; 1]%Z 2 false) buf' /\ dirty buf' = true.
Proof.
  intros cache.
  destruct (updateTiles scene_display cache (vtiles scene_display) (s scene_display)
              scene_buffers) as [[buffers' u]| |] eqn:Hrun; [|vm_compute in Hrun; discriminate..].
  pose proof (updateTiles_frame _ _ _ _ _ _ _ Hrun) as [Hk _]. specialize (Hk 0%nat).
  assert (Hu : u = true) by (vm_compute in Hrun; by injection Hrun as _ <-). subst u.
  assert (Hb : exists buf', buffers' !! 0%nat = Some buf' /\
                 buf' ≠ mkBuffer [1; 1; 1; 1; 1; 1]%Z 2 false).
  { vm_compute in Hrun. injection Hrun as <-. eexists. split; [reflexivity|discriminate]. }
  destruct Hb as (buf' & Hb & Hne). rewrite Hb in Hk.
  change (scene_buffers !! 0%nat) with (Some (mkBuffer [1; 1; 1; 1; 1; 1]%Z 2 false)) in Hk.
  destruct Hk as [Hlow Hc]. exists buffers', buf'.
  split; [reflexivity|]. split; [exact Hb|]. split; [exact Hlow|]. by destruct (Hc Hne).
Defined.

(** Among the candidates of the sorted list, a shown one before a shown one:
    if they overlap, both have a slope. *)
Lemma shown_pair display cache tiles scale (buffers buffers' : Heap) u l i j c1 c2 :
  collect display cache tiles scale [] = Normal l ->
  (forall i bbox v a, sort_by_priority l !! i = Some bbox ->
     verdicts [] [] (sort_by_priority l) !! i = Some v ->
     a ∈ sattrs bbox -> bit buffers' a = Some (negb v)) ->
  updateTiles display cache tiles scale buffers = Normal (buffers', u) ->
  (i < j)%nat ->
  sort_by_priority l !! i = Some c1 -> sort_by_priority l !! j = Some c2 ->
  sattrs c1 ≠ [] -> sattrs c2 ≠ [] -> overlap c1 c2 ->
  shown buffers' c1 -> shown buffers' c2 ->
  is_Some (sslope c1) /\ is_Some (sslope c2).
Proof.
  intros Hcol Hbits Hrun Hij Hi Hj Ha1 Ha2 Hov Hs1 Hs2.
  destruct (sslope c1) as [s1|] eqn:E1, (sslope c2) as [s2|] eqn:E2; [by split; eexists|..];
    exfalso.
  all: destruct (sorted_split _ _ _ _ _ Hij Hi Hj) as (l1 & l2 & l3 & Hs & Hl1 & Hl2).
  all: destruct (lookup_lt_is_Some_2 (verdicts [] [] (sort_by_priority l)) i) as [v Hv];
    [rewrite verdicts_length; by eapply lookup_lt_Some|].
  all: destruct (sattrs c1) as [|a1 r1] eqn:Hc1; [done|].
  all: destruct (sattrs c2) as [|a2 r2] eqn:Hc2; [done|].
  all: pose proof (Hbits i c1 v a1 Hi Hv) as Hb1; rewrite Hc1 in Hb1;
    specialize (Hb1 (list_elem_of_here _ _));
    rewrite (Hs1 a1) in Hb1 by (rewrite Hc1; apply list_elem_of_here).
  all: assert (v = false) as -> by (by destruct v).
  all: assert (Hv2 : verdicts [] [] (sort_by_priority l) !! j = Some true)
    by (rewrite Hs in Hv |- *; rewrite <- Hl1 in Hv; rewrite <- Hl2, <- Hl1;
        apply verdicts_later; [done|rewrite E1, E2; intros [[? ?] [? ?]]; done|done]).
  all: pose proof (Hbits j c2 true a2 Hj Hv2) as Hb2; rewrite Hc2 in Hb2;
    specialize (Hb2 (list_elem_of_here _ _));
    rewrite (Hs2 a2) in Hb2 by (rewrite Hc2; apply list_elem_of_here); done.
Qed.

(** After a pass on well formed buffers no two visible candidates overlap,
    except two candidates that both have a slope: of two collected
    candidates (at different places of the list, each with a range to show
    its visibility in) whose screen boxes overlap and which are both shown
    after the pass, each has a slope. *)
Theorem screen_exclusive display cache tiles scale (buffers : Heap) l i j c1 c2 :
  collect display cache tiles scale [] = Normal l ->
  ranges_ok buffers l ->
  l !! i = Some c1 -> l !! j = Some c2 -> i ≠ j ->
  sattrs c1 ≠ [] -> sattrs c2 ≠ [] -> overlap c1 c2 ->
  exists buffers' u,
    updateTiles display cache tiles scale buffers = Normal (buffers', u) /\
    (shown buffers' c1 -> shown buffers' c2 ->
     is_Some (sslope c1) /\ is_Some (sslope c2)).
Proof.
  intros Hcol Hok Hi Hj Hij Ha1 Ha2 Hov.
  destruct (updateTiles_bits _ _ _ _ _ _ Hcol Hok) as (b' & u & Hrun & Hbits & _).
  exists b', u. split; [done|]. intros Hs1 Hs2.
  pose proof (sort_by_priority_perm l) as Hperm. symmetry in Hperm.
  apply Permutation_inj in Hperm as (_ & f & Hinj & Hf).
  rewrite Hf in Hi, Hj.
  assert (Hne : f i ≠ f j) by (intros Heq; by apply Hinj in Heq).
  destruct (Nat.lt_total (f i) (f j)) as [Hlt|[?|Hlt]]; [|done|].
  - by eapply (shown_pair display cache tiles scale buffers b' u l (f i) (f j) c1 c2).
  - apply overlap_sym in Hov.
    by destruct (shown_pair display cache tiles scale buffers b' u l (f j) (f i) c2 c1).
Qed.

Lemma screen_exclusive_witness :
  let cache := scene_cache [label 0 0 0; label 1 5 1; label 2 60 2] in
  exists c1 c2 c3 buffers' u,
    collect scene_display cache (vtiles scene_display) (s scene_display) []
      = Normal [c1; c2; c3] /\
    updateTiles scene_display cache (vtiles scene_display) (s scene_display) scene_buffers
      = Normal (buffers', u) /\
    (shown buffers' c1 -> shown buffers' c2 -> is_Some (sslope c1) /\ is_Some (sslope c2)).
Proof.
  intros cache. eexists _, _, _.
  edestruct (screen_exclusive scene_display cache (vtiles scene_display) (s scene_display)
               scene_buffers) with (i := 0%nat) (j := 1%nat) as (b' & u & Hrun & Hex).
  - reflexivity.
  - scene_ranges.
  - reflexivity.
  - reflexivity.
  - discriminate.
  - discriminate.
  - discriminate.
  - eexists _, _. split; [apply list_elem_of_here|]. split; [apply list_elem_of_here|].
    apply bbox_intersects_overlap. vm_compute. reflexivity.
  - exists b', u. split; [reflexivity|]. split; [exact Hrun|exact Hex].
Defined.

Lemma project_cData_ok display tileX tileY tileScale displayScale d :
  chain_has_slope d ->
  exists c, project_cData display tileX tileY tileScale displayScale d = Normal c /\
    projected c d.
Proof.
  intros Hd. unfold project_cData. destruct (Nat.ltb_spec 1 (List.length (boxes d))) as [Hlt|Hge].
  - destruct (Hd Hlt) as [sl Hsl]. rewrite Hsl.
    destruct (project display _ _) as [prjX prjY]. eexists. split; [reflexivity|]. unfold projected. simpl.
    split; [done|]. split; [done|]. split; [|by split; eauto].
    unfold updateBBoxes. rewrite length_map, length_seq. lia.
  - destruct (project display _ _) as [prjX prjY]. eexists. split; [reflexivity|]. unfold projected. simpl.
    split; [done|]. split; [done|]. split; [lia|done].
Qed.

Lemma project_cData_throws display tileX tileY tileScale displayScale d :
  ~ chain_has_slope d ->
  project_cData display tileX tileY tileScale displayScale d
    = Throw "TypeError: slope is undefined".
Proof.
  intros Hd. unfold project_cData. destruct (Nat.ltb_spec 1 (List.length (boxes d))) as [Hlt|Hge].
  - destruct (slope d) eqn:Hsl; [|done]. exfalso. apply Hd. intros _. rewrite Hsl. by eexists.
  - exfalso. apply Hd. intros ?. lia.
Qed.

Lemma project_all_ok display tileX tileY tileScale displayScale ds : forall acc,
  Forall chain_has_slope ds ->
  exists l, project_all display tileX tileY tileScale displayScale ds acc = Normal (acc ++ l) /\
    Forall2 projected l ds.
Proof.
  induction ds as [|d ds IH]; intros acc Hds.
  - exists []. by rewrite app_nil_r.
  - apply Forall_cons in Hds as [Hd Hds].
    destruct (project_cData_ok display tileX tileY tileScale displayScale d Hd) as (c & Hc & Hp).
    destruct (IH (acc ++ [c]) Hds) as (l & Hl & Hl2).
    exists (c :: l). simpl. rewrite Hc. simpl. rewrite Hl, <- app_assoc. split; [done|].
    by constructor.
Qed.

Lemma project_all_throws display tileX tileY tileScale displayScale ds : forall acc,
  ~ Forall chain_has_slope ds ->
  project_all display tileX tileY tileScale displayScale ds acc
    = Throw "TypeError: slope is undefined".
Proof.
  induction ds as [|d0 ds IH]; intros acc Hnot; [by destruct Hnot|].
  simpl. destruct (decide (chain_has_slope d0)) as [Hd0|Hd0].
  - destruct (project_cData_ok display tileX tileY tileScale displayScale d0 Hd0) as (c & -> & _).
    simpl. apply IH. intros Hds. apply Hnot. by constructor.
  - by rewrite project_cData_throws.
Qed.

Lemma stored_in_slot (cache : gmap string (gmap string (list CollisionData))) tk m d :
  cache !! tk = Some m -> d ∈ concat (map snd (map_to_list m)) ->
  exists dk ds, slot cache tk dk = Some ds /\ d ∈ ds.
Proof.
  intros Hm Hd. apply list_elem_of_In, in_concat in Hd as (ds & Hds & Hd).
  apply in_map_iff in Hds as ([dk ds'] & <- & Hin). simpl in Hd.
  apply list_elem_of_In in Hin, Hd. apply elem_of_map_to_list in Hin. exists dk, ds'. split; [|done].
  unfold slot. by rewrite Hm.
Qed.

(** On a cache in which every candidate with more than one box has a slope,
    the first loop of a pass returns.  It yields one screen candidate for each
    cached candidate of the viewport tiles: tile after tile in the order of
    the viewport tiles, within a tile segment after segment (in some order of
    the segments of the tile: which one is left open), and within a segment
    in the order the candidates are stored; each with the same buffer ranges,
    the same priority, as many boxes (one for a candidate without boxes), and
    a slope exactly when the cached one has one. *)
Theorem collect_total display cache tiles scale :
  cache_has_slopes cache ->
  exists l (segments : list (list (string * list CollisionData))),
    collect display cache tiles scale [] = Normal l /\
    Forall2 (fun screentile visited =>
               visited ≡ₚ match cache !! vquadkey screentile with
                          | Some tileCollisionData => map_to_list tileCollisionData
                          | None => []
                          end) tiles segments /\
    Forall2 projected l (concat (map snd (concat segments))).
Proof.
  intros Hcache.
  assert (Hgen : forall acc, exists l (segments : list (list (string * list CollisionData))),
            collect display cache tiles scale acc = Normal (acc ++ l) /\
            Forall2 (fun screentile visited =>
                       visited ≡ₚ match cache !! vquadkey screentile with
                                  | Some tileCollisionData => map_to_list tileCollisionData
                                  | None => []
                                  end) tiles segments /\
            Forall2 projected l (concat (map snd (concat segments)))).
  { induction tiles as [|t tiles IH]; intros acc.
    - exists [], []. rewrite app_nil_r. repeat split; constructor.
    - simpl. destruct (cache !! vquadkey t) as [m|] eqn:Hm.
      + unfold updateTileCollisionData.
        destruct (project_all_ok display (vx t) (vy t) (vscale t) scale
                    (concat (map snd (map_to_list m))) acc) as (l1 & -> & Hl1).
        { apply Forall_forall. intros d Hd.
          destruct (stored_in_slot cache _ m d Hm Hd) as (dk & ds & Hs & Hin).
          by eapply Hcache. }
        simpl. destruct (IH (acc ++ l1)) as (l2 & segs & -> & Hsegs & Hl2).
        exists (l1 ++ l2), (map_to_list m :: segs). rewrite <- app_assoc.
        split; [done|]. split; [constructor; [by rewrite Hm|done]|].
        simpl. rewrite map_app, concat_app. by apply Forall2_app.
      + destruct (IH acc) as (l2 & segs & -> & Hsegs & Hl2).
        exists l2, ([] :: segs). split; [done|]. split; [|done].
        constructor; [by rewrite Hm|done]. }
  destruct (Hgen []) as (l & segments & Hl & Hsegs & Hp). eauto.
Qed.

(** A cached candidate of a viewport tile with more than one box and no
    slope makes the first loop of a pass, and so the pass, throw. *)
Theorem collect_chain_without_slope display cache tiles scale buffers d :
  d ∈ viewed cache tiles -> (1 < List.length (boxes d))%nat -> slope d = None ->
  collect display cache tiles scale [] = Throw "TypeError: slope is undefined" /\
  updateTiles display cache tiles scale buffers = Throw "TypeError: slope is undefined".
Proof.
  intros Hin Hlen Hsl.
  assert (Hd : ~ chain_has_slope d).
  { intros Hc. destruct (Hc Hlen) as [? ?]. congruence. }
  assert (Hgen : forall acc,
            collect display cache tiles scale acc = Throw "TypeError: slope is undefined").
  { clear Hlen Hsl. induction tiles as [|t tiles IH]; intros acc;
      [by apply elem_of_nil in Hin|].
    simpl in Hin |- *. apply elem_of_app in Hin.
    destruct (cache !! vquadkey t) as [m|] eqn:Hm.
    - unfold updateTileCollisionData.
      destruct (decide (Forall chain_has_slope (concat (map snd (map_to_list m)))))
        as [Hall|Hnot].
      + destruct (project_all_ok display (vx t) (vy t) (vscale t) scale _ acc Hall)
          as (l1 & -> & _). simpl.
        destruct Hin as [Hin|Hin]; [|by apply IH].
        rewrite Forall_forall in Hall. exfalso. by apply Hd, Hall.
      + by rewrite project_all_throws.
    - destruct Hin as [Hin|Hin]; [by apply elem_of_nil in Hin|by apply IH]. }
  split; [apply Hgen|]. unfold updateTiles. by rewrite Hgen.
Qed.

Lemma collect_total_witness :
  exists l,
    collect scene_display (scene_cache [chain 1 100 0; label 2 130 1])
      (vtiles scene_display) (s scene_display) [] = Normal l /\
    Forall2 projected l [chain 1 100 0; label 2 130 1].
Proof.
  destruct (collect_total scene_display (scene_cache [chain 1 100 0; label 2 130 1])
              (vtiles scene_display) (s scene_display)) as (l & segments & Hl & Hsegs & Hp).
  - intros tk dk ds d Hs Hd. unfold slot, scene_cache in Hs.
    destruct (decide (tk = "0"%string)) as [->|Hne];
      [rewrite lookup_singleton_eq in Hs|by rewrite lookup_singleton_ne in Hs].
    simpl in Hs. apply lookup_singleton_Some in Hs as [_ <-].
    apply elem_of_cons in Hd as [->|Hd]; [intros _; by eexists|].
    apply list_elem_of_singleton in Hd as ->. intros Hlen. simpl in Hlen. lia.
  - exists l. split; [exact Hl|].
    apply Forall2_cons_inv_l in Hsegs as (seg & rest & Hseg & Hrest & ->).
    apply Forall2_nil_inv_l in Hrest as ->.
    assert (Hone : seg = [("1-0"%string, [chain 1 100 0; label 2 130 1])]).
    { apply Permutation_singleton_r. rewrite Hseg. reflexivity. }
    rewrite Hone in Hp. exact Hp.
Defined.


Lemma collect_chain_without_slope_witness :
  let d := mkCollisionData [mkBBox 0 1 0 1; mkBBox 2 3 0 1] [] 0 0 0 0 0 0 1 1 None in
  collect scene_display (scene_cache [d]) (vtiles scene_display) (s scene_display) []
    = Throw "TypeError: slope is undefined" /\
  updateTiles scene_display (scene_cache [d]) (vtiles scene_display) (s scene_display)
    scene_buffers = Throw "TypeError: slope is undefined".
Proof.
  intros d.
  apply (collect_chain_without_slope scene_display (scene_cache [d]) (vtiles scene_display)
           (s scene_display) scene_buffers d).
  - assert (viewed (scene_cache [d]) (vtiles scene_display) = [d]) as ->
      by (vm_compute; reflexivity).
    apply list_elem_of_here.
  - simpl. lia.
  - reflexivity.
Defined.

Lemma insert_data_has_slope cx cy cz ox oy hw hh tile ts prio sl :
  chain_has_slope (insert_data cx cy cz ox oy hw hh tile ts prio sl).
Proof.
  unfold chain_has_slope, insert_data. destruct sl as [sl|]; cbv zeta.
  - destruct (chain_array _ _ _) as [[n|]| |]; simpl; intros; by eauto.
  - simpl. lia.
Qed.

Lemma accepted_insert_data calls : forall h results h',
  insert_all calls h = Normal (results, h') ->
  Forall chain_has_slope (accepted results).
Proof.
  induction calls as [|c calls IH]; intros h results h'; simpl.
  - intros [= <- <-]. constructor.
  - unfold call_insert, insert.
    destruct (chain_array_returns (i_halfWidth c) (i_halfHeight c) (i_slope c))
      as [[n ->]| ->]; simpl.
    2: { destruct (insert_all calls h) as [[rs h2]| |] eqn:Hrun; simpl; [|done..].
         intros [= <- <-]. change (accepted (None :: rs)) with (accepted rs). by eapply IH. }
    destruct (curLayerTileCollision h) as [cur|]; simpl.
    2: { destruct (insert_all calls h) as [[rs h2]| |] eqn:Hrun; simpl; [|done..].
         intros [= <- <-]. change (accepted (None :: rs)) with (accepted rs). by eapply IH. }
    set (cd := insert_data _ _ _ _ _ _ _ _ _ _ _).
    assert (Hcd : chain_has_slope cd) by apply insert_data_has_slope.
    destruct (intersects cd (data cur)); simpl.
    { destruct (insert_all calls h) as [[rs h2]| |] eqn:Hrun; simpl; [|done..].
      intros [= <- <-]. change (accepted (None :: rs)) with (accepted rs). by eapply IH. }
    destruct (intersects_existing cd (existing cur)); simpl.
    { destruct (insert_all calls h) as [[rs h2]| |] eqn:Hrun; simpl; [|done..].
      intros [= <- <-]. change (accepted (None :: rs)) with (accepted rs). by eapply IH. }
    destruct (insert_all calls _) as [[rs h2]| |] eqn:Hrun; simpl; [|done..].
    intros [= <- <-]. change (accepted (Some cd :: rs)) with (cd :: accepted rs).
    constructor; [done|]. by eapply IH.
Qed.

Lemma clearTile_keeps_slots quadkey layer h tk dk ds :
  slot (tiles (clearTile quadkey layer h)) tk dk = Some ds -> slot (tiles h) tk dk = Some ds.
Proof.
  destruct (decide (dataKey <$> curLayerTileCollision h = Some (getDataKey quadkey layer)))
    as [Heq|Hne]; [unfold clearTile; by rewrite bool_decide_eq_true_2|].
  destruct (clearTile_slots quadkey layer h Hne) as [Hown Hother].
  destruct (decide ((tk, dk) = (getTileCacheKey quadkey layer, getDataKey quadkey layer)))
    as [[= -> ->]|Hne2]; [by rewrite Hown|by rewrite Hother].
Qed.

(** That every cached candidate with more than one box has a slope is kept by
    every operation on the cache: by [clearTile], by [removeTiles], and by a
    batch of [initTile], calls of [insert] and [completeTile]. *)
Theorem cache_slopes_kept h :
  cache_has_slopes (tiles h) ->
  (forall quadkey layer, cache_has_slopes (tiles (clearTile quadkey layer h))) /\
  (forall Number layer, cache_has_slopes (tiles (removeTiles Number layer h))) /\
  (forall tq display tile layer calls results hA flag buffers u h1 b1,
     insert_all calls (initTile tq tile layer h) = Normal (results, hA) ->
     completeTile display flag hA buffers = Normal (u, h1, b1) ->
     cache_has_slopes (tiles h1)).
Proof.
  intros Hcache. split; [|split].
  - intros quadkey layer tk dk ds d Hs Hd. apply clearTile_keeps_slots in Hs. by eapply Hcache.
  - intros Number layer tk dk ds d Hs Hd. apply (Hcache tk dk ds d); [|done].
    unfold slot, removeTiles in Hs |- *. simpl in Hs. rewrite lookup_fmap in Hs.
    destruct (tiles h !! tk) as [m|]; simpl in *; [|done].
    by apply map_lookup_filter_Some in Hs as [? _].
  - intros tq display tile layer calls results hA flag buffers u h1 b1 Hrun Hdone.
    pose proof (accepted_insert_data _ _ _ _ Hrun) as Hacc.
    destruct (initTile_batch tq tile layer h) as (cur & Hcur & Hdata).
    destruct (insert_all_batch calls _ cur Hcur) as (rs & cur' & Hrun' & Hdata' & _).
    { split; rewrite Hdata; [intros ?????; by rewrite lookup_nil|].
      intros ????? Hc. by apply elem_of_nil in Hc. }
    rewrite Hrun in Hrun'. injection Hrun' as -> ->.
    eapply completeTile_state in Hdone as (_ & -> & _); [|reflexivity].
    destruct (commit_slots (tiles (clearTile (quadkey tile) layer h)) (tileKey cur')
                (dataKey cur') (data cur')) as [Hown Hother].
    rewrite Hdata in Hdata'. simpl in Hdata'.
    intros tk dk ds d Hs Hd. simpl in Hs.
    destruct (decide ((tk, dk) = (tileKey cur', dataKey cur'))) as [[= -> ->]|Hne].
    + rewrite Hown in Hs. injection Hs as <-. rewrite Hdata' in Hd.
      rewrite Forall_forall in Hacc. by apply Hacc.
    + rewrite Hother in Hs by done.
      apply clearTile_keeps_slots in Hs. by eapply Hcache.
Qed.

Lemma cache_slopes_kept_witness :
  let h := mkHandler ∅ None false None in
  let tile := mkTile "12" 2 1 2 in
  exists results hA u h1 b1,
    insert_all [mkInsertCall 100 100 0 0 0 40 5 tile 512 None (Some (1, 0))]
      (initTile (fun _ _ _ => ""%string) tile (mkLayer "1" 512) h) = Normal (results, hA) /\
    completeTile scene_display false hA ∅ = Normal (u, h1, b1) /\
    (exists d, slot (tiles h1) "12" "1-12" = Some [d] /\ (1 < List.length (boxes d))%nat) /\
    cache_has_slopes (tiles h1).
Proof.
  intros h tile.
  destruct (insert_all [mkInsertCall 100 100 0 0 0 40 5 tile 512 None (Some (1, 0))]
              (initTile (fun _ _ _ => ""%string) tile (mkLayer "1" 512) h))
    as [[results hA]| |] eqn:Hrun; [|vm_compute in Hrun; discriminate..].
  destruct (completeTile scene_display false hA ∅) as [[[u h1] b1]| |] eqn:Hdone;
    [| exfalso; vm_compute in Hrun; injection Hrun as <- <-; vm_compute in Hdone;
       discriminate ..].
  exists results, hA, u, h1, b1. split; [reflexivity|]. split; [exact Hdone|]. split.
  - vm_compute in Hrun. injection Hrun as <- <-. vm_compute in Hdone.
    injection Hdone as <- <- <-. eexists. split; [reflexivity|]. simpl. lia.
  - assert (Hh : cache_has_slopes (tiles h)) by (intros tk dk ds d Hs; by vm_compute in Hs).
    destruct (cache_slopes_kept h Hh) as (_ & _ & Hbatch).
    exact (Hbatch _ _ _ _ _ _ _ _ _ _ _ _ Hrun Hdone).
Defined.

End Screen.

(** * The rate of the passes *)

Module Pace.
Import JS Collision Props Debounce.
Local Open Scope Z_scope.

Lemma step_paced display t0 n w e w' :
  paced t0 n w -> step display w e = Normal w' ->
  paced t0 (match e with CallUpdate => S n | Elapse _ => n end) w'.
Proof.
  intros (Ht0 & Hsp & Hle & Hst) Hstep. destruct Hst as [[Hidle Hn]|(tid & due & Harm & Hd0 & Hdue & Hn)].
  - destruct e as [|ms].
    + pose proof (update_idle w Hidle) as Harm. simpl in Hstep.
      destruct (update (handler w) (loop w)) as [h1 l1] eqn:Hu. injection Hstep as <-.
      simpl in Harm.
      assert (Hnow : now l1 = now (loop w)).
      { unfold update in Hu. destruct Hidle as [Ht _]. rewrite Ht in Hu. simpl in Hu.
        by injection Hu as <- <-. }
      unfold paced. simpl. rewrite Hnow. split; [done|]. split; [done|]. split; [done|].
      right. eexists _, _. split; [exact Harm|]. split; [lia|]. split; [|lia].
      eapply Forall_impl; [exact Hle|]. simpl. intros; lia.
    + assert (Hw' : w' = mkWorld (handler w)
                (mkEventLoop (now (loop w) + Z.of_nat ms) [] (nextTimer (loop w)))
                (wbuffers w) (passes w)).
      { destruct Hidle as [_ Hp]. simpl in Hstep. rewrite Hp in Hstep. simpl in Hstep.
        injection Hstep as <-. by rewrite Hp. }
      subst w'. unfold paced. simpl. split; [lia|]. split; [done|]. split.
      * eapply Forall_impl; [exact Hle|]. simpl. intros; lia.
      * left. split; [|done]. destruct Hidle as [Ht _]. by split.
  - destruct e as [|ms].
    + rewrite (step_call_armed _ _ _ _ Harm) in Hstep. injection Hstep as <-.
      split; [done|]. split; [done|]. split; [done|]. right. exists tid, due. auto with lia.
    + destruct (Z.lt_ge_cases (now (loop w) + Z.of_nat ms) due) as [Hlt|Hge].
      * destruct (step_elapse_armed_early display w tid due ms Harm Hlt)
          as (w1 & Hs & Ha & Hnow & Hp & _).
        rewrite Hs in Hstep. injection Hstep as <-. unfold paced. rewrite Hnow, Hp.
        split; [lia|]. split; [done|]. split.
        -- eapply Forall_impl; [exact Hle|]. simpl. intros; lia.
        -- right. exists tid, due. auto.
      * destruct (step_elapse_armed_late display w tid due ms w' Harm Hge Hstep)
          as (Hi & Hp & Hnow).
        unfold paced. rewrite Hnow, Hp. split; [lia|]. split; [|split].
        -- constructor; [done|]. exact Hdue.
        -- constructor; [lia|]. eapply Forall_impl; [exact Hle|]. simpl. intros; lia.
        -- left. split; [done|]. simpl. lia.
Qed.

Lemma run_paced display es : forall t0 n w w',
  paced t0 n w -> run display w es = Normal w' -> paced t0 (n + calls es) w'.
Proof.
  induction es as [|e es IH]; intros t0 n w w' Hp Hrun; simpl in Hrun.
  - injection Hrun as <-. simpl. by rewrite Nat.add_0_r.
  - destruct (step display w e) as [w1| |] eqn:Hs; simpl in Hrun; [|done|done].
    pose proof (step_paced _ _ _ _ _ _ Hp Hs) as Hp1.
    pose proof (IH _ _ _ _ Hp1 Hrun) as Hp'.
    destruct e; simpl in *; [by rewrite <- Nat.add_succ_comm|done].
Qed.

(** From a state without a scheduled pass and whatever calls of [update] and
    passing of time follow: two passes are at least 150 ms apart, no pass
    runs earlier than 150 ms after the start, and there are never more passes
    than calls of [update]. *)
Theorem passes_spaced display w es w' :
  idle w -> passes w = [] ->
  run display w es = Normal w' ->
  spaced (passes w') /\
  Forall (fun p => now (loop w) + UPDATE_DELAY_MS <= p <= now (loop w')) (passes w') /\
  (List.length (passes w') <= calls es)%nat.
Proof.
  intros Hidle Hp Hrun.
  assert (H0 : paced (now (loop w)) 0 w).
  { unfold paced. rewrite Hp. split; [lia|]. split; [constructor|]. split; [constructor|].
    left. split; [done|]. simpl. lia. }
  destruct (run_paced display es _ _ _ _ H0 Hrun) as (_ & Hsp & Hle & Hst).
  split; [done|]. split; [done|]. simpl in Hst.
  destruct Hst as [[_ ?]|(? & ? & _ & _ & _ & ?)]; lia.
Qed.

Lemma passes_spaced_witness :
  let display := mkDisplay (fun x y => (x, y)) 1 [] (fun _ _ => None) in
  let w := mkWorld (mkHandler ∅ None false None) (mkEventLoop 1000 [] 0) ∅ [] in
  exists w',
    run display w [CallUpdate; Elapse 160; CallUpdate; CallUpdate; Elapse 100; CallUpdate;
                   Elapse 50; CallUpdate; Elapse 10] = Normal w' /\
    passes w' = [1310; 1150] /\ spaced (passes w').
Proof.
  intros display w.
  destruct (run display w [CallUpdate; Elapse 160; CallUpdate; CallUpdate; Elapse 100; CallUpdate;
                   Elapse 50; CallUpdate; Elapse 10]) as [w'| |] eqn:Hrun;
    [|vm_compute in Hrun; discriminate..].
  exists w'. split; [reflexivity|]. split.
  - vm_compute in Hrun. by injection Hrun as <-.
  - by destruct (passes_spaced display w _ w' (conj eq_refl eq_refl) eq_refl Hrun).
Defined.

End Pace.

(** * The walls of an extruded polygon *)

Module Exterior.
Import JS Extrude ExtrudeProps Walls.
Local Open Scope Q_scope.

Section WithGeometry.
Variable isInBox : Q -> Q -> Q -> Q -> Q -> Q -> bool.
Variable math_sqrt : Q -> Q.

Lemma flat_map_seq_shift {A} (f g : nat -> list A) n : forall m,
  (forall k, f (m + k)%nat = g k) -> flat_map f (seq m n) = flat_map g (seq 0 n).
Proof.
  induction n as [|n IH]; intros m Hfg; [done|].
  rewrite !seq_S, !flat_map_app. simpl. rewrite !app_nil_r, (IH m Hfg). f_equal. apply Hfg.
Qed.

Lemma wall_vertices_length extrude extrudeBase walls :
  List.length (flat_map (wall_vertices extrude extrudeBase) walls)
    = (12 * List.length walls)%nat.
Proof. induction walls as [|e walls IH]; simpl; lia. Qed.

Lemma extended_refl tileSize extrude extrudeBase b :
  extended isInBox math_sqrt tileSize extrude extrudeBase b b [].
Proof.
  split; [constructor|]. simpl. rewrite !app_nil_r. repeat split.
  destruct (strokeIndex b); simpl; [by rewrite app_nil_r|done].
Qed.

Lemma extended_push tileSize extrude extrudeBase b e :
  wall_visible isInBox tileSize e = true ->
  extended isInBox math_sqrt tileSize extrude extrudeBase b
    (push_wall math_sqrt extrude extrudeBase e b) [e].
Proof.
  intros Hvis. split; [by repeat constructor|]. unfold push_wall. simpl.
  unfold wall_indices, wall_strokes, wall_normals, wall_normal, wall_dx, wall_dy.
  rewrite !Nat.add_0_r. repeat split.
Qed.

Lemma extended_trans tileSize extrude extrudeBase b b1 b2 w1 w2 :
  extended isInBox math_sqrt tileSize extrude extrudeBase b b1 w1 ->
  extended isInBox math_sqrt tileSize extrude extrudeBase b1 b2 w2 ->
  extended isInBox math_sqrt tileSize extrude extrudeBase b b2 (w1 ++ w2).
Proof.
  intros (Hv1 & Hx1 & Hn1 & Hi1 & Hs1) (Hv2 & Hx2 & Hn2 & Hi2 & Hs2).
  assert (Hlen : List.length (vertex b1) = (List.length (vertex b) + 12 * List.length w1)%nat).
  { by rewrite Hx1, length_app, wall_vertices_length. }
  assert (Hseq : forall f : nat -> nat -> list Q,
            (forall k, f (List.length (vertex b)) (List.length w1 + k)%nat
                       = f (List.length (vertex b1)) k) ->
            flat_map (f (List.length (vertex b))) (seq 0 (List.length (w1 ++ w2)))
            = flat_map (f (List.length (vertex b))) (seq 0 (List.length w1)) ++
              flat_map (f (List.length (vertex b1))) (seq 0 (List.length w2))).
  { intros f Hf. rewrite length_app, seq_app, flat_map_app. f_equal.
    by apply flat_map_seq_shift. }
  split; [by apply Forall_app|]. split; [|split; [|split]].
  - by rewrite Hx2, Hx1, flat_map_app, app_assoc.
  - by rewrite Hn2, Hn1, flat_map_app, app_assoc.
  - rewrite Hi2, Hi1, (Hseq wall_indices), app_assoc; [done|].
    intros k. unfold wall_indices. rewrite Hlen.
    by replace (List.length (vertex b) + 12 * List.length w1 + 12 * k)%nat
      with (List.length (vertex b) + 12 * (List.length w1 + k))%nat by lia.
  - rewrite Hs2, Hs1, (Hseq wall_strokes).
    + destruct (strokeIndex b); simpl; [by rewrite app_assoc|done].
    + intros k. unfold wall_strokes. rewrite Hlen.
      by replace (List.length (vertex b) + 12 * List.length w1 + 12 * k)%nat
        with (List.length (vertex b) + 12 * (List.length w1 + k))%nat by lia.
Qed.

Lemma addExterior_loop_extends fp tileSize extrude extrudeBase stop fuel :
  forall start holeIndex nextHole clockwise b,
    (stop - start <= Z.of_nat fuel)%Z ->
    exists b' walls,
      addExterior_loop isInBox math_sqrt fuel fp tileSize extrude extrudeBase stop start
        holeIndex nextHole clockwise b = Some b' /\
      extended isInBox math_sqrt tileSize extrude extrudeBase b b' walls.
Proof.
  induction fuel as [|fuel IH]; intros start hi nh cw b Hfuel.
  - exists b, []. simpl. destruct (Z.ltb_spec start stop); [lia|].
    split; [done|apply extended_refl].
  - cbn [addExterior_loop]. destruct (Z.ltb_spec start stop); [|
      exists b, []; split; [done|apply extended_refl]].
    set (e := edge_at (vertex b) fp stop start cw).
    assert (Hb1 : exists w0,
              extended isInBox math_sqrt tileSize extrude extrudeBase b
                (if wall_visible isInBox tileSize e
                 then push_wall math_sqrt extrude extrudeBase e b else b) w0).
    { destruct (wall_visible isInBox tileSize e) eqn:Hvis;
        [exists [e]; by apply extended_push|exists []; apply extended_refl]. }
    destruct Hb1 as [w0 Hb1]. set (b1 := if wall_visible _ _ _ then _ else _) in *.
    cbv zeta. case_bool_decide.
    + edestruct (IH (start + 6)%Z (S hi)) as (b' & ws & Hrun & Hext); [lia|].
      exists b', (w0 ++ ws). split; [exact Hrun|]. by eapply extended_trans.
    + edestruct (IH (start + 3)%Z hi) as (b' & ws & Hrun & Hext); [lia|].
      exists b', (w0 ++ ws). split; [exact Hrun|]. by eapply extended_trans.
Qed.

(** Whatever the polygon, its holes and the arrays are, [addExterior] ends
    within [addExterior_fuel] turns, and what it has done is to append walls
    that pass the visibility test: for each wall 12 numbers to the vertex
    array, the 8 numbers of its 4 normals, and the 6 triangle and 8 line
    indices of the 4 vertices just added; nothing already in the arrays is
    changed. *)
Theorem addExterior_extends fp b tileSize extrude extrudeBase :
  exists b' walls,
    addExterior isInBox math_sqrt (addExterior_fuel fp) fp b tileSize extrude extrudeBase
      = Some b' /\
    extended isInBox math_sqrt tileSize extrude (default 0 extrudeBase) b b' walls.
Proof.
  unfold addExterior. apply addExterior_loop_extends. unfold addExterior_fuel. lia.
Qed.

(** The normal of a wall is perpendicular to the rounded direction of the
    wall, whatever [Math.sqrt] returns; and it has length 127 where
    [Math.sqrt] is exact and the wall has a direction. *)
Theorem wall_normal_perpendicular e :
  let n := wall_normal math_sqrt e in
  let d := wall_dx e * wall_dx e + wall_dy e * wall_dy e in
  fst n * wall_dx e + snd n * wall_dy e == 0 /\
  (math_sqrt d * math_sqrt d == d -> ~ d == 0 ->
   fst n * fst n + snd n * snd n == 127 * 127).
Proof.
  intros n d. unfold n, wall_normal. fold d. simpl. split; [ring|].
  intros Hsq Hd.
  assert (Hs : ~ math_sqrt d == 0) by (intros H0; apply Hd; rewrite <- Hsq, H0; ring).
  unfold d in *. set (s := math_sqrt _) in *. set (dx := wall_dx e) in *.
  set (dy := wall_dy e) in *.
  transitivity ((dx * dx + dy * dy) * (127 * 127) / (s * s)); [field; done|].
  rewrite Hsq. field. done.
Qed.

Lemma extended_normals_length tileSize extrude extrudeBase b b' walls :
  extended isInBox math_sqrt tileSize extrude extrudeBase b b' walls ->
  (3 * List.length (normals b) = 2 * List.length (vertex b))%nat ->
  (3 * List.length (normals b') = 2 * List.length (vertex b'))%nat.
Proof.
  intros (_ & Hx & Hn & _) Hal. rewrite Hx, Hn, !length_app, wall_vertices_length.
  assert (List.length (flat_map (wall_normals math_sqrt) walls) = (8 * List.length walls)%nat).
  { clear. induction walls as [|e walls IH]; [done|]. cbn [flat_map].
    rewrite length_app, IH. unfold wall_normals. destruct (wall_normal math_sqrt e).
    cbn [List.length]. lia. }
  lia.
Qed.

Lemma addExterior_all_extends tileSize extrude extrudeBase flats : forall b,
  exists b' walls,
    addExterior_all isInBox math_sqrt flats b tileSize extrude extrudeBase = Some b' /\
    extended isInBox math_sqrt tileSize extrude (default 0 extrudeBase) b b' walls.
Proof.
  induction flats as [|fp flats IH]; intros b.
  - exists b, []. split; [done|apply extended_refl].
  - simpl. destruct (addExterior_loop_extends fp tileSize extrude (default 0 extrudeBase)
                       (fstop fp - 3) (addExterior_fuel fp) (fstart fp) 0%nat
                       (next_hole (fstart fp) (holes fp) 0)
                       (Qle_bool 0 (signedArea (vertex b) (fstart fp)
                          (ring_stop (next_hole (fstart fp) (holes fp) 0) (fstop fp - 3)))) b)
      as (b1 & w1 & Hrun & Hext); [unfold addExterior_fuel; lia|].
    unfold addExterior. rewrite Hrun. simpl.
    destruct (IH b1) as (b' & w2 & Hrun2 & Hext2).
    exists b', (w1 ++ w2). split; [exact Hrun2|]. by eapply extended_trans.
Qed.

End WithGeometry.

Section WithAddPolygon.
Variable isInBox : Q -> Q -> Q -> Q -> Q -> Q -> bool.
Variable math_sqrt : Q -> Q.
Variable Coordinates : Type.
Variable TileT : Type.
Variable addPolygon : list Q -> Coordinates -> TileT -> Q -> Q -> list Q * list FlatPolygon.

Lemma fake_normals_length v k :
  List.length (fake_normals v (v + 3 * k)) = (2 * k)%nat.
Proof.
  unfold fake_normals. replace (v + 3 * k - v + 2)%nat with (2 + k * 3)%nat by lia.
  rewrite Nat.div_add by lia. change (2 `div` 3)%nat with 0%nat. simpl.
  induction k as [|k IH]; simpl; [done|]. rewrite IH. lia.
Qed.

(** [addExtrude] always returns.  When [addPolygon] has appended whole
    vertices to the vertex array, it gives each of them a normal of two
    numbers and then appends walls, so that vertices and normals, aligned
    before the call, are aligned after it; and at a height of at most 0.01
    there is no wall. *)
Theorem addExtrude_aligned b coordinates tile tileSize extrude extrudeBase vertex' flats k :
  addPolygon (vertex b) coordinates tile tileSize extrude = (vertex', flats) ->
  List.length vertex' = (List.length (vertex b) + 3 * k)%nat ->
  (3 * List.length (normals b) = 2 * List.length (vertex b))%nat ->
  exists b' walls,
    addExtrude isInBox math_sqrt Coordinates TileT addPolygon b coordinates tile tileSize
      extrude extrudeBase = Some (flats, b') /\
    extended isInBox math_sqrt tileSize extrude (default 0 extrudeBase)
      (mkBuffers vertex' (normals b ++ concat (replicate k [0; 0])) (vIndex b) (strokeIndex b))
      b' walls /\
    (3 * List.length (normals b') = 2 * List.length (vertex b'))%nat /\
    (extrude <= MIN_VISIBLE_HEIGHT -> walls = []).
Proof.
  intros Hpoly Hlen Hal. unfold addExtrude. rewrite Hpoly, Hlen.
  assert (Hfake : fake_normals (List.length (vertex b)) (List.length (vertex b) + 3 * k)
                  = concat (replicate k [0; 0])).
  { unfold fake_normals.
    replace (List.length (vertex b) + 3 * k - List.length (vertex b) + 2)%nat
      with (2 + k * 3)%nat by lia.
    rewrite Nat.div_add by lia. reflexivity. }
  rewrite Hfake. set (b0 := mkBuffers _ _ _ _).
  assert (Hal0 : (3 * List.length (normals b0) = 2 * List.length (vertex b0))%nat).
  { simpl. rewrite length_app, <- Hfake, fake_normals_length. lia. }
  destruct (Qlt_bool MIN_VISIBLE_HEIGHT extrude) eqn:Hh.
  - destruct (addExterior_all_extends isInBox math_sqrt tileSize extrude extrudeBase flats b0)
      as (b' & walls & -> & Hext).
    exists b', walls. simpl. split; [done|]. split; [done|]. split.
    + by eapply extended_normals_length.
    + intros Hlow. apply Qle_bool_iff in Hlow. unfold Qlt_bool in Hh.
      by rewrite Hlow in Hh.
  - exists b0, []. split; [done|]. split; [apply extended_refl|]. by split.
Qed.

End WithAddPolygon.

Lemma wall_normal_perpendicular_witness :
  let e := mkEdge 0 0 3 4 in
  let n := wall_normal (fun _ => 5) e in
  fst n * fst n + snd n * snd n == 127 * 127.
Proof.
  intros e n.
  destruct (wall_normal_perpendicular (fun _ => 5) e) as [_ Hlen].
  apply Hlen; vm_compute; [reflexivity|discriminate].
Defined.

Lemma addExterior_no_holes_witness :
  let verts := [10; 10; 5;  100; 10; 5;  100; 100; 5;  10; 100; 5;  10; 10; 5] in
  let fp := mkFlatPolygon 0 15 [] in
  exists b',
    addExterior isInBox_spec (fun _ => 1) (addExterior_fuel fp) fp (mkBuffers verts [] [] None)
      256 5 None = Some b' /\
    vertex b' = verts ++ flat_map (wall_vertices 5 0) (ring_edges verts fp).
Proof.
  intros verts fp.
  destruct (addExterior_no_holes isInBox_spec (fun _ => 1) fp (mkBuffers verts [] [] None)
              256 5 None 4 eq_refl) as (b' & Hrun & Hv);
    [done|reflexivity|simpl; lia|].
  exists b'. split; [exact Hrun|]. rewrite Hv. reflexivity.
Defined.

Lemma addExtrude_aligned_witness :
  let addPolygon := fun (v : list Q) (_ _ : unit) (_ _ : Q) =>
    (v ++ [10; 10; 5;  100; 10; 5;  100; 100; 5;  10; 10; 5], [mkFlatPolygon 0 12 []]) in
  exists b' (walls : list Edge),
    addExtrude isInBox_spec (fun _ => 1) unit unit addPolygon (mkBuffers [] [] [] None) tt tt
      256 5 None = Some ([mkFlatPolygon 0 12 []], b') /\
    List.length walls = 3%nat /\
    List.length (vertex b') = 48%nat /\ List.length (normals b') = 32%nat.
Proof.
  intros addPolygon.
  destruct (addExtrude_aligned isInBox_spec (fun _ => 1) unit unit addPolygon
              (mkBuffers [] [] [] None) tt tt 256 5 None _ _ 4 eq_refl eq_refl eq_refl)
    as (b' & walls & Hrun & (_ & Hx & _) & Hal & _).
  exists b', walls. split; [exact Hrun|].
  assert (Hb : List.length (vertex b') = 48%nat).
  { vm_compute in Hrun. by injection Hrun as <-. }
  split; [|split; [exact Hb|lia]].
  rewrite Hx, length_app, wall_vertices_length in Hb. simpl in Hb. lia.
Defined.

End Exterior.

(** * The lines of a decoded geometry *)

Module Geometry.
Import JS MVT DecodeProps.
Local Open Scope Z_scope.

Lemma read_at T k t :
  T !! k = Some t -> read_token (reader_at T k) = (t, reader_at T (S k)).
Proof.
  intros Ht. unfold read_token, reader_at. simpl.
  destruct (Z.ltb_spec (Z.of_nat k) 0); [lia|]. rewrite Nat2Z.id, Ht. simpl.
  do 2 f_equal. lia.
Qed.

Lemma command_decode id count :
  0 <= id < 8 -> 0 <= count < 2 ^ 28 ->
  Z.land (to_int32 (command id count)) 7 = id /\
  Z.shiftr (to_int32 (command id count)) 3 = count.
Proof.
  intros Hid Hc. unfold command.
  assert (Hor : Z.lor (Z.shiftl count 3) id = count * 8 + id).
  { rewrite Z.shiftl_mul_pow2 by lia. change (2 ^ 3) with 8.
    rewrite <- Z.add_nocarry_lor; [done|].
    apply Z.bits_inj'. intros n Hn. rewrite Z.land_spec, Z.bits_0.
    destruct (Z.lt_ge_cases n 3).
    - replace (count * 8) with (count * 2 ^ 3) by lia.
      rewrite Z.mul_pow2_bits_low by lia. done.
    - assert (Z.testbit id n = false) as ->; [|apply andb_false_r].
      destruct (Z.eq_dec id 0) as [->|]; [apply Z.bits_0|].
      apply Z.bits_above_log2; [lia|].
      assert (Z.log2 id < 3); [|lia]. apply Z.log2_lt_pow2; lia. }
  rewrite Hor. unfold to_int32.
  rewrite (Z.mod_small (count * 8 + id + 2 ^ 31)) by lia.
  replace (count * 8 + id + 2 ^ 31 - 2 ^ 31) with (count * 8 + id) by lia. split.
  - change 7 with (Z.ones 3). rewrite Z.land_ones by lia. change (2 ^ 3) with 8.
    rewrite Z.add_comm, Z.mod_add by lia. apply Z.mod_small. lia.
  - rewrite Z.shiftr_div_pow2 by lia. change (2 ^ 3) with 8.
    rewrite Z.add_comm, Z.div_add by lia. rewrite Z.div_small by lia. lia.
Qed.

Lemma decode_loop_step fuel end_ T k (d d' : Decoder TokenReader) :
  pbf d = reader_at T k -> Z.of_nat k < end_ -> dispatch (fetch d) = Normal d' ->
  decode_loop (S fuel) end_ d = decode_loop fuel end_ d'.
Proof.
  intros Hd Hpos Hstep. cbn [decode_loop]. rewrite Hd, Hstep.
  change (pos (reader_at T k)) with (Z.of_nat k).
  by destruct (Z.ltb_spec (Z.of_nat k) end_); [|lia].
Qed.

Lemma step_moveTo T k a b c len cx cy done prev :
  len <= 0 -> T !! k = Some (command 1 1) -> T !! S k = Some a -> T !! S (S k) = Some b ->
  dispatch (fetch (mkDecoder (reader_at T k) c len cx cy done prev))
  = Normal (mkDecoder (reader_at T (S (S (S k)))) 1 0 (cx + a) (cy + b)
              (pushed done prev) (Some [(cx + a, cy + b)])).
Proof.
  intros Hlen H0 H1 H2. unfold fetch. cbn [length pbf].
  destruct (Z.leb_spec len 0); [|lia].
  change (readVarint (reader_at T k)) with (read_token (reader_at T k)).
  rewrite (read_at _ _ _ H0). cbn [MVT.x MVT.y lines line].
  change (Z.land (to_int32 (command 1 1)) 7) with 1.
  change (Z.shiftr (to_int32 (command 1 1)) 3 - 1) with 0.
  unfold dispatch. cbn [cmd pbf MVT.x MVT.y lines line length]. cbn [Z.eqb orb Pos.eqb].
  change (readSVarint (reader_at T (S k))) with (read_token (reader_at T (S k))).
  rewrite (read_at _ _ _ H1).
  change (readSVarint (reader_at T (S (S k)))) with (read_token (reader_at T (S (S k)))).
  rewrite (read_at _ _ _ H2). by destruct prev.
Qed.

Lemma step_lineTo_first T k n a b c len cx cy done l :
  len <= 0 -> 0 < n < 2 ^ 28 ->
  T !! k = Some (command 2 n) -> T !! S k = Some a -> T !! S (S k) = Some b ->
  dispatch (fetch (mkDecoder (reader_at T k) c len cx cy done (Some l)))
  = Normal (mkDecoder (reader_at T (S (S (S k)))) 2 (n - 1) (cx + a) (cy + b)
              done (Some (l ++ [(cx + a, cy + b)]))).
Proof.
  intros Hlen Hn H0 H1 H2. unfold fetch. cbn [length pbf].
  destruct (Z.leb_spec len 0); [|lia].
  change (readVarint (reader_at T k)) with (read_token (reader_at T k)).
  rewrite (read_at _ _ _ H0). cbn [MVT.x MVT.y lines line].
  destruct (command_decode 2 n) as [-> ->]; [lia|lia|].
  unfold dispatch. cbn [cmd pbf MVT.x MVT.y lines line length]. cbn [Z.eqb orb Pos.eqb].
  change (readSVarint (reader_at T (S k))) with (read_token (reader_at T (S k))).
  rewrite (read_at _ _ _ H1).
  change (readSVarint (reader_at T (S (S k)))) with (read_token (reader_at T (S (S k)))).
  by rewrite (read_at _ _ _ H2).
Qed.

Lemma step_lineTo T k a b len cx cy done l :
  0 < len -> T !! k = Some a -> T !! S k = Some b ->
  dispatch (fetch (mkDecoder (reader_at T k) 2 len cx cy done (Some l)))
  = Normal (mkDecoder (reader_at T (S (S k))) 2 (len - 1) (cx + a) (cy + b)
              done (Some (l ++ [(cx + a, cy + b)]))).
Proof.
  intros Hlen H0 H1. unfold fetch. cbn [length pbf].
  destruct (Z.leb_spec len 0); [lia|]. cbn [MVT.x MVT.y lines line cmd].
  unfold dispatch. cbn [cmd pbf MVT.x MVT.y lines line length]. cbn [Z.eqb orb Pos.eqb].
  change (readSVarint (reader_at T k)) with (read_token (reader_at T k)).
  rewrite (read_at _ _ _ H0).
  change (readSVarint (reader_at T (S k))) with (read_token (reader_at T (S k))).
  by rewrite (read_at _ _ _ H1).
Qed.

Lemma last_cons {A} (a : A) l d : List.last (a :: l) d = List.last l a.
Proof.
  revert a d. induction l as [|b l IH]; intros a d; [done|].
  change (List.last (a :: b :: l) d) with (List.last (b :: l) d). by rewrite !IH.
Qed.

Lemma deltas_length x y pts : List.length (deltas x y pts) = (2 * List.length pts)%nat.
Proof.
  revert x y. induction pts as [|[px py] pts IH]; intros x y; simpl; [done|].
  rewrite IH. lia.
Qed.

(** The turns of the loop on the parameters of a lineTo command. *)
Lemma lineTo_run T end_ pts : forall k x y l done fuel,
  (forall i t, deltas x y pts !! i = Some t -> T !! (k + i)%nat = Some t) ->
  Z.of_nat (k + 2 * List.length pts) <= end_ ->
  decode_loop (List.length pts + fuel) end_
    (mkDecoder (reader_at T k) 2 (Z.of_nat (List.length pts)) x y done (Some l))
  = decode_loop fuel end_
      (mkDecoder (reader_at T (k + 2 * List.length pts)) 2 0
         (fst (List.last pts (x, y))) (snd (List.last pts (x, y))) done (Some (l ++ pts))).
Proof.
  induction pts as [|[px py] pts IH]; intros k x y l done fuel HT Hend.
  - simpl. by rewrite Nat.add_0_r, app_nil_r.
  - cbn [List.length Nat.add] in *.
    assert (H0 : T !! k = Some (px - x)).
    { specialize (HT 0%nat (px - x) eq_refl). by rewrite Nat.add_0_r in HT. }
    assert (H1 : T !! S k = Some (py - y)).
    { specialize (HT 1%nat (py - y) eq_refl). by rewrite Nat.add_1_r in HT. }
    erewrite (decode_loop_step _ end_ T k);
      [|reflexivity|lia|by apply step_lineTo; [lia|exact H0|exact H1]].
    replace (x + (px - x)) with px by lia. replace (y + (py - y)) with py by lia.
    replace (Z.of_nat (S (List.length pts)) - 1) with (Z.of_nat (List.length pts)) by lia.
    rewrite (IH (S (S k)) px py (l ++ [(px, py)]) done fuel).
    + rewrite last_cons, <- app_assoc.
      by replace (S (S k) + 2 * List.length pts)%nat
        with (k + 2 * S (List.length pts))%nat by lia.
    + intros i t Hi. specialize (HT (S (S i)) t Hi).
      by replace (S (S k) + i)%nat with (k + S (S i))%nat by lia.
    + lia.
Qed.

Ltac skip6 :=
  match goal with
  | |- (?a :: ?b :: ?c :: ?d :: ?e :: ?f :: ?L) !! _ = _ =>
      change (a :: b :: c :: d :: e :: f :: L) with ([a; b; c; d; e; f] ++ L);
      rewrite lookup_app_r by (simpl; lia);
      change (List.length [a; b; c; d; e; f]) with 6%nat
  end.

(** The turns of the loop on the encoding of a list of lines. *)
Lemma lines_run T end_ lines : forall k x y done prev fuel c len,
  len <= 0 ->
  Forall line_ok lines ->
  (forall i t, encode x y lines !! i = Some t -> T !! (k + i)%nat = Some t) ->
  end_ = Z.of_nat (k + List.length (encode x y lines)) ->
  decode_loop (points lines + fuel) end_ (mkDecoder (reader_at T k) c len x y done prev)
  = Some (Normal (pushed done prev ++ lines)).
Proof.
  induction lines as [|l lines IH]; intros k x y done prev fuel c len Hlen Hok HT Hend.
  - simpl in Hend. rewrite Nat.add_0_r in Hend. rewrite app_nil_r.
    unfold points. simpl.
    destruct fuel; simpl; destruct (Z.ltb_spec (Z.of_nat k) end_); try lia; done.
  - apply Forall_cons in Hok as [[Hne Hmax] Hok].
    destruct l as [|[px py] rest]; [done|]. clear Hne.
    cbn [encode encode_line deltas] in HT, Hend.
    rewrite last_cons in HT, Hend.
    assert (H0 : T !! k = Some (command 1 1)).
    { specialize (HT 0%nat _ eq_refl). by rewrite Nat.add_0_r in HT. }
    assert (H1 : T !! S k = Some (px - x)).
    { specialize (HT 1%nat _ eq_refl). by rewrite Nat.add_1_r in HT. }
    assert (H2 : T !! S (S k) = Some (py - y)).
    { specialize (HT 2%nat _ eq_refl). by replace (k + 2)%nat with (S (S k)) in HT by lia. }
    assert (Hpts : (points (((px, py) :: rest) :: lines) + fuel
                    = S (List.length rest + (points lines + fuel)))%nat).
    { unfold points. simpl. rewrite length_app. lia. }
    rewrite Hpts.
    erewrite (decode_loop_step _ end_ T k);
      [|reflexivity|rewrite Hend; simpl; lia|by apply step_moveTo].
    replace (x + (px - x)) with px by lia. replace (y + (py - y)) with py by lia.
    destruct rest as [|[qx qy] rest].
    + simpl in HT, Hend |- *.
      rewrite (IH (S (S (S k))) px py (pushed done prev) (Some [(px, py)]) fuel 1 0);
        [cbn [pushed]; by rewrite <- app_assoc|lia|done| |].
      * intros i t Hi. specialize (HT (S (S (S i))) t Hi).
        by replace (S (S (S k)) + i)%nat with (k + S (S (S i)))%nat by lia.
      * rewrite Hend. f_equal. lia.
    + set (n := List.length ((qx, qy) :: rest)) in *.
      cbn [app deltas fst snd] in HT, Hend.
      assert (H3 : T !! S (S (S k)) = Some (command 2 (Z.of_nat n))).
      { specialize (HT 3%nat _ eq_refl).
        by replace (k + 3)%nat with (S (S (S k))) in HT by lia. }
      assert (H4 : T !! S (S (S (S k))) = Some (qx - px)).
      { specialize (HT 4%nat _ eq_refl).
        by replace (k + 4)%nat with (S (S (S (S k)))) in HT by lia. }
      assert (H5 : T !! S (S (S (S (S k)))) = Some (qy - py)).
      { specialize (HT 5%nat _ eq_refl).
        by replace (k + 5)%nat with (S (S (S (S (S k))))) in HT by lia. }
      assert (Hn : n = S (List.length rest)) by done.
      assert (Hlenc : List.length (encode (fst (List.last ((qx, qy) :: rest) (px, py)))
                        (snd (List.last ((qx, qy) :: rest) (px, py))) lines) =
                      List.length (encode (fst (List.last rest (qx, qy)))
                        (snd (List.last rest (qx, qy))) lines))
        by (by rewrite last_cons).
      cbn [List.length] in Hend. rewrite length_app, deltas_length in Hend.
      rewrite Hn. cbn [Nat.add].
      erewrite (decode_loop_step _ end_ T (S (S (S k))));
        [|reflexivity|rewrite Hend; lia
         |by apply (step_lineTo_first T (S (S (S k))) (Z.of_nat n));
            [lia|simpl in Hmax; lia|exact H3|exact H4|exact H5]].
      replace (px + (qx - px)) with qx by lia. replace (py + (qy - py)) with qy by lia.
      replace (Z.of_nat n - 1) with (Z.of_nat (List.length rest)) by lia.
      rewrite (lineTo_run T end_ rest (S (S (S (S (S (S k)))))) qx qy).
      * rewrite (IH _ _ _ (pushed done prev) (Some (([(px, py)] ++ [(qx, qy)]) ++ rest))
                    fuel 2 0); [cbn [pushed]; by rewrite <- app_assoc|lia|done| |].
        -- intros i t Hi. rewrite last_cons in HT.
           specialize (HT (6 + 2 * List.length rest + i)%nat t).
           replace (S (S (S (S (S (S k))))) + 2 * List.length rest + i)%nat
             with (k + (6 + 2 * List.length rest + i))%nat by lia.
           apply HT. skip6.
           replace (6 + 2 * List.length rest + i - 6)%nat
             with (2 * List.length rest + i)%nat by lia.
           rewrite lookup_app_r by (rewrite deltas_length; lia).
           rewrite deltas_length.
           by replace (2 * List.length rest + i - 2 * List.length rest)%nat with i by lia.
        -- rewrite Hend, Hlenc. f_equal. lia.
      * intros i t Hi. specialize (HT (6 + i)%nat t).
        replace (S (S (S (S (S (S k))))) + i)%nat with (k + (6 + i))%nat by lia.
        apply HT. skip6. replace (6 + i - 6)%nat with i by lia.
        apply lookup_app_l_Some. exact Hi.
      * rewrite Hend. lia.
Qed.

(** Round trip: the geometry of any list of non-empty lines, written as
    moveTo and lineTo commands with the cursor carried from line to line and
    preceded by its length, decodes to these lines, wherever it lies in the
    buffer and whatever follows it, once the fuel covers one turn a point. *)
Theorem decode_encode pre post lines fuel p :
  Forall line_ok lines ->
  (points lines <= fuel)%nat ->
  let body := encode 0 0 lines in
  loadGeometry fuel
    (mkTokenReader (pre ++ Z.of_nat (List.length body) :: body ++ post) p)
    (Z.of_nat (List.length pre))
  = Some (Normal lines).
Proof.
  intros Hok Hfuel body. unfold loadGeometry, init.
  set (T := pre ++ Z.of_nat (List.length body) :: body ++ post).
  change (readVarint (set_pos (Z.of_nat (List.length pre)) (mkTokenReader T p)))
    with (read_token (reader_at T (List.length pre))).
  rewrite (read_at T (List.length pre) (Z.of_nat (List.length body))).
  2:{ unfold T. by rewrite list_lookup_middle. }
  replace fuel with (points lines + (fuel - points lines))%nat by lia.
  rewrite (lines_run T _ lines (S (List.length pre)) 0 0 [] None _ 1 0); [done|lia|done| |].
  - intros i t Hi. unfold T.
    replace (S (List.length pre) + i)%nat with (List.length pre + S i)%nat by lia.
    rewrite lookup_app_r by lia.
    replace (List.length pre + S i - List.length pre)%nat with (S i) by lia.
    simpl. by apply lookup_app_l_Some.
  - fold body. simpl. lia.
Qed.

Lemma decode_encode_witness :
  loadGeometry 4
    (mkTokenReader ([7; 7] ++ 11 :: [9; 5; 5; 18; 1; 1; 2; 2; 9; -3; 0] ++ [15]) 1) 2
  = Some (Normal [[(5, 5); (6, 6); (8, 8)]; [(5, 8)]]).
Proof.
  apply (decode_encode [7; 7] [15] [[(5, 5); (6, 6); (8, 8)]; [(5, 8)]] 4 1).
  - repeat constructor; try discriminate; simpl; lia.
  - unfold points. simpl. lia.
Defined.

Section AnyReader.
Context {P : Type} `{PbfReader P}.

Lemma fetch_lines (d : Decoder P) : lines (fetch d) = lines d /\ line (fetch d) = line d.
Proof.
  unfold fetch. destruct (length d <=? 0); [|done]. by destruct (readVarint (pbf d)).
Qed.

(** What a turn that returns does to the lines: by the command. *)
Lemma dispatch_cases (d d' : Decoder P) :
  dispatch d = Normal d' ->
  (cmd d = 1 /\ lines d' = pushed (lines d) (line d) /\ exists pt, line d' = Some [pt]) \/
  (cmd d = 2 /\ lines d' = lines d /\
     exists l pt, line d = Some l /\ line d' = Some (l ++ [pt])) \/
  (cmd d = 7 /\ lines d' = lines d /\
     ((line d = None /\ line d' = None) \/
      exists p0 l, line d = Some (p0 :: l) /\ line d' = Some (p0 :: l ++ [p0]))).
Proof.
  unfold dispatch. destruct (Z.eqb_spec (cmd d) 1) as [H1|H1]; cbn [orb].
  - destruct (readSVarint (pbf d)) as [a p1]. destruct (readSVarint p1) as [b p2].
    intros [= <-]. left. cbn. split; [done|]. split; [by destruct (line d)|by eexists].
  - destruct (Z.eqb_spec (cmd d) 2) as [H2|H2].
    + destruct (readSVarint (pbf d)) as [a p1]. destruct (readSVarint p1) as [b p2].
      destruct (line d) as [l|] eqn:Hl; [|done]. intros [= <-]. right. left. cbn.
      split; [done|]. split; [done|]. by eexists _, _.
    + destruct (Z.eqb_spec (cmd d) 7) as [H7|H7]; [|done].
      destruct (line d) as [[|p0 l]|] eqn:Hl; [done| |].
      * intros [= <-]. right. right. cbn. split; [done|]. split; [done|]. right.
        by eexists _, _.
      * intros [= <-]. right. right. split; [done|]. split; [done|]. by left.
Qed.

Lemma points_app l1 l2 : points (l1 ++ l2) = (points l1 + points l2)%nat.
Proof. unfold points. by rewrite concat_app, length_app. Qed.

Lemma points_single l : points [l] = List.length l.
Proof. unfold points. simpl. by rewrite app_nil_r. Qed.

Lemma decode_loop_lines fuel : forall end_ (d : Decoder P) result,
  decode_loop fuel end_ d = Some (Normal result) ->
  line d ≠ Some [] -> Forall (fun l => l ≠ []) (lines d) ->
  Forall (fun l => l ≠ []) result /\
  List.length result
    = (List.length (pushed (lines d) (line d))
       + count_occ Z.eq_dec (executed fuel end_ d) 1%Z)%nat /\
  (points result
     <= points (pushed (lines d) (line d)) + List.length (executed fuel end_ d))%nat.
Proof.
  induction fuel as [|fuel IH]; intros end_ d result Hrun Hline Hlines.
  - simpl in Hrun |- *. destruct (pos (pbf d) <? end_); [done|]. injection Hrun as <-.
    rewrite !Nat.add_0_r. split; [|done].
    destruct (line d) as [l|]; simpl; [|done]. apply Forall_app. split; [done|].
    repeat constructor. congruence.
  - cbn [decode_loop executed] in Hrun |- *. destruct (pos (pbf d) <? end_).
    + destruct (dispatch (fetch d)) as [d'| |] eqn:Hd; [|done..].
      destruct (fetch_lines d) as [Hfl Hfline].
      assert (Hpushed : Forall (fun l => l ≠ []) (pushed (lines d) (line d))).
      { destruct (line d) as [l|]; simpl; [|done]. apply Forall_app. split; [done|].
        repeat constructor. congruence. }
      apply dispatch_cases in Hd as [(Hc & Hl & pt & Hp)|[(Hc & Hl & l & pt & Hl0 & Hp)
        |(Hc & Hl & [[Hl0 Hp]|(p0 & l & Hl0 & Hp)])]];
        rewrite Hfl in Hl; rewrite ?Hfline in *.
      * destruct (IH end_ d' result Hrun) as (IH1 & IH2 & IH3);
          [by rewrite Hp|by rewrite Hl|].
        split; [done|]. rewrite Hc. rewrite Hl, Hp in IH2, IH3. cbn [pushed] in IH2, IH3.
        rewrite length_app in IH2. rewrite points_app, points_single in IH3.
        destruct (Z.eq_dec 1 1); [|done]. simpl in IH2, IH3 |- *. lia.
      * destruct (IH end_ d' result Hrun) as (IH1 & IH2 & IH3);
          [rewrite Hp; by destruct l|by rewrite Hl|].
        split; [done|]. rewrite Hc. rewrite Hl, Hp in IH2, IH3. rewrite Hl0.
        cbn [pushed] in IH2, IH3 |- *.
        rewrite length_app in IH2 |- *.
        rewrite points_app, points_single, length_app in IH3.
        rewrite points_app, points_single.
        destruct (Z.eq_dec 2 1); [done|]. simpl in IH2, IH3 |- *. lia.
      * destruct (IH end_ d' result Hrun) as (IH1 & IH2 & IH3);
          [by rewrite Hp|by rewrite Hl|].
        split; [done|]. rewrite Hc. rewrite Hl, Hp in IH2, IH3. rewrite Hl0.
        destruct (Z.eq_dec 7 1); [done|]. simpl in IH2, IH3 |- *. lia.
      * destruct (IH end_ d' result Hrun) as (IH1 & IH2 & IH3);
          [by rewrite Hp|by rewrite Hl|].
        split; [done|]. rewrite Hc. rewrite Hl, Hp in IH2, IH3. rewrite Hl0.
        cbn [pushed] in IH2, IH3 |- *.
        rewrite length_app in IH2 |- *.
        rewrite points_app, points_single in IH3. cbn [List.length] in IH3.
        rewrite length_app in IH3.
        rewrite points_app, points_single. cbn [List.length].
        destruct (Z.eq_dec 7 1); [done|]. simpl in IH2, IH3 |- *. lia.
    + injection Hrun as <-. rewrite !Nat.add_0_r. split; [|done].
      destruct (line d) as [l|]; simpl; [|done]. apply Forall_app. split; [done|].
      repeat constructor. congruence.
Qed.

(** When [loadGeometry] returns, no line of the result is empty, there are
    as many lines as moveTo commands were executed, and no more points than
    commands were executed. *)
Theorem loadGeometry_lines fuel (p : P) geometry result :
  loadGeometry fuel p geometry = Some (Normal result) ->
  let cmds := executed fuel (fst (init p geometry)) (snd (init p geometry)) in
  Forall (fun l => l ≠ []) result /\
  List.length result = count_occ Z.eq_dec cmds 1 /\
  (points result <= List.length cmds)%nat.
Proof.
  unfold loadGeometry. destruct (init p geometry) as [end_ d] eqn:Hinit. intros Hrun.
  assert (Hd : line d = None /\ lines d = []).
  { unfold init in Hinit. destruct (readVarint _). by injection Hinit as _ <-. }
  destruct Hd as [Hline Hlines].
  destruct (decode_loop_lines fuel end_ d result Hrun) as (H1 & H2 & H3);
    [by rewrite Hline|by rewrite Hlines|].
  rewrite Hline, Hlines in H2, H3. by split.
Qed.

End AnyReader.

Lemma loadGeometry_lines_witness :
  let p := mkTokenReader [10; 15; 9; 5; 5; 18; 1; 1; 2; 2; 15] 0 in
  exists result,
    loadGeometry 5 p 0 = Some (Normal result) /\
    executed 5 (fst (init p 0)) (snd (init p 0)) = [7; 1; 2; 2; 7] /\
    List.length result = 1%nat /\ (points result <= 5)%nat.
Proof.
  intros p.
  destruct (loadGeometry 5 p 0) as [[result| |]|] eqn:Hrun; [|lazy in Hrun; discriminate..].
  exists result. split; [reflexivity|].
  destruct (loadGeometry_lines 5 p 0 result Hrun) as (_ & Hn & Hp).
  assert (Hcmds : executed 5 (fst (init p 0)) (snd (init p 0)) = [7; 1; 2; 2; 7])
    by (lazy; reflexivity).
  rewrite Hcmds in Hn, Hp. by split.
Defined.

End Geometry.

(** * Rings and polygons *)

Module Rings.
Import JS MVT DecodeProps Geometry.
Local Open Scope Z_scope.

Lemma edge_term_swap a b : edge_term b a = - edge_term a b.
Proof. unfold edge_term. lia. Qed.

Lemma signedArea_loop_chain ring n : forall i j sum,
  (i + n = List.length ring)%nat ->
  signedArea_loop n ring i j sum
  = sum + chain_sum (default (0, 0) (ring !! j)) (drop i ring).
Proof.
  induction n as [|n IH]; intros i j sum Hn.
  - simpl. rewrite drop_ge by lia. simpl. lia.
  - cbn [signedArea_loop]. destruct (Nat.ltb_spec i (List.length ring)); [|lia].
    destruct (lookup_lt_is_Some_2 ring i) as [p1 Hp1]; [done|].
    rewrite (drop_S _ _ _ Hp1), IH by lia. rewrite Hp1. simpl. unfold edge_term. lia.
Qed.

(** The loop of [signedArea] adds up the edges of the ring and the edge
    that closes it. *)
Lemma signedArea_closed h t :
  signedArea (h :: t) = chain_sum h t + edge_term (List.last t h) h.
Proof.
  unfold signedArea. rewrite signedArea_loop_chain by lia. rewrite drop_0.
  assert (Hlast : (h :: t) !! (List.length (h :: t) - 1)%nat = Some (List.last t h)).
  { clear. revert h. induction t as [|b t IH]; intros h; [reflexivity|].
    specialize (IH b). rewrite last_cons. cbn [List.length] in IH |- *.
    replace (S (S (List.length t)) - 1)%nat with (S (S (List.length t) - 1)) by lia.
    exact IH. }
  rewrite Hlast. simpl. lia.
Qed.

Lemma chain_sum_app prev l z :
  chain_sum prev (l ++ [z]) = chain_sum prev l + edge_term (List.last l prev) z.
Proof.
  revert prev. induction l as [|a l IH]; intros prev; [simpl; lia|].
  rewrite last_cons. simpl. rewrite IH. lia.
Qed.

Lemma open_sum_rev l : open_sum (rev l) = - open_sum l.
Proof.
  destruct l as [|a l]; [done|]. revert a. induction l as [|b l IH]; intros a; [done|].
  change (rev (a :: b :: l)) with (rev (b :: l) ++ [a]).
  destruct (rev (b :: l)) as [|r0 rt] eqn:Hrev.
  { apply (f_equal (@List.length _)) in Hrev. rewrite length_rev in Hrev. done. }
  specialize (IH b). rewrite Hrev in IH. simpl in IH |- *. rewrite chain_sum_app, IH.
  assert (Hl : List.last rt r0 = b).
  { rewrite <- last_cons with (d := b). rewrite <- Hrev.
    change (rev (b :: l)) with (rev l ++ [b]). apply last_last. }
  rewrite Hl, (edge_term_swap a b). lia.
Qed.

(** Turning a ring round negates its signed area. *)
Theorem signedArea_rev ring : signedArea (rev ring) = - signedArea ring.
Proof.
  destruct ring as [|h t]; [done|].
  destruct (rev (h :: t)) as [|r0 rt] eqn:Hrev.
  { apply (f_equal (@List.length _)) in Hrev. rewrite length_rev in Hrev. done. }
  rewrite !signedArea_closed.
  pose proof (open_sum_rev (h :: t)) as Hsum. rewrite Hrev in Hsum. simpl in Hsum.
  assert (Hr0 : r0 = List.last t h).
  { apply (f_equal (@rev _)) in Hrev. rewrite rev_involutive in Hrev.
    rewrite <- last_cons with (d := h). rewrite Hrev. simpl. by rewrite last_last. }
  assert (Hl : List.last rt r0 = h).
  { rewrite <- last_cons with (d := h). rewrite <- Hrev.
    change (rev (h :: t)) with (rev t ++ [h]). apply last_last. }
  rewrite Hl, Hsum, <- Hr0, (edge_term_swap r0 h). lia.
Qed.

Lemma classify_classified seen st ring :
  classified seen st ->
  exists st', classify st ring = Normal st' /\ classified (seen ++ [ring]) st'.
Proof.
  intros [Hcat Hst]. unfold classify.
  destruct (Z.eqb_spec (signedArea ring) 0) as [H0|H0].
  { exists st. split; [done|]. split; [|done].
    rewrite filter_app, filter_cons, filter_nil, decide_False by (by intros ?).
    by rewrite app_nil_r. }
  assert (Hf : filter (fun r => signedArea r ≠ 0) (seen ++ [ring])
               = filter (fun r => signedArea r ≠ 0) seen ++ [ring]).
  { by rewrite filter_app, filter_cons, filter_nil, decide_True. }
  destruct (ccw st) as [w|] eqn:Hw.
  - destruct Hst as [[p Hp] Hok]. rewrite Hp in *. cbn [push_if] in *.
    destruct (Bool.eqb w (signedArea ring <? 0)) eqn:Heq.
    + apply Bool.eqb_prop in Heq. eexists. split; [reflexivity|].
      unfold classified. rewrite Hf. cbn. split.
      * by rewrite concat_app, Hcat.
      * split; [by eexists|]. apply Forall_app. split; [done|].
        repeat constructor; [done|by rewrite Heq].
    + apply Bool.eqb_false_iff in Heq. eexists. split; [reflexivity|].
      unfold classified. rewrite Hf. cbn.
      apply Forall_app in Hok as [Hok Hp']. apply Forall_inv in Hp'.
      rewrite concat_app in Hcat |- *. simpl in Hcat |- *.
      rewrite !app_nil_r in Hcat |- *. split.
      * by rewrite <- Hcat, <- app_assoc.
      * split; [by eexists|]. apply Forall_app. split; [done|]. apply Forall_singleton.
        destruct p as [|outer inner]; [done|]. destruct Hp' as (? & ? & Hin).
        split; [done|]. split; [done|]. apply Forall_app. split; [done|].
        apply Forall_singleton. split; [done|]. unfold winds_ccw.
        destruct w, (signedArea ring <? 0); done.
  - destruct Hst as [Hps Hp]. rewrite Hps, Hp in *. cbn [push_if] in *.
    rewrite Bool.eqb_reflx. eexists. split; [reflexivity|].
    unfold classified. rewrite Hf. cbn. split; [by rewrite <- Hcat|].
    split; [by eexists|]. by repeat constructor.
Qed.

Lemma classify_all_classified rings : forall seen st,
  classified seen st ->
  exists st', classify_all st rings = Normal st' /\ classified (seen ++ rings) st'.
Proof.
  induction rings as [|ring rings IH]; intros seen st Hst.
  - exists st. by rewrite app_nil_r.
  - destruct (classify_classified seen st ring Hst) as (st1 & Hc & Hst1).
    destruct (IH _ _ Hst1) as (st' & Hrun & Hst').
    exists st'. simpl. rewrite Hc. simpl. split; [done|]. by rewrite <- app_assoc in Hst'.
Qed.

(** [classifyRings] never throws.  Up to one ring is returned as it is, as
    one polygon.  Of more rings, those with an area other than 0 are kept, in
    their order, and cut into polygons: each begins with a ring of the
    winding of the first ring kept, and goes on with rings of the other
    winding. *)
Theorem classifyRings_polygons rings :
  exists polys,
    classifyRings rings = Normal polys /\
    ((List.length rings <= 1)%nat -> polys = [rings]) /\
    ((1 < List.length rings)%nat ->
     concat polys = filter (fun r => signedArea r ≠ 0) rings /\
     exists w, Forall (polygon_ok w) polys).
Proof.
  unfold classifyRings. destruct (Nat.leb_spec (List.length rings) 1) as [Hle|Hgt].
  - exists [rings]. split; [done|]. split; [done|lia].
  - destruct (classify_all_classified rings [] (mkClassifier [] None None))
      as (st & -> & Hcat & Hst); [by split|].
    eexists. split; [reflexivity|]. split; [lia|]. intros _. split; [exact Hcat|].
    destruct (ccw st) as [w|].
    + exists w. by destruct Hst.
    + exists true. destruct Hst as [-> ->]. constructor.
Qed.

(** Inside the tile: a point between 0 and the extent, in a tile of the
    zoom level [z] (at most 30), is scaled into the span of the tile in the
    world square, which lies between 0 and 1. *)
Theorem scaleToTilesize_span line x y z extent p q :
  (0 <= z <= 30)%Z -> (0 <= x < 2 ^ z)%Z -> (0 <= y < 2 ^ z)%Z ->
  (0 < extent)%Q ->
  p ∈ line -> (0 <= fst p <= extent)%Q -> (0 <= snd p <= extent)%Q ->
  q = (((inject_Z x + fst p / extent) / inject_Z (2 ^ z))%Q,
       ((inject_Z y + snd p / extent) / inject_Z (2 ^ z))%Q) ->
  q ∈ scaleToTilesize line x y z extent /\
  (inject_Z x / inject_Z (2 ^ z) <= fst q <= (inject_Z x + 1) / inject_Z (2 ^ z))%Q /\
  (inject_Z y / inject_Z (2 ^ z) <= snd q <= (inject_Z y + 1) / inject_Z (2 ^ z))%Q /\
  (0 <= fst q <= 1)%Q /\ (0 <= snd q <= 1)%Q.
Proof.
  intros Hz Hx Hy Hext Hp Hpx Hpy ->.
  assert (Hws : worldSize z = 2 ^ z).
  { unfold worldSize. rewrite Z.mod_small by lia. rewrite Z.shiftl_1_l.
    unfold to_int32. assert (2 ^ z <= 2 ^ 30) by (apply Z.pow_le_mono_r; lia).
    assert (0 < 2 ^ z) by (apply Z.pow_pos_nonneg; lia).
    rewrite Z.mod_small by lia. lia. }
  split.
  { unfold scaleToTilesize. rewrite Hws.
    apply list_elem_of_In, in_map_iff. exists p. split; [done|by apply list_elem_of_In]. }
  assert (Hpow : (0 < inject_Z (2 ^ z))%Q).
  { change 0%Q with (inject_Z 0). rewrite <- Zlt_Qlt. apply Z.pow_pos_nonneg; lia. }
  assert (Hx1 : (inject_Z x + 1 <= inject_Z (2 ^ z))%Q).
  { change 1%Q with (inject_Z 1). rewrite <- inject_Z_plus, <- Zle_Qle. lia. }
  assert (Hy1 : (inject_Z y + 1 <= inject_Z (2 ^ z))%Q).
  { change 1%Q with (inject_Z 1). rewrite <- inject_Z_plus, <- Zle_Qle. lia. }
  assert (Hx0 : (0 <= inject_Z x)%Q) by (change 0%Q with (inject_Z 0); rewrite <- Zle_Qle; lia).
  assert (Hy0 : (0 <= inject_Z y)%Q) by (change 0%Q with (inject_Z 0); rewrite <- Zle_Qle; lia).
  assert (Hfrac : forall v : Q, (0 <= v <= extent)%Q -> (0 <= v / extent <= 1)%Q).
  { intros v [Hv0 Hv1]. split.
    - apply Qle_shift_div_l; [done|]. lra.
    - apply Qle_shift_div_r; [done|]. lra. }
  destruct (Hfrac _ Hpx) as [Hfx0 Hfx1]. destruct (Hfrac _ Hpy) as [Hfy0 Hfy1].
  set (fx := (fst p / extent)%Q) in *. set (fy := (snd p / extent)%Q) in *.
  set (w := inject_Z (2 ^ z)) in *. simpl.
  assert (Hdiv : forall a b : Q, (a <= b)%Q -> (a / w <= b / w)%Q).
  { intros a b Hab. apply Qle_shift_div_l; [done|].
    unfold Qdiv. rewrite <- Qmult_assoc, (Qmult_comm (/ w)), Qmult_inv_r by lra. lra. }
  assert (Hone : forall a : Q, (a <= w)%Q -> (a / w <= 1)%Q).
  { intros a Ha. apply Qle_shift_div_r; [done|]. lra. }
  assert (Hzero : forall a : Q, (0 <= a)%Q -> (0 <= a / w)%Q).
  { intros a Ha. apply Qle_shift_div_l; [done|]. lra. }
  repeat split; first [apply Hdiv; lra|apply Hone; lra|apply Hzero; lra].
Qed.

Lemma scaleToTilesize_span_witness :
  let q := (((inject_Z 1 + 2048 / 4096) / inject_Z (2 ^ 2))%Q,
            ((inject_Z 2 + 1024 / 4096) / inject_Z (2 ^ 2))%Q) in
  q ∈ scaleToTilesize [(2048, 1024)%Q] 1 2 2 4096 /\
  (0 <= fst q <= 1)%Q /\ (0 <= snd q <= 1)%Q.
Proof.
  intros q.
  destruct (scaleToTilesize_span [(2048, 1024)%Q] 1 2 2 4096 (2048, 1024)%Q q)
    as (Hin & _ & _ & Hx & Hy);
    [lia|simpl; lia|simpl; lia|reflexivity|apply list_elem_of_here
    |simpl; split; discriminate|simpl; split; discriminate|reflexivity|].
  by split.
Defined.

(** A square and, inside it, a square of the other winding, with a
    degenerate ring between them: one polygon of two rings. *)
Example classifyRings_hole :
  let outer := [(0, 0); (10, 0); (10, 10); (0, 10); (0, 0)] in
  let flat := [(1, 1); (2, 2); (1, 1)] in
  let inner := [(2, 2); (2, 4); (4, 4); (4, 2); (2, 2)] in
  classifyRings [outer; flat; inner] = Normal [[outer; inner]] /\
  classifyRings [flat] = Normal [[flat]] /\
  classifyRings [flat; flat] = Normal [].
Proof. repeat split. Qed.

End Rings.

(** * The task of the preprocessor *)

Module Task.
Import JS MVT DecodeProps .
Local Open Scope Z_scope.

Section WithFeatures.
Context {P : Type} `{PbfReader P} {Triangles BBoxT : Type}.
Variable types : Z -> option string.
Variable bbox_of : Bounds -> Z -> Z -> Z -> BBoxT.
Variable fuel : nat.

Abbreviation convert := (convert_features (Triangles := Triangles) types bbox_of fuel).
Abbreviation left_to_convert := (to_convert (Triangles := Triangles) types bbox_of fuel).

Lemma convert_features_length xyz L X rest : forall f guid added e,
  convert xyz L X rest f guid = (added, e) ->
  (List.length added <= List.length rest)%nat /\
  (e = Done -> List.length added = List.length rest).
Proof.
  induction rest as [|vt rest IH]; intros f guid added e; cbn [convert_features List.length].
  - intros [= <- <-]. auto.
  - destruct (vtFeatureToGeoJSON (Triangles := Triangles) types bbox_of fuel vt _ _) as [[g|msg|]|];
      [|intros [= <- <-]; simpl; split; [lia|done]..].
    destruct (convert xyz L X rest (S f) (guid + 1)) as [l e'] eqn:Hrest.
    intros [= <- <-]. destruct (IH _ _ _ _ Hrest) as [Hle Hdone]. simpl.
    split; [lia|]. intros He. rewrite Hdone by done. done.
Qed.

Lemma convert_features_app xyz L X r1 r2 : forall f guid,
  convert xyz L X (r1 ++ r2) f guid =
  match convert xyz L X r1 f guid with
  | (a1, Done) =>
      let '(a2, e) := convert xyz L X r2 (f + List.length r1)
                        (guid + Z.of_nat (List.length r1)) in
      (a1 ++ a2, e)
  | stopped => stopped
  end.
Proof.
  induction r1 as [|vt r1 IH]; intros f guid.
  - cbn [app convert_features List.length]. rewrite Nat.add_0_r, Z.add_0_r.
    by destruct (convert _ _ _ _ _ _).
  - cbn [app convert_features List.length].
    destruct (vtFeatureToGeoJSON (Triangles := Triangles) types bbox_of fuel vt _ _) as [[g|msg|]|]; [|done..].
    rewrite IH. destruct (convert xyz L X r1 (S f) (guid + 1)) as [a1 [| | |]]; [|done..].
    replace (S f + List.length r1)%nat with (f + S (List.length r1))%nat by lia.
    replace (guid + 1 + Z.of_nat (List.length r1)) with (guid + Z.of_nat (S (List.length r1)))
      by lia.
    by destruct (convert xyz L X r2 _ _).
Qed.

Lemma succ_mod_16 (f : nat) :
  ((S f) mod 16 ≠ 0 -> (S f) mod 16 = S (f mod 16))%nat /\
  ((S f) mod 16 = 0 -> f mod 16 = 15)%nat.
Proof.
  pose proof (Nat.div_mod_eq f 16). pose proof (Nat.div_mod_eq (S f) 16).
  pose proof (Nat.mod_upper_bound f 16). pose proof (Nat.mod_upper_bound (S f) 16).
  split; intros; nia.
Qed.

(** The inner loop from [f] on converts the features up to the next index
    that is a multiple of 16, or up to the end of the layer, and stops before
    the first that is not converted. *)
Lemma bundle_spec xyz L X rest : forall f guid geojson added e,
  convert xyz L X (take (16 - f mod 16) rest) f guid = (added, e) ->
  bundle types bbox_of fuel L X (xyz, name L) rest f guid geojson =
    (fun c => (c, (f + List.length added)%nat, guid + Z.of_nat (List.length added),
               geojson ++ added))
    <$> ended e (16 - f mod 16 <=? List.length rest)%nat.
Proof.
  induction rest as [|vt rest IH]; intros f guid geojson added e.
  - rewrite take_nil. cbn [convert_features bundle]. intros [= <- <-].
    pose proof (Nat.mod_upper_bound f 16 ltac:(lia)) as Hf.
    destruct (Nat.leb_spec (16 - f mod 16) (@List.length (VTFeature P) [])) as [Hle|_];
      [cbn [List.length] in Hle; lia|].
    cbn [ended fmap option_fmap option_map List.length].
    by rewrite Nat.add_0_r, Z.add_0_r, app_nil_r.
  - pose proof (Nat.mod_upper_bound f 16 ltac:(lia)) as Hf.
    destruct (succ_mod_16 f) as [Hne Heq].
    destruct (16 - f mod 16)%nat as [|j] eqn:Hj; [lia|].
    cbn [take convert_features bundle]. unfold BUNDLE_FEATURE_SIZE.
    destruct (vtFeatureToGeoJSON (Triangles := Triangles) types bbox_of fuel vt _ _)
      as [[g|msg|]|].
    2,3: intros [= <- <-]; cbn [ended fmap option_fmap option_map List.length];
         by rewrite Nat.add_0_r, Z.add_0_r, app_nil_r.
    2: by intros [= <- <-].
    destruct (Nat.eqb_spec (S f mod 16) 0) as [H0|H0].
    + specialize (Heq H0). assert (j = 0)%nat as -> by lia. rewrite take_0.
      cbn [convert_features]. intros [= <- <-].
      cbn [ended fmap option_fmap option_map List.length].
      replace (1 <=? S (List.length rest))%nat with true by done.
      repeat f_equal; lia.
    + specialize (Hne H0).
      assert (Hj' : j = (16 - S f mod 16)%nat) by lia. rewrite Hj'.
      destruct (convert xyz L X (take (16 - S f mod 16) rest) (S f) (guid + 1))
        as [l e'] eqn:Hrest.
      intros [= <- <-]. rewrite (IH _ _ _ _ _ Hrest).
      cbn [List.length]. rewrite <- app_assoc. cbn [app].
      replace (S f + List.length l)%nat with (f + S (List.length l))%nat by lia.
      replace (guid + 1 + Z.of_nat (List.length l)) with (guid + Z.of_nat (S (List.length l)))
        by lia.
      replace (S (16 - S f mod 16) <=? S (List.length rest))%nat
        with (16 - S f mod 16 <=? List.length rest)%nat by done.
      done.
Qed.

Lemma to_convert_next (data : TaskData P Triangles BBoxT) guid geojson :
  left_to_convert
    (mkTaskData (task_xyz data) (task_layers data) (task_triangles data) (S (task_l data)) 0
       geojson) guid
  = convert_layers types bbox_of fuel (task_xyz data) (task_triangles data)
      (drop (S (task_l data)) (task_layers data)) (S (task_l data)) guid.
Proof.
  unfold to_convert. cbn [task_l task_f task_layers task_xyz task_triangles].
  destruct (drop (S (task_l data)) (task_layers data)) as [|L2 rest2]; [done|].
  cbn [convert_layers]. by rewrite drop_0.
Qed.

Lemma exec_step (data : TaskData P Triangles BBoxT) guid L added e :
  task_layers data !! task_l data = Some L ->
  convert (task_xyz data) L (task_triangles data !! task_l data)
    (take (16 - task_f data mod 16) (drop (task_f data) (features L))) (task_f data) guid
    = (added, e) ->
  exists data',
    exec types bbox_of fuel data guid
      = (fun c => (c, data', guid + Z.of_nat (List.length added))) <$> ended e CONTINUE /\
    task_geojson data' = task_geojson data ++ added /\
    (e = Done ->
       left_to_convert data guid
         = (added ++ (left_to_convert data' (guid + Z.of_nat (List.length added))).1,
            (left_to_convert data' (guid + Z.of_nat (List.length added))).2) /\
       (calls_left data' < calls_left data)%nat) /\
    (e ≠ Done ->
       left_to_convert data guid = (added, e) /\
       task_l data' = task_l data /\ task_f data' = task_f data).
Proof.
  intros HL Hconv. unfold exec. rewrite HL.
  set (todo := drop (task_f data) (features L)) in *.
  set (X := task_triangles data !! task_l data) in *.
  rewrite (bundle_spec _ _ _ _ _ _ (task_geojson data) _ _ Hconv).
  pose proof (Nat.mod_upper_bound (task_f data) 16 ltac:(lia)) as Hf.
  set (k := (16 - task_f data mod 16)%nat) in *.
  assert (Hdrop : drop (task_l data) (task_layers data)
                  = L :: drop (S (task_l data)) (task_layers data)) by (by apply drop_S).
  assert (Htodo : List.length todo = (List.length (features L) - task_f data)%nat)
    by (unfold todo; apply length_drop).
  assert (Hall : convert (task_xyz data) L X todo (task_f data) guid =
            match e with
            | Done =>
                let '(a2, e2) := convert (task_xyz data) L X (drop k todo)
                                   (task_f data + List.length (take k todo))
                                   (guid + Z.of_nat (List.length (take k todo))) in
                (added ++ a2, e2)
            | _ => (added, e)
            end).
  { rewrite <- (take_drop k todo) at 1. rewrite convert_features_app, Hconv.
    by destruct e. }
  destruct (convert_features_length _ _ _ _ _ _ _ _ Hconv) as [Hle Hlen].
  destruct e as [|msg| |].
  - specialize (Hlen eq_refl). rewrite <- Hlen in Hall.
    cbn [ended fmap option_fmap option_map].
    destruct (Nat.leb_spec k (List.length todo)) as [Hk|Hk].
    + eexists. split; [reflexivity|]. cbn [task_geojson]. split; [done|].
      split; [|done]. intros _. split.
      * unfold to_convert at 1. cbn [task_l task_f task_layers task_xyz task_triangles].
        rewrite Hdrop. fold todo. fold X. rewrite Hall.
        unfold to_convert. cbn [task_l task_f task_layers task_xyz task_triangles].
        rewrite Hdrop. fold X.
        assert (Hd : drop (task_f data + List.length added) (features L) = drop k todo).
        { unfold todo. rewrite drop_drop. f_equal. rewrite Hlen, length_take. lia. }
        rewrite Hd.
        destruct (convert (task_xyz data) L X (drop k todo) _ _) as [a2 [| | |]];
          cbn [fst snd]; [|done..].
        rewrite length_app, Nat2Z.inj_add, Z.add_assoc.
        destruct (convert_layers _ _ _ _ _ _ _ _) as [more e']. cbn [fst snd].
        by rewrite app_assoc.
      * unfold calls_left. cbn [task_l task_f task_layers]. rewrite Hdrop.
        rewrite length_take in Hlen. lia.
    + eexists. split; [reflexivity|]. cbn [task_geojson]. split; [done|].
      split; [|done]. intros _.
      assert (Htake : take k todo = todo) by (apply take_ge; lia).
      rewrite Htake in Hlen.
      assert (Hdk : drop k todo = []) by (apply drop_ge; lia).
      rewrite Hdk in Hall. cbn [convert_features] in Hall. rewrite app_nil_r in Hall.
      split.
      * rewrite to_convert_next.
        unfold to_convert. cbn [task_l task_f task_layers task_xyz task_triangles].
        rewrite Hdrop. fold todo. fold X. rewrite Hall.
        by destruct (convert_layers _ _ _ _ _ _ _ _) as [more e'].
      * unfold calls_left. cbn [task_l task_f task_layers]. rewrite Hdrop.
        destruct (drop (S (task_l data)) (task_layers data)) as [|L2 rest2];
          [cbn [List.length]; lia|].
        cbn [map concat List.length]. rewrite length_app. lia.
  - cbn [ended fmap option_fmap option_map]. eexists. split; [reflexivity|].
    split; [done|]. split; [done|]. intros _. split; [|done].
    unfold to_convert. rewrite Hdrop. fold todo. fold X. by rewrite Hall.
  - cbn [ended fmap option_fmap option_map]. eexists. split; [reflexivity|].
    split; [done|]. split; [done|]. intros _. split; [|done].
    unfold to_convert. rewrite Hdrop. fold todo. fold X. by rewrite Hall.
  - cbn [ended fmap option_fmap option_map]. exists
      (mkTaskData (task_xyz data) (task_layers data) (task_triangles data) (task_l data)
         (task_f data) (task_geojson data ++ added)).
    split; [done|]. split; [done|]. split; [done|]. intros _. split; [|done].
    unfold to_convert. rewrite Hdrop. fold todo. fold X. by rewrite Hall.
Qed.

Lemma convert_features_ids xyz L X rest : forall f guid added e,
  convert xyz L X rest f guid = (added, e) ->
  map id added
  = map (fun i : nat => Some (guid + 1 + Z.of_nat i)) (seq 0 (List.length added)).
Proof.
  induction rest as [|vt rest IH]; intros f guid added e; cbn [convert_features].
  - by intros [= <- <-].
  - destruct (vtFeatureToGeoJSON (Triangles := Triangles) types bbox_of fuel vt _ _)
      as [[g|msg|]|]; [|by intros [= <- <-]..].
    destruct (convert xyz L X rest (S f) (guid + 1)) as [l e'] eqn:Hrest.
    intros [= <- <-]. cbn [List.length seq map]. unfold complete at 1. cbn [id].
    rewrite (IH _ _ _ _ Hrest). f_equal; [f_equal; lia|].
    rewrite <- seq_shift, map_map. apply map_ext. intros i. f_equal. lia.
Qed.

Lemma set_default_is_Some key key' value (properties : gmap string Value) :
  key = key' \/ is_Some (properties !! key) ->
  is_Some (set_default key' value properties !! key).
Proof.
  unfold set_default. intros Hk. destruct (properties !! key') as [v|] eqn:Hv.
  - destruct Hk as [->|Hk]; [by eexists|done].
  - destruct (decide (key = key')) as [->|Hne]; [rewrite lookup_insert_eq; by eexists|].
    rewrite lookup_insert_ne by done. by destruct Hk.
Qed.

Lemma convert_features_layer xyz L X rest : forall f guid added e,
  convert xyz L X rest f guid = (added, e) ->
  Forall (fun feature =>
            is_Some (properties feature !! "layer"%string) /\
            is_Some (properties feature !! "$layer"%string)) added.
Proof.
  induction rest as [|vt rest IH]; intros f guid added e; cbn [convert_features].
  - intros [= <- <-]. constructor.
  - destruct (vtFeatureToGeoJSON (Triangles := Triangles) types bbox_of fuel vt _ _)
      as [[g|msg|]|]; [|intros [= <- <-]; constructor..].
    destruct (convert xyz L X rest (S f) (guid + 1)) as [l e'] eqn:Hrest.
    intros [= <- <-]. constructor; [|by eapply IH]. unfold complete. cbn [properties].
    split.
    + apply set_default_is_Some. right. apply set_default_is_Some. by left.
    + apply set_default_is_Some. by left.
Qed.

Lemma seq_from k n : seq k n = map (Nat.add k) (seq 0 n).
Proof.
  induction k as [|k IH].
  - symmetry. erewrite map_ext; [apply map_id|]. intros a. reflexivity.
  - rewrite <- seq_shift, IH, map_map. apply map_ext. intros a. reflexivity.
Qed.

Lemma ids_app (a b : list (GeoJsonFeature Triangles BBoxT)) guid :
  map id a = map (fun i : nat => Some (guid + 1 + Z.of_nat i)) (seq 0 (List.length a)) ->
  map id b = map (fun i : nat => Some (guid + Z.of_nat (List.length a) + 1 + Z.of_nat i))
               (seq 0 (List.length b)) ->
  map id (a ++ b)
  = map (fun i : nat => Some (guid + 1 + Z.of_nat i)) (seq 0 (List.length (a ++ b))).
Proof.
  intros Ha Hb. rewrite length_app, seq_app, !map_app, Ha, Hb. f_equal.
  rewrite Nat.add_0_l, (seq_from (List.length a)), map_map. apply map_ext.
  intros i. f_equal. lia.
Qed.

Lemma convert_layers_ids xyz triangles layers :
  forall l guid (converted : list (GeoJsonFeature Triangles BBoxT)) e,
  convert_layers types bbox_of fuel xyz triangles layers l guid = (converted, e) ->
  map id converted
  = map (fun i : nat => Some (guid + 1 + Z.of_nat i)) (seq 0 (List.length converted)).
Proof.
  induction layers as [|L layers IH]; intros l guid converted e; cbn [convert_layers].
  - by intros [= <- <-].
  - destruct (convert xyz L (triangles !! l) (features L) 0%nat guid) as [c e1] eqn:Hc.
    pose proof (convert_features_ids _ _ _ _ _ _ _ _ Hc) as Hids.
    destruct e1 as [|msg| |]; [|by intros [= <- <-]..].
    destruct (convert_layers types bbox_of fuel xyz triangles layers (S l)
                (guid + Z.of_nat (List.length c))) as [more e'] eqn:Hmore.
    intros [= <- <-]. apply ids_app; [exact Hids|]. by eapply IH.
Qed.

Lemma to_convert_ids (data : TaskData P Triangles BBoxT) guid
    (converted : list (GeoJsonFeature Triangles BBoxT)) e :
  left_to_convert data guid = (converted, e) ->
  map id converted
  = map (fun i : nat => Some (guid + 1 + Z.of_nat i)) (seq 0 (List.length converted)).
Proof.
  unfold to_convert. destruct (drop (task_l data) (task_layers data)) as [|L layers].
  - by intros [= <- <-].
  - destruct (convert (task_xyz data) L (task_triangles data !! task_l data)
                (drop (task_f data) (features L)) (task_f data) guid) as [c e1] eqn:Hc.
    pose proof (convert_features_ids _ _ _ _ _ _ _ _ Hc) as Hids.
    destruct e1 as [|msg| |]; [|by intros [= <- <-]..].
    destruct (convert_layers types bbox_of fuel (task_xyz data) (task_triangles data) layers
                (S (task_l data)) (guid + Z.of_nat (List.length c))) as [more e'] eqn:Hmore.
    intros [= <- <-]. apply ids_app; [exact Hids|]. by eapply convert_layers_ids.
Qed.

(** The run of [drive], by induction on the calls that are left. *)
Lemma drive_run steps : forall (data : TaskData P Triangles BBoxT) guid converted e,
  (calls_left data <= steps)%nat ->
  left_to_convert data guid = (converted, e) ->
  exists data',
    drive types bbox_of fuel steps data guid
      = (fun c => (c, data', guid + Z.of_nat (List.length converted))) <$> ended e tt /\
    task_geojson data' = task_geojson data ++ converted.
Proof.
  induction steps as [|steps IH]; intros data guid converted e Hsteps Hleft.
  - unfold calls_left in Hsteps. destruct (drop _ _); lia.
  - cbn [drive]. destruct (task_layers data !! task_l data) as [L|] eqn:HL.
    + destruct (convert (task_xyz data) L (task_triangles data !! task_l data)
                  (take (16 - task_f data mod 16) (drop (task_f data) (features L)))
                  (task_f data) guid) as [added e1] eqn:Hconv.
      destruct (exec_step data guid L added e1 HL Hconv)
        as (data1 & -> & Hgeo & Hdone & Hstop).
      destruct e1 as [|msg| |].
      * destruct (Hdone eq_refl) as [Hsplit Hcalls].
        cbn [ended fmap option_fmap option_map].
        destruct (left_to_convert data1 (guid + Z.of_nat (List.length added)))
          as [more e'] eqn:Hmore.
        rewrite Hleft in Hsplit. cbn [fst snd] in Hsplit. injection Hsplit as -> ->.
        destruct (IH data1 _ more e' ltac:(lia) Hmore) as (data' & -> & Hgeo').
        exists data'. rewrite Hgeo', Hgeo, length_app, <- app_assoc. split; [|done].
        rewrite Nat2Z.inj_add, Z.add_assoc. done.
      * destruct (Hstop ltac:(done)) as (Hall & _). rewrite Hleft in Hall.
        injection Hall as -> ->. exists data1. by split.
      * destruct (Hstop ltac:(done)) as (Hall & _). rewrite Hleft in Hall.
        injection Hall as -> ->. exists data1. by split.
      * destruct (Hstop ltac:(done)) as (Hall & _). rewrite Hleft in Hall.
        injection Hall as -> ->. exists data1. by split.
    + assert (Hnone : left_to_convert data guid = ([], Done)).
      { unfold to_convert. rewrite drop_ge; [done|]. by apply lookup_ge_None. }
      rewrite Hleft in Hnone. injection Hnone as -> ->.
      unfold exec. rewrite HL. exists data. cbn [ended fmap option_fmap option_map List.length].
      rewrite Z.add_0_r, app_nil_r. by split.
Qed.
(** One call of [exec].  Past the last layer it returns [BREAK] and changes
    nothing.  Otherwise it converts the features of the layer from [data.f]
    on, up to the next index that is a multiple of 16 or to the end of the
    layer, and stops before the first feature [vtFeatureToGeoJSON] does not
    convert.  The features converted, at most 16, are appended to [geojson]
    with the ids [guid + 1], [guid + 2], ... and with the properties [layer]
    and [$layer] set.  When all were converted [exec] returns [CONTINUE], and
    what it has converted and what is left are together what was left before;
    when one made [vtFeatureToGeoJSON] throw, [exec] throws the same, and
    [data.l] and [data.f] are as before while [geojson] and [guid] keep what
    was done. *)
Theorem exec_bundle (data : TaskData P Triangles BBoxT) guid :
  (task_layers data !! task_l data = None ->
     exec types bbox_of fuel data guid = Some (Normal BREAK, data, guid)) /\
  (forall L added e,
     task_layers data !! task_l data = Some L ->
     convert (task_xyz data) L (task_triangles data !! task_l data)
       (take (16 - task_f data mod 16) (drop (task_f data) (features L))) (task_f data) guid
       = (added, e) ->
     exists data',
       exec types bbox_of fuel data guid
         = (fun c => (c, data', guid + Z.of_nat (List.length added))) <$> ended e CONTINUE /\
       task_geojson data' = task_geojson data ++ added /\
       (List.length added <= 16)%nat /\
       map id added
         = map (fun i : nat => Some (guid + 1 + Z.of_nat i)) (seq 0 (List.length added)) /\
       Forall (fun feature =>
                 is_Some (properties feature !! "layer"%string) /\
                 is_Some (properties feature !! "$layer"%string)) added /\
       (e = Done ->
          left_to_convert data guid
            = (added ++ (left_to_convert data' (guid + Z.of_nat (List.length added))).1,
               (left_to_convert data' (guid + Z.of_nat (List.length added))).2)) /\
       (e ≠ Done ->
          left_to_convert data guid = (added, e) /\
          task_l data' = task_l data /\ task_f data' = task_f data)).
Proof.
  split; [intros Hl; unfold exec; by rewrite Hl|]. intros L added e HL Hconv.
  destruct (exec_step data guid L added e HL Hconv) as (data' & Hexec & Hgeo & Hdone & Hstop).
  exists data'. split; [exact Hexec|]. split; [exact Hgeo|].
  split.
  { destruct (convert_features_length _ _ _ _ _ _ _ _ Hconv) as [Hle _].
    rewrite length_take in Hle. lia. }
  split; [by eapply convert_features_ids|]. split; [by eapply convert_features_layer|].
  split; [intros He; by apply Hdone|exact Hstop].
Qed.

(** Driven until [BREAK], the task ends within [calls_left] calls of [exec].
    When [vtFeatureToGeoJSON] converts every feature that is left, the task
    ends normally and has appended them all to [geojson], those of a layer in
    their order and the layers in theirs, each converted once.  When a feature
    makes it throw, the task throws the same and never reaches [BREAK]:
    [geojson] then holds the features before that one.  Either way the
    features appended have the ids [guid + 1], [guid + 2], ... and [guid] has
    counted them. *)
Theorem drive_all steps (data : TaskData P Triangles BBoxT) guid
    (converted : list (GeoJsonFeature Triangles BBoxT)) e :
  (calls_left data <= steps)%nat ->
  left_to_convert data guid = (converted, e) ->
  exists data',
    drive types bbox_of fuel steps data guid
      = (fun c => (c, data', guid + Z.of_nat (List.length converted))) <$> ended e tt /\
    task_geojson data' = task_geojson data ++ converted /\
    map id converted
      = map (fun i : nat => Some (guid + 1 + Z.of_nat i)) (seq 0 (List.length converted)).
Proof.
  intros Hsteps Hleft.
  destruct (drive_run steps data guid converted e Hsteps Hleft) as (data' & Hrun & Hgeo).
  exists data'. split; [exact Hrun|]. split; [exact Hgeo|]. by eapply to_convert_ids.
Qed.

End WithFeatures.

(** A point feature whose geometry is one [moveTo], and a feature whose
    geometry has the unknown command 3. *)
Lemma exec_bundle_witness :
  let types := fun t : Z => if t =? 1 then Some "Point"%string else None in
  let bbox_of := fun (_ : Bounds) (_ _ _ : Z) => tt in
  let good := mkVTFeature 1 4096 ∅ None (mkTokenReader [3; 9; 1; 1] 0) 0 in
  let bad := mkVTFeature 1 4096 ∅ None (mkTokenReader [1; 3] 0) 0 in
  let data := mkTaskData (Triangles := unit) (1, 2, 3) [mkVTLayer "roads" [good; good; bad; good]]
                [] 0 0 [] in
  exists data',
    exec types bbox_of 10 data 100 = Some (Throw "unknown command 3", data', 102) /\
    task_l data' = 0%nat /\ task_f data' = 0%nat /\
    map id (task_geojson data') = [Some 101; Some 102].
Proof.
  intros types bbox_of good bad data.
  destruct (exec_bundle types bbox_of 10 data 100) as [_ Hexec].
  destruct (convert_features (Triangles := unit) types bbox_of 10 (1, 2, 3)
              (mkVTLayer "roads" [good; good; bad; good])
              None (take (16 - 0 mod 16) (drop 0 [good; good; bad; good])) 0 100)
    as [added e] eqn:Hconv.
  destruct (Hexec _ added e eq_refl Hconv) as (data' & Hrun & Hgeo & _ & Hids & _ & _ & Hstop).
  vm_compute in Hconv. injection Hconv as <- <-.
  exists data'. split; [exact Hrun|].
  destruct (Hstop ltac:(done)) as (_ & Hl & Hf).
  split; [exact Hl|]. split; [exact Hf|]. rewrite Hgeo. exact Hids.
Defined.

Lemma drive_all_witness :
  let types := fun t : Z => if t =? 1 then Some "Point"%string else None in
  let bbox_of := fun (_ : Bounds) (_ _ _ : Z) => tt in
  let good := mkVTFeature 1 4096 ∅ None (mkTokenReader [3; 9; 1; 1] 0) 0 in
  let bad := mkVTFeature 1 4096 ∅ None (mkTokenReader [1; 3] 0) 0 in
  let data := mkTaskData (Triangles := unit) (1, 2, 3)
                [mkVTLayer "roads" (replicate 17 good); mkVTLayer "water" [good]] [] 0 0 [] in
  let broken := mkTaskData (Triangles := unit) (1, 2, 3)
                  [mkVTLayer "roads" (replicate 17 good); mkVTLayer "water" [bad; good]]
                  [] 0 0 [] in
  (exists data',
     drive types bbox_of 10 22 data 100 = Some (Normal tt, data', 118) /\
     List.length (task_geojson data') = 18%nat) /\
  (exists data',
     drive types bbox_of 10 23 broken 100 = Some (Throw "unknown command 3", data', 117) /\
     List.length (task_geojson data') = 17%nat).
Proof.
  intros types bbox_of good bad data broken. split.
  - destruct (to_convert (Triangles := unit) types bbox_of 10 data 100) as [converted e] eqn:Hleft.
    destruct (drive_all types bbox_of 10 22 data 100 converted e) as (data' & Hrun & Hgeo & _);
      [vm_compute; lia|exact Hleft|].
    vm_compute in Hleft. injection Hleft as <- <-.
    exists data'. split; [exact Hrun|]. rewrite Hgeo. reflexivity.
  - destruct (to_convert (Triangles := unit) types bbox_of 10 broken 100) as [converted e] eqn:Hleft.
    destruct (drive_all types bbox_of 10 23 broken 100 converted e) as (data' & Hrun & Hgeo & _);
      [vm_compute; lia|exact Hleft|].
    vm_compute in Hleft. injection Hleft as <- <-.
    exists data'. split; [exact Hrun|]. rewrite Hgeo. reflexivity.
Defined.

End Task.

(** * The world position of a candidate *)

Module World.
Import JS Collision Props Folding.
Local Open Scope Q_scope.

(** Aligning a tile of size 256 to the grid of 512 does not move the
    candidate: whatever the tile size, the box of a candidate without slope
    is centred at the anchor, counted from the origin of the tile in world
    pixels ([tile.x * tileSize]), plus the offset, and its half sizes are
    those given plus the 4 pixels of the box buffer. *)
Theorem insert_world_box cx cy cz ox oy hw hh tile ts prio :
  (0 <= x tile < 2 ^ 32)%Z -> (0 <= y tile < 2 ^ 32)%Z ->
  exists b,
    boxes (insert_data cx cy cz ox oy hw hh tile ts prio None) = [b] /\
    centre_x b == inject_Z (x tile * ts) + ox + cx /\
    centre_y b == inject_Z (y tile * ts) + oy + cy /\
    half_extent_x b == hw + 4 /\ half_extent_y b == hh + 4.
Proof.
  intros Hx Hy. unfold insert_data. cbv zeta. eexists. split; [reflexivity|].
  unfold centre_x, centre_y, half_extent_x, half_extent_y, boxBuffer.
  cbn [minX maxX minY maxY].
  destruct (Z.eqb_spec ts 256) as [->|Hts].
  - pose proof (parent_grid (x tile) Hx) as Px. pose proof (parent_grid (y tile) Hy) as Py.
    assert (Ex : inject_Z (half_trunc (x tile) * (256 * 2)) + inject_Z (rem2 (x tile) * 256)
                 == inject_Z (x tile * 256)).
    { rewrite <- inject_Z_plus. apply inject_Z_injective. lia. }
    assert (Ey : inject_Z (half_trunc (y tile) * (256 * 2)) + inject_Z (rem2 (y tile) * 256)
                 == inject_Z (y tile * 256)).
    { rewrite <- inject_Z_plus. apply inject_Z_injective. lia. }
    set (a := inject_Z (half_trunc (x tile) * (256 * 2))) in *.
    set (a' := inject_Z (rem2 (x tile) * 256)) in *.
    set (b := inject_Z (half_trunc (y tile) * (256 * 2))) in *.
    set (b' := inject_Z (rem2 (y tile) * 256)) in *.
    repeat split; try (rewrite <- Ex); try (rewrite <- Ey); field.
  - repeat split; field.
Qed.

Lemma insert_world_box_witness :
  exists b,
    boxes (insert_data 10 20 0 1 2 5 6 (mkTile "123" 5 3 3) 256 None None) = [b] /\
    centre_x b == 1291 /\ centre_y b == 790.
Proof.
  destruct (insert_world_box 10 20 0 1 2 5 6 (mkTile "123" 5 3 3) 256 None)
    as (b & Hb & Hx & Hy & _); [simpl; lia|simpl; lia|].
  exists b. split; [exact Hb|]. split; [rewrite Hx|rewrite Hy]; reflexivity.
Defined.

End World.

(** * Phase 1 does not look at priorities *)

Module FirstCome.
Import JS Collision Props Phase1.
Local Open Scope Q_scope.

Lemma insert_data_boxes cx cy cz ox oy hw hh tile ts prio prio' sl :
  boxes (insert_data cx cy cz ox oy hw hh tile ts prio' sl)
  = boxes (insert_data cx cy cz ox oy hw hh tile ts prio sl).
Proof.
  unfold insert_data. cbv zeta. destruct sl as [sl|]; [|reflexivity].
  by destruct (chain_array _ _ _) as [[n|]| |].
Qed.

Lemma intersects_boxes (c c' : CollisionData) (l l' : list CollisionData) :
  boxes c' = boxes c -> Forall2 (fun d d' => boxes d' = boxes d) l l' ->
  intersects c' l' = intersects c l.
Proof.
  intros Hc Hl. unfold intersects, boxes_of, CollisionData_boxes.
  induction Hl as [|d d' l l' Hd Hl IH]; [done|]. simpl. by rewrite IH, Hd, Hc.
Qed.

Lemma intersects_existing_boxes (c c' : CollisionData) E :
  boxes c' = boxes c -> intersects_existing c' E = intersects_existing c E.
Proof.
  intros Hc. unfold intersects_existing. induction (map_to_list E) as [|e l IH]; [done|].
  simpl. rewrite IH. f_equal. apply intersects_boxes; [done|].
  clear. induction (snd e); by constructor.
Qed.

Lemma insert_all_boxes calls : forall calls' h h' cur cur' results hA,
  Forall2 (fun c c' => exists p, c' = with_priority p c) calls calls' ->
  curLayerTileCollision h = Some cur -> curLayerTileCollision h' = Some cur' ->
  same_boxes cur cur' ->
  insert_all calls h = Normal (results, hA) ->
  exists results' hA',
    insert_all calls' h' = Normal (results', hA') /\
    Forall2 (fun r r' => boxes <$> r' = boxes <$> r) results results'.
Proof.
  induction calls as [|c calls IH]; intros calls' h h' cur cur' results hA Hcalls Hcur Hcur'
    [Hex Hdata] Hrun.
  - apply Forall2_nil_inv_l in Hcalls as ->. simpl in Hrun. injection Hrun as <- <-.
    exists [], h'. by split.
  - apply Forall2_cons_inv_l in Hcalls as (c' & calls1 & [p ->] & Hcalls & ->).
    simpl in Hrun |- *. unfold call_insert, insert in Hrun |- *.
    rewrite Hcur in Hrun. rewrite Hcur'. cbn [with_priority i_cx i_cy i_cz i_offsetX
      i_offsetY i_halfWidth i_halfHeight i_tile i_tileSize i_priority i_slope].
    destruct (chain_array_returns (i_halfWidth c) (i_halfHeight c) (i_slope c))
      as [[n Hn]|Hn]; rewrite Hn in Hrun |- *; simpl in Hrun |- *.
    2: { destruct (insert_all calls h) as [[rs h2]| |] eqn:Hrest; simpl in Hrun; [|done..].
         injection Hrun as <- <-.
         destruct (IH calls1 h h' cur cur' rs h2 Hcalls Hcur Hcur' (conj Hex Hdata) Hrest)
           as (rs' & h2' & -> & Hrs).
         eexists _, _. split; [reflexivity|]. by constructor. }
    set (d := insert_data _ _ _ _ _ _ _ _ _ (i_priority c) _) in *.
    set (d' := insert_data _ _ _ _ _ _ _ _ _ p _).
    assert (Hd : boxes d' = boxes d) by apply insert_data_boxes.
    rewrite (intersects_boxes d d' _ _ Hd Hdata), Hex,
      (intersects_existing_boxes d d' _ Hd).
    destruct (intersects d (data cur)); simpl in Hrun |- *.
    { destruct (insert_all calls h) as [[rs h2]| |] eqn:Hrest; simpl in Hrun; [|done..].
      injection Hrun as <- <-.
      destruct (IH calls1 h h' cur cur' rs h2 Hcalls Hcur Hcur' (conj Hex Hdata) Hrest)
        as (rs' & h2' & -> & Hrs).
      eexists _, _. split; [reflexivity|]. by constructor. }
    destruct (intersects_existing d (existing cur)); simpl in Hrun |- *.
    { destruct (insert_all calls h) as [[rs h2]| |] eqn:Hrest; simpl in Hrun; [|done..].
      injection Hrun as <- <-.
      destruct (IH calls1 h h' cur cur' rs h2 Hcalls Hcur Hcur' (conj Hex Hdata) Hrest)
        as (rs' & h2' & -> & Hrs).
      eexists _, _. split; [reflexivity|]. by constructor. }
    destruct (insert_all calls _) as [[rs h2]| |] eqn:Hrest; simpl in Hrun; [|done..].
    injection Hrun as <- <-.
    eapply (IH calls1 _
              (mkHandler (tiles h')
                 (Some (mkLayerTileCollision (tileKey cur') (data cur' ++ [d']) (dataKey cur')
                          (existing cur))) true (timer h')))
      in Hrest as (rs' & h2' & -> & Hrs);
      [|exact Hcalls|reflexivity|reflexivity
       |split; [done|]; simpl; apply Forall2_app; [done|]; by repeat constructor].
    eexists _, _. split; [reflexivity|]. constructor; [simpl; by rewrite Hd|done].
Qed.

(** Phase 1 is first come, first served: whatever priorities the calls of
    [insert] of a batch are given, each call returns the same verdict, and an
    accepted candidate has the same boxes. *)
Theorem phase1_ignores_priority tq tile layer h calls calls' results hA :
  Forall2 (fun c c' => exists p, c' = with_priority p c) calls calls' ->
  insert_all calls (initTile tq tile layer h) = Normal (results, hA) ->
  exists results' hA',
    insert_all calls' (initTile tq tile layer h) = Normal (results', hA') /\
    Forall2 (fun r r' => boxes <$> r' = boxes <$> r) results results'.
Proof.
  intros Hcalls Hrun.
  destruct (initTile_batch tq tile layer h) as (cur & Hcur & Hdata).
  eapply (insert_all_boxes calls calls' _ _ cur cur); [done|exact Hcur|exact Hcur| |exact Hrun].
  split; [done|]. rewrite Hdata. constructor.
Qed.

Lemma phase1_ignores_priority_witness :
  let tile := mkTile "12" 2 1 2 in
  let h := initTile (fun _ _ _ => ""%string) tile (mkLayer "1" 512)
             (mkHandler ∅ None false None) in
  let low := mkInsertCall 10 10 0 0 0 5 5 tile 512 (Some 9) None in
  let high := mkInsertCall 12 12 0 0 0 5 5 tile 512 (Some 1) None in
  exists results results' hA hA',
    insert_all [low; high] h = Normal (results, hA) /\
    insert_all [with_priority (Some 1) low; with_priority (Some 9) high] h
      = Normal (results', hA') /\
    Forall2 (fun r r' => boxes <$> r' = boxes <$> r) results results' /\
    results !! 1%nat = Some None.
Proof.
  intros tile h low high.
  destruct (insert_all [low; high] h) as [[results hA]| |] eqn:Hrun;
    [|vm_compute in Hrun; discriminate..].
  destruct (phase1_ignores_priority (fun _ _ _ => ""%string) tile (mkLayer "1" 512)
              (mkHandler ∅ None false None) [low; high]
              [with_priority (Some 1) low; with_priority (Some 9) high] results hA)
    as (results' & hA' & Hrun' & Hsame); [repeat constructor; by eexists|exact Hrun|].
  exists results, results', hA, hA'. split; [reflexivity|]. split; [exact Hrun'|].
  split; [exact Hsame|]. vm_compute in Hrun. by injection Hrun as <- _.
Defined.

End FirstCome.
